(** * Simulated annealing: the engine of [src/index.ts] and its test fixtures

    A shallow embedding of [runSimulatedAnnealing] (src/index.ts) and of the
    strategies of its test-suite (src/index.test.ts: [copyState],
    [generateRandomNumber], [generateUniqueRandomNumbers],
    [generateNewState], [getCost]).

    Modelling choices.
    - The engine is given twice.  The first engine takes a JavaScript
      [number] for an exact real ([R]): it serves for what rests on the
      control flow and on comparisons of costs, where the code and the
      reals agree.  The second, [Double], takes a [number] for what it
      is, a binary64 float, with its rounding, its infinities and NaN, and
      [Math.exp] for a parameter: what depends on the arithmetic of the
      temperature or of the acceptance test is stated there.
    - The caller's strategies are arbitrary JavaScript functions: they may
      read and write the heap, draw from [Math.random], throw or never
      return.  They are computations in the monad [M W], a state monad over
      a world [W] with failure ([None]: the call does not return a value).
    - [while] loops carry fuel: one unit per iteration of the loop body.
    - The loops keep a ghost trace (one [Snapshot] per pass of the inner
      loop, grouped by pass of the outer loop) in which the properties of a
      run are stated.  [runSimulatedAnnealing] forgets it. *)

From Stdlib Require Import Reals Lra Lia List ZArith Bool Sorted.
From Stdlib Require Import Permutation.
From Stdlib Require Import Floats.
Import ListNotations.

Open Scope R_scope.

(** ** Numbers *)

(** [x < y] on JavaScript numbers, as a boolean. *)
Definition Rltb (x y : R) : bool := if Rlt_dec x y then true else false.

(** [x > y]. *)
Definition Rgtb (x y : R) : bool := Rltb y x.

(** ** Effects: state passing over a world, with failure *)

Definition M (W A : Type) : Type := W -> option (A * W).

Definition ret {W A : Type} (a : A) : M W A := fun w => Some (a, w).

Definition bind {W A B : Type} (c : M W A) (k : A -> M W B) : M W B :=
  fun w => match c w with
           | Some (a, w') => k a w'
           | None => None
           end.

(** The world as it is now. *)
Definition observe {W : Type} : M W W := fun w => Some (w, w).

(** A computation that does not return. *)
Definition stuck {W A : Type} : M W A := fun _ => None.

Notation "x <- c1 ;; c2" := (bind c1 (fun x => c2))
  (at level 61, c1 at next level, right associativity).

(** ** Arrays *)

(** The array with its element [i] replaced, [i] inside the array. *)
Fixpoint replaceAt {A : Type} (l : list A) (i : nat) (a : A) : list A :=
  match l, i with
  | [], _ => []
  | _ :: rest, O => a :: rest
  | x :: rest, S i' => x :: replaceAt rest i' a
  end.

(** ** The engine (src/index.ts) *)

(** [SimulatedAnnealingOptions]: every field is optional. *)
Record SimulatedAnnealingOptions : Type := {
  coolingFactor : option R;
  initialTemperature : option R;
  minimumTemperature : option R;
  (* the bound of [for (let i = 0; i < swapsPerTemperature; i += 1)],
     a count of passes *)
  swapsPerTemperature : option nat
}.

(** [{}], what [options ?? {}] gives when [options] is absent. *)
Definition noOptions : SimulatedAnnealingOptions :=
  {| coolingFactor := None; initialTemperature := None;
     minimumTemperature := None; swapsPerTemperature := None |}.

(** [SimulatedAnnealingArgs<T>]. *)
Record SimulatedAnnealingArgs (W T : Type) : Type := {
  copyState : T -> M W T;
  generateNewState : T -> M W T;
  getCost : T -> M W R;
  initialState : T;
  options : option SimulatedAnnealingOptions
}.

Arguments copyState {W T} _ _ _.
Arguments generateNewState {W T} _ _ _.
Arguments getCost {W T} _ _ _.
Arguments initialState {W T} _.
Arguments options {W T} _.

(** The local variables of [runSimulatedAnnealing]. *)
Record RunState (T : Type) : Type := {
  currentState : T;
  currentCost : R;
  currentTemperature : R;
  bestState : T;
  bestCost : R
}.

Arguments currentState {T} _.
Arguments currentCost {T} _.
Arguments currentTemperature {T} _.
Arguments bestState {T} _.
Arguments bestCost {T} _.

(** Ghost record of one pass of the inner loop. *)
Record Snapshot (W T : Type) : Type := {
  before : RunState T;        (* the variables when the pass starts *)
  neighbor : T;               (* [neighborState] *)
  neighborCost : R;           (* [neighborCost] *)
  accepted : bool;            (* the first [if] was taken *)
  between : RunState T;       (* the variables after the first [if] *)
  after : RunState T;         (* the variables when the pass ends *)
  world : W                   (* the world when the pass ends *)
}.

Arguments before {W T} _.
Arguments neighbor {W T} _.
Arguments neighborCost {W T} _.
Arguments accepted {W T} _.
Arguments between {W T} _.
Arguments after {W T} _.
Arguments world {W T} _.

(** One pass of the outer loop: its temperature and its inner passes. *)
Definition Trace (W T : Type) : Type := list (R * list (Snapshot W T)).

(** The inner passes of a whole run, in order. *)
Definition swaps {W T : Type} (tr : Trace W T) : list (Snapshot W T) :=
  concat (map snd tr).

(** The temperatures of the outer passes, in order. *)
Definition temperatures {W T : Type} (tr : Trace W T) : list R := map fst tr.

Section Engine.

Context {W T : Type}.

(** [Math.random], a computation on the world. *)
Variable Math_random : M W R.

(** [currentState = neighborState; currentCost = neighborCost;] *)
Definition acceptNeighbor (s : RunState T) (neighborState : T) (cost : R)
  : RunState T :=
  {| currentState := neighborState;
     currentCost := cost;
     currentTemperature := currentTemperature s;
     bestState := bestState s;
     bestCost := bestCost s |}.

(** [if (neighborCost < bestCost) { bestState = neighborState;
    bestCost = neighborCost; }] *)
Definition recordBest (s : RunState T) (neighborState : T) (cost : R)
  : RunState T :=
  if Rltb cost (bestCost s)
  then {| currentState := currentState s;
          currentCost := currentCost s;
          currentTemperature := currentTemperature s;
          bestState := neighborState;
          bestCost := cost |}
  else s.

(** [changeInCost < 0 ||
     Math.exp(-changeInCost / currentTemperature) > Math.random()]:
    [||] draws from [Math.random] only when its left operand is false.
    Here with the exponential and the quotient of the reals;
    [Double.acceptanceTest] has those of the code. *)
Definition acceptanceTest (changeInCost temperature : R) : M W bool :=
  if Rltb changeInCost 0 then ret true
  else u <- Math_random ;;
       ret (Rgtb (exp (- changeInCost / temperature)) u).

(** [currentTemperature *= coolingFactor], here with the exact product;
    [Double.cool] has the rounded one. *)
Definition cool (s : RunState T) (factor : R) : RunState T :=
  {| currentState := currentState s;
     currentCost := currentCost s;
     currentTemperature := currentTemperature s * factor;
     bestState := bestState s;
     bestCost := bestCost s |}.

Variable args : SimulatedAnnealingArgs W T.

(** The body of the [for] loop. *)
Definition swap (s : RunState T) : M W (Snapshot W T) :=
  neighborState <- generateNewState args (currentState s) ;;
  cost <- getCost args neighborState ;;
  let changeInCost := cost - currentCost s in
  taken <- acceptanceTest changeInCost (currentTemperature s) ;;
  let s1 := if taken then acceptNeighbor s neighborState cost else s in
  let s2 := recordBest s1 neighborState cost in
  w <- observe ;;
  ret {| before := s; neighbor := neighborState; neighborCost := cost;
         accepted := taken; between := s1; after := s2; world := w |}.

(** [for (let i = 0; i < swapsPerTemperature; i += 1) { ... }] *)
Fixpoint forLoop (n : nat) (s : RunState T)
  : M W (RunState T * list (Snapshot W T)) :=
  match n with
  | O => ret (s, [])
  | S n' =>
      snap <- swap s ;;
      r <- forLoop n' (after snap) ;;
      ret (fst r, snap :: snd r)
  end.

(** [while (currentTemperature > minimumTemperature) { for ...;
    currentTemperature *= coolingFactor; }] *)
Fixpoint whileLoop (fuel : nat) (factor minimum : R) (n : nat)
  (s : RunState T) : M W (RunState T * Trace W T) :=
  if Rgtb (currentTemperature s) minimum then
    match fuel with
    | O => stuck
    | S fuel' =>
        r <- forLoop n s ;;
        r' <- whileLoop fuel' factor minimum n (cool (fst r) factor) ;;
        ret (fst r', (currentTemperature s, snd r) :: snd r')
    end
  else ret (s, []).

Definition orDefault {A : Type} (field : option A) (default : A) : A :=
  match field with Some a => a | None => default end.

(** The four settings after destructuring with defaults. *)
Definition settings : SimulatedAnnealingOptions :=
  orDefault (options args) noOptions.
Definition theCoolingFactor : R := orDefault (coolingFactor settings) (99 / 100).
Definition theInitialTemperature : R := orDefault (initialTemperature settings) 1.
Definition theMinimumTemperature : R :=
  orDefault (minimumTemperature settings) (1 / 100000).
Definition theSwapsPerTemperature : nat :=
  orDefault (swapsPerTemperature settings) 10%nat.

(** The variables as the loops find them. *)
Definition initialise : M W (RunState T) :=
  current <- copyState args (initialState args) ;;
  cost <- getCost args (initialState args) ;;
  best <- copyState args (initialState args) ;;
  cost' <- getCost args (initialState args) ;;
  ret {| currentState := current;
         currentCost := cost;
         currentTemperature := theInitialTemperature;
         bestState := best;
         bestCost := cost' |}.

(** The whole function, with its trace. *)
Definition runTrace (fuel : nat) : M W (RunState T * Trace W T) :=
  s <- initialise ;;
  whileLoop fuel theCoolingFactor theMinimumTemperature
    theSwapsPerTemperature s.

(** [runSimulatedAnnealing]: [return bestState]. *)
Definition runSimulatedAnnealing (fuel : nat) : M W T :=
  r <- runTrace fuel ;;
  ret (bestState (fst r)).

End Engine.

(** [x === y] on numbers, as a boolean. *)
Definition Reqb (x y : R) : bool := if Req_dec_T x y then true else false.

(** ** The strategies of the test-suite (src/index.test.ts)

    A state is a [number[][]].  The fixtures never write to an array they
    were given (they write to the arrays [copyState] has just made), so
    their states are modelled as values: a list of groups, a group a list
    of elements.  An element is a number or [undefined] ([None]), which is
    what reading past the end of an array gives. *)

Module Test.

Definition Element : Type := option R.
Definition Group : Type := list Element.
Definition Groups : Type := list Group.

(** [array[i]], read: [undefined] outside the array. *)
Definition readAt (group : Group) (i : Z) : Element :=
  if (i <? 0)%Z then None
  else match nth_error group (Z.to_nat i) with
       | Some e => e
       | None => None
       end.

(** [array[i] = e], written: past the end JavaScript lengthens the array
    (the elements in between read as [undefined]); a negative [i] names a
    property, not an element, and leaves the elements as they are. *)
Definition writeAt (group : Group) (i : Z) (e : Element) : Group :=
  if (i <? 0)%Z then group
  else
    let k := Z.to_nat i in
    if (k <? length group)%nat then replaceAt group k e
    else group ++ repeat None (k - length group) ++ [e].

(** [copyState]: [reduce] pushes a copy of every group onto a new array. *)
Definition copyState (state : Groups) : Groups :=
  fold_left (fun accumulator group => accumulator ++ [map (fun e => e) group])
    state [].

Section Fixtures.

Context {W : Type}.

Variable Math_random : M W R.

(** [generateRandomNumber]:
    [Math.floor(Math.random() * (max - min + 1)) + min]. *)
Definition generateRandomNumber (min max : Z) : M W Z :=
  u <- Math_random ;;
  ret (Int_part (u * IZR (max - min + 1)) + min)%Z.

(** The [while (randomGroupOne === randomGroupTwo)] loop of
    [generateUniqueRandomNumbers]. *)
Fixpoint redraw (fuel : nat) (min max randomGroupOne randomGroupTwo : Z)
  : M W Z :=
  if (randomGroupOne =? randomGroupTwo)%Z then
    match fuel with
    | O => stuck
    | S fuel' =>
        again <- generateRandomNumber min max ;;
        redraw fuel' min max randomGroupOne again
    end
  else ret randomGroupTwo.

(** [generateUniqueRandomNumbers]. *)
Definition generateUniqueRandomNumbers (fuel : nat) (min max : Z)
  : M W (Z * Z) :=
  randomGroupOne <- generateRandomNumber min max ;;
  randomGroupTwo <- redraw fuel min max randomGroupOne randomGroupOne ;;
  ret (randomGroupOne, randomGroupTwo).

(** [result[g]], a group of [result]; [undefined] outside, and the read or
    write of an element of [undefined] that follows throws. *)
Definition groupAt (result : Groups) (g : Z) : M W Group :=
  if (g <? 0)%Z then stuck
  else match nth_error result (Z.to_nat g) with
       | Some group => ret group
       | None => stuck
       end.

(** [result[g][i] = e]. *)
Definition writeElement (result : Groups) (g i : Z) (e : Element)
  : M W Groups :=
  group <- groupAt result g ;;
  ret (replaceAt result (Z.to_nat g) (writeAt group i e)).

(** [generateNewState]. *)
Definition generateNewState (fuel : nat) (groups : Groups) : M W Groups :=
  let numGroups := Z.of_nat (length groups) in
  if (numGroups =? 0)%Z then ret groups
  else
    pair <- generateUniqueRandomNumbers fuel 0 (numGroups - 1) ;;
    let g1 := fst pair in
    let g2 := snd pair in
    let groupSize := Z.of_nat (length (nth 0 groups [])) in
    i1 <- generateRandomNumber 0 (groupSize - 1) ;;
    i2 <- generateRandomNumber 0 (groupSize - 1) ;;
    let result := copyState groups in
    group1 <- groupAt result g1 ;;
    let temp := readAt group1 i1 in
    group2 <- groupAt result g2 ;;
    result1 <- writeElement result g1 i1 (readAt group2 i2) ;;
    writeElement result1 g2 i2 temp.

End Fixtures.

(** The object literal [preferences] of [getCost]: a row for each of the
    keys 1 to 8, a value for each of the keys 1 to 8 in every row. *)
Definition preferences : list (R * list (R * R)) :=
  [ (1, [(1, 2); (2, 0); (3, 2); (4, 0); (5, 2); (6, 0); (7, 2); (8, 0)]);
    (2, [(1, 0); (2, 2); (3, 0); (4, 2); (5, 0); (6, 2); (7, 0); (8, 2)]);
    (3, [(1, 2); (2, 0); (3, 2); (4, 0); (5, 2); (6, 0); (7, 2); (8, 0)]);
    (4, [(1, 0); (2, 2); (3, 0); (4, 2); (5, 0); (6, 2); (7, 0); (8, 2)]);
    (5, [(1, 2); (2, 0); (3, 2); (4, 0); (5, 2); (6, 0); (7, 2); (8, 0)]);
    (6, [(1, 0); (2, 2); (3, 0); (4, 2); (5, 0); (6, 2); (7, 0); (8, 2)]);
    (7, [(1, 2); (2, 0); (3, 2); (4, 0); (5, 2); (6, 0); (7, 2); (8, 0)]);
    (8, [(1, 0); (2, 2); (3, 0); (4, 2); (5, 0); (6, 2); (7, 0); (8, 2)]) ].

(** [object[key]] on an object literal with numeric keys: [undefined]
    ([None]) when no key is the number, and for the key [undefined]. *)
Fixpoint property {A : Type} (object : list (R * A)) (key : Element)
  : option A :=
  match object, key with
  | [], _ => None
  | _, None => None
  | (k, v) :: rest, Some x => if Reqb k x then Some v else property rest key
  end.

(** [groupQualityScore += preferences[a][b]].  The score is a number or
    NaN ([None]): a value that is [undefined] makes it NaN, and NaN
    stays.  Reading a property of a row that is [undefined] throws (the
    outer [None]). *)
Definition addPreference (score : option R) (a b : Element)
  : option (option R) :=
  match property preferences a with
  | None => None
  | Some row =>
      Some (match score, property row b with
            | Some q, Some v => Some (q + v)
            | _, _ => None
            end)
  end.

(** [for (let j = i + 1; j < group.length; j += 1)]: [a] is [group[i]],
    [rest] the elements after it. *)
Fixpoint scoreAgainst (score : option R) (a : Element) (rest : Group)
  : option (option R) :=
  match rest with
  | [] => Some score
  | b :: rest' =>
      match addPreference score a b with
      | None => None
      | Some score' => scoreAgainst score' a rest'
      end
  end.

(** [for (let i = 0; i < group.length - 1; i += 1)]: every element
    against those after it, in the order of the two loops. *)
Fixpoint groupQualityScore (score : option R) (group : Group)
  : option (option R) :=
  match group with
  | [] => Some score
  | a :: rest =>
      match scoreAgainst score a rest with
      | None => None
      | Some score' => groupQualityScore score' rest
      end
  end.

(** [Math.log]: a real number above 0 only. *)
Definition Math_log (q : R) : option R :=
  if Rltb 0 q then Some (ln q) else None.

(** [groupQualityScore ? Math.log(groupQualityScore) : 0]: 0 and NaN are
    falsy. *)
Definition groupTerm (score : option R) : option R :=
  match score with
  | None => Some 0
  | Some q => if Reqb q 0 then Some 0 else Math_log q
  end.

(** [accumulator - term], NaN when either is. *)
Definition minus (accumulator term : option R) : option R :=
  match accumulator, term with
  | Some a, Some t => Some (a - t)
  | _, _ => None
  end.

(** [getCost]: [None] when it throws, [Some None] when the cost is NaN. *)
Definition getCost (state : Groups) : option (option R) :=
  fold_left
    (fun accumulator group =>
       match accumulator with
       | None => None
       | Some acc =>
           match groupQualityScore (Some 0) group with
           | None => None
           | Some score => Some (minus acc (groupTerm score))
           end
       end)
    state (Some (Some 0)).

End Test.

(** The arguments the test-suite passes: its [copyState] and
    [generateNewState], with a cost function that reads the state and
    nothing else. *)
Definition fixtureArgs {W : Type} (random : M W R) (fuel : nat)
  (cost : Test.Groups -> R) (groups : Test.Groups)
  (opts : option SimulatedAnnealingOptions)
  : SimulatedAnnealingArgs W Test.Groups :=
  {| copyState := fun state => ret (Test.copyState state);
     generateNewState := Test.generateNewState random fuel;
     getCost := fun state => ret (cost state);
     initialState := groups;
     options := opts |}.

(** ** Worlds *)

(** The draws [Math.random] will return, in order. *)
Definition Draws : Type := nat -> R.

Definition nextDraw (d : Draws) : R * Draws := (d O, fun n => d (S n)).

(** A world that holds nothing but the source of randomness. *)
Definition drawRandom : M Draws R := fun d => Some (nextDraw d).

(** [Math.random] returns a number in [0, 1). *)
Definition unitInterval {W : Type} (random : M W R) : Prop :=
  forall w u w', random w = Some (u, w') -> 0 <= u < 1.

(** Every draw is 1/2. *)
Definition halves : Draws := fun _ => 1 / 2.

(** A source of randomness that returns [u] every time, with nothing else
    in the world. *)
Definition fixedDraw (u : R) : M unit R := fun _ => Some (u, tt).

(** A world with a heap: states are references to objects. *)
Definition Ref : Type := nat.

Record Heap (V : Type) : Type := {
  objects : list V;
  draws : Draws
}.

Arguments objects {V} _.
Arguments draws {V} _.

(** The object a reference points to. *)
Definition deref {V : Type} (h : Heap V) (r : Ref) : option V :=
  nth_error (objects h) r.

(** A new object. *)
Definition allocate {V : Type} (v : V) : M (Heap V) Ref :=
  fun h => Some (length (objects h),
                 {| objects := objects h ++ [v]; draws := draws h |}).

(** [r.field = v] on the object behind [r]. *)
Definition store {V : Type} (r : Ref) (v : V) : M (Heap V) unit :=
  fun h => match deref h r with
           | Some _ => Some (tt, {| objects := replaceAt (objects h) r v;
                                    draws := draws h |})
           | None => None
           end.

Definition load {V : Type} (r : Ref) : M (Heap V) V :=
  fun h => match deref h r with
           | Some v => Some (v, h)
           | None => None
           end.

Definition heapRandom {V : Type} : M (Heap V) R :=
  fun h => let (u, rest) := nextDraw (draws h) in
           Some (u, {| objects := objects h; draws := rest |}).

(** ** Callers used as examples

    A state [{ value: number }] whose cost is its [value]. *)

(** [state => ({ value: state.value })] *)
Definition cellCopy (state : Ref) : M (Heap R) Ref :=
  v <- load state ;; allocate v.

(** [state => state.value] *)
Definition cellCost (state : Ref) : M (Heap R) R := load state.

(** Where the walk of the examples goes next: down by 2 from above 4, up
    by 6 from there. *)
Definition nudge (v : R) : R := if Rltb 4 v then v - 2 else v + 6.

(** [state => ({ value: nudge(state.value) })]: a new object. *)
Definition cellNeighbor (state : Ref) : M (Heap R) Ref :=
  v <- load state ;; allocate (nudge v).

(** [state => { state.value = nudge(state.value); return state; }]: the
    object it was given, written in place. *)
Definition cellNeighborInPlace (state : Ref) : M (Heap R) Ref :=
  v <- load state ;;
  _ <- store state (nudge v) ;;
  ret state.

(** One outer pass of two inner passes: temperature 1, halved, against a
    minimum of 1/2. *)
Definition twoSwaps : SimulatedAnnealingOptions :=
  {| coolingFactor := Some (1 / 2);
     initialTemperature := Some 1;
     minimumTemperature := Some (1 / 2);
     swapsPerTemperature := Some 2%nat |}.

Definition cellArgs (neighborOf : Ref -> M (Heap R) Ref) (state : Ref)
  (opts : option SimulatedAnnealingOptions)
  : SimulatedAnnealingArgs (Heap R) Ref :=
  {| copyState := cellCopy;
     generateNewState := neighborOf;
     getCost := cellCost;
     initialState := state;
     options := opts |}.

(** A heap with one object, of value 5, and every draw 1/2. *)
Definition oneCell : Heap R :=
  {| objects := [5]; draws := halves |}.

(** States that are numbers, with the world the source of randomness:
    the neighbor of [x] is [x - 1], the cost of [x] is [x]. *)
Definition descentArgs (start : R) (opts : option SimulatedAnnealingOptions)
  : SimulatedAnnealingArgs Draws R :=
  {| copyState := fun x => ret x;
     generateNewState := fun x => ret (x - 1);
     getCost := fun x => ret x;
     initialState := start;
     options := opts |}.

(** ** What the properties are stated with *)

(** The smallest integer not below [x]. *)
Definition ceil (x : R) : Z := (- Int_part (- x))%Z.

(** [ceil(log(minimumTemperature / initialTemperature) /
    log(coolingFactor))], the count of outer passes the specification
    gives. *)
Definition outerPasses (factor initial minimum : R) : nat :=
  Z.to_nat (ceil (ln (minimum / initial) / ln factor)).

(** The least of [c] and the numbers of [l]. *)
Definition least (c : R) (l : list R) : R := fold_left Rmin l c.

(** [l] never goes up. *)
Definition nonIncreasing (l : list R) : Prop :=
  forall pre x mid y post, l = pre ++ x :: mid ++ y :: post -> y <= x.

(** The candidates for [bestState], in the order the run meets them: the
    state and cost it starts from, then every neighbor with its cost. *)
Definition candidates {W T : Type} (start : RunState T)
  (passes : list (Snapshot W T)) : list (T * R) :=
  (bestState start, bestCost start)
  :: map (fun snap => (neighbor snap, neighborCost snap)) passes.

(** [p] is the first of [l] whose cost is the least of [l]. *)
Definition earliestLeast {T : Type} (p : T * R) (l : list (T * R)) : Prop :=
  exists pre post,
    l = pre ++ p :: post /\
    Forall (fun q => snd p < snd q) pre /\
    Forall (fun q => snd p <= snd q) post.

(** The best cost as each pass of the inner loop leaves it. *)
Definition bestCosts {W T : Type} (tr : Trace W T) : list R :=
  map (fun snap => bestCost (after snap)) (swaps tr).

(** Every object of [h] is in [h'], as it was. *)
Definition keeps {V : Type} (h h' : Heap V) : Prop :=
  forall r v, deref h r = Some v -> deref h' r = Some v.

(** A computation that writes to no object that exists when it starts. *)
Definition framed {V A : Type} (c : M (Heap V) A) : Prop :=
  forall h a h', c h = Some (a, h') -> keeps h h'.

(** A computation whose result is a reference to an object. *)
Definition allocates {V : Type} (c : M (Heap V) Ref) : Prop :=
  forall h r h', c h = Some (r, h') -> exists v, deref h' r = Some v.

(** The copy discipline the engine counts on: no strategy writes to an
    object that exists, and [copyState] and [generateNewState] return
    references to objects. *)
Definition copyDiscipline {V : Type} (random : M (Heap V) R)
  (args : SimulatedAnnealingArgs (Heap V) Ref) : Prop :=
  (forall t, framed (copyState args t)) /\
  (forall t, allocates (copyState args t)) /\
  (forall t, framed (generateNewState args t)) /\
  (forall t, allocates (generateNewState args t)) /\
  (forall t, framed (getCost args t)) /\
  framed random.

(** [P] held when each pass of [hist] ended: of the passes up to it, the
    variables then and the world then. *)
Definition atEveryPass {W T : Type}
  (P : list (Snapshot W T) -> RunState T -> W -> Prop)
  (hist : list (Snapshot W T)) : Prop :=
  forall pre snap post,
    hist = pre ++ snap :: post -> P (pre ++ [snap]) (after snap) (world snap).

(** The caller's contract on [getCost]: a function of the state alone,
    with no effect on the world. *)
Definition pureCost {W T : Type} (args : SimulatedAnnealingArgs W T)
  (cost : T -> R) : Prop :=
  forall t w, getCost args t w = Some (cost t, w).

(** The caller's contract on [copyState], as far as cost goes: the copy
    costs what the original costs. *)
Definition faithfulCopy {W T : Type} (args : SimulatedAnnealingArgs W T)
  (cost : T -> R) : Prop :=
  forall t w t' w', copyState args t w = Some (t', w') -> cost t' = cost t.

(** Every strategy returns, whatever it is given. *)
Definition returns {W A B : Type} (f : A -> M W B) : Prop :=
  forall a w, exists b w', f a w = Some (b, w').

Definition terminating {W T : Type} (random : M W R)
  (args : SimulatedAnnealingArgs W T) : Prop :=
  returns (copyState args) /\ returns (generateNewState args) /\
  returns (getCost args) /\ (forall w, exists u w', random w = Some (u, w')).

(** ** More callers and settings used as examples *)

(** A schedule that never cools: one inner pass per outer pass, the
    temperature multiplied by 1. *)
Definition noCooling : SimulatedAnnealingOptions :=
  {| coolingFactor := Some 1;
     initialTemperature := Some 1;
     minimumTemperature := Some (1 / 2);
     swapsPerTemperature := Some 1%nat |}.

(** A schedule that has nothing to do: the initial temperature is the
    minimum. *)
Definition alreadyCold : SimulatedAnnealingOptions :=
  {| coolingFactor := Some (1 / 2);
     initialTemperature := Some 1;
     minimumTemperature := Some 1;
     swapsPerTemperature := Some 2%nat |}.

(** A source of randomness whose world counts the draws made: 1/4 on the
    even draws, 3/4 on the odd ones. *)
Definition alternatingDraw : M nat R :=
  fun n => Some (if Nat.even n then 1 / 4 else 3 / 4, S n).

(** ** More of what the properties are stated with *)

(** A computation whose result is a reference that pointed to no object
    when it started. *)
Definition fresh {V : Type} (c : M (Heap V) Ref) : Prop :=
  forall h r h', c h = Some (r, h') -> deref h r = None.

(** An element the table of [getCost] knows: one of the numbers 1 to 8. *)
Definition person (k : Z) : Test.Element := Some (IZR k).

Definition known (k : Z) : Prop := (1 <= k <= 8)%Z.

(** An element the table has no key for. *)
Definition stranger (e : Test.Element) : Prop :=
  forall k, known k -> e <> person k.

(** The pairs of a group that the table rewards: both members odd or
    both even. *)
Fixpoint samePairs (group : list Z) : nat :=
  match group with
  | [] => O
  | a :: rest =>
      (length (filter (fun b => Bool.eqb (Z.even a) (Z.even b)) rest)
       + samePairs rest)%nat
  end.

(** What a group of known numbers contributes to the cost. *)
Definition groupCost (group : list Z) : R :=
  if (samePairs group =? 0)%nat then 0 else ln (2 * INR (samePairs group)).

(** The cost of a state of known numbers. *)
Definition costOfPeople (state : list (list Z)) : R :=
  fold_left (fun accumulator group => accumulator - groupCost group) state 0.

(** One outer pass of one inner pass. *)
Definition onePass : SimulatedAnnealingOptions :=
  {| coolingFactor := Some (1 / 2);
     initialTemperature := Some 1;
     minimumTemperature := Some (1 / 2);
     swapsPerTemperature := Some 1%nat |}.


(** A cost for the states of the test-suite that reads one element:
    minus the first element of the first group. *)
Definition firstElementCost (state : Test.Groups) : R :=
  match state with
  | (Some x :: _) :: _ => - x
  | _ => 0
  end.

(** A group all of whose numbers have the same parity. *)
Definition oneParity (group : list Z) : Prop :=
  exists parity, Forall (fun k => Z.even k = parity) group.

(** A caller whose [getCost] is not a function of the state: it returns
    the number of times it has been called, which the world counts.  The
    state never changes, and every draw is 1/2. *)
Definition countingArgs (opts : option SimulatedAnnealingOptions)
  : SimulatedAnnealingArgs nat unit :=
  {| copyState := fun x => ret x;
     generateNewState := fun x => ret x;
     getCost := fun _ calls => Some (INR calls, S calls);
     initialState := tt;
     options := opts |}.

Definition countingRandom : M nat R := fun calls => Some (1 / 2, calls).

(** ** The engine in binary64

    The same function with every [number] a binary64 float, as
    JavaScript has it: products, differences and quotients are rounded,
    comparisons with NaN are false, and a division by zero gives an
    infinity or NaN.  [Math.exp], which ECMAScript leaves to the
    implementation to approximate, is a parameter.  What depends on the
    arithmetic of the temperature or of the acceptance test is stated on
    this engine.

    The loops are observed for at most [fuel] passes of the outer loop:
    they give the variables and the trace as they stand then, with a flag
    that tells whether the loop has ended. *)

Module Double.

Record SimulatedAnnealingOptions : Type := {
  coolingFactor : option float;
  initialTemperature : option float;
  minimumTemperature : option float;
  swapsPerTemperature : option nat
}.

Definition noOptions : SimulatedAnnealingOptions :=
  {| coolingFactor := None; initialTemperature := None;
     minimumTemperature := None; swapsPerTemperature := None |}.

Record SimulatedAnnealingArgs (W T : Type) : Type := {
  copyState : T -> M W T;
  generateNewState : T -> M W T;
  getCost : T -> M W float;
  initialState : T;
  options : option SimulatedAnnealingOptions
}.

Arguments copyState {W T} _ _ _.
Arguments generateNewState {W T} _ _ _.
Arguments getCost {W T} _ _ _.
Arguments initialState {W T} _.
Arguments options {W T} _.

Record RunState (T : Type) : Type := {
  currentState : T;
  currentCost : float;
  currentTemperature : float;
  bestState : T;
  bestCost : float
}.

Arguments currentState {T} _.
Arguments currentCost {T} _.
Arguments currentTemperature {T} _.
Arguments bestState {T} _.
Arguments bestCost {T} _.

Record Snapshot (W T : Type) : Type := {
  before : RunState T;
  neighbor : T;
  neighborCost : float;
  accepted : bool;
  between : RunState T;
  after : RunState T;
  world : W
}.

Arguments before {W T} _.
Arguments neighbor {W T} _.
Arguments neighborCost {W T} _.
Arguments accepted {W T} _.
Arguments between {W T} _.
Arguments after {W T} _.
Arguments world {W T} _.

Definition Trace (W T : Type) : Type := list (float * list (Snapshot W T)).

Definition swaps {W T : Type} (tr : Trace W T) : list (Snapshot W T) :=
  concat (map snd tr).

Definition temperatures {W T : Type} (tr : Trace W T) : list float :=
  map fst tr.

Section Engine.

Context {W T : Type}.

(** [Math.random] and [Math.exp]. *)
Variable Math_random : M W float.
Variable Math_exp : float -> float.

Definition acceptNeighbor (s : RunState T) (neighborState : T) (cost : float)
  : RunState T :=
  {| currentState := neighborState;
     currentCost := cost;
     currentTemperature := currentTemperature s;
     bestState := bestState s;
     bestCost := bestCost s |}.

(** [if (neighborCost < bestCost) { ... }] *)
Definition recordBest (s : RunState T) (neighborState : T) (cost : float)
  : RunState T :=
  if (cost <? bestCost s)%float
  then {| currentState := currentState s;
          currentCost := currentCost s;
          currentTemperature := currentTemperature s;
          bestState := neighborState;
          bestCost := cost |}
  else s.

(** [changeInCost < 0 ||
     Math.exp(-changeInCost / currentTemperature) > Math.random()] *)
Definition acceptanceTest (changeInCost temperature : float) : M W bool :=
  if (changeInCost <? 0)%float then ret true
  else u <- Math_random ;;
       ret (u <? Math_exp (- changeInCost / temperature))%float.

(** [currentTemperature *= coolingFactor] *)
Definition cool (s : RunState T) (factor : float) : RunState T :=
  {| currentState := currentState s;
     currentCost := currentCost s;
     currentTemperature := (currentTemperature s * factor)%float;
     bestState := bestState s;
     bestCost := bestCost s |}.

Variable args : SimulatedAnnealingArgs W T.

(** The body of the [for] loop. *)
Definition swap (s : RunState T) : M W (Snapshot W T) :=
  neighborState <- generateNewState args (currentState s) ;;
  cost <- getCost args neighborState ;;
  let changeInCost := (cost - currentCost s)%float in
  taken <- acceptanceTest changeInCost (currentTemperature s) ;;
  let s1 := if taken then acceptNeighbor s neighborState cost else s in
  let s2 := recordBest s1 neighborState cost in
  w <- observe ;;
  ret {| before := s; neighbor := neighborState; neighborCost := cost;
         accepted := taken; between := s1; after := s2; world := w |}.

Fixpoint forLoop (n : nat) (s : RunState T)
  : M W (RunState T * list (Snapshot W T)) :=
  match n with
  | O => ret (s, [])
  | S n' =>
      snap <- swap s ;;
      r <- forLoop n' (after snap) ;;
      ret (fst r, snap :: snd r)
  end.

(** [while (currentTemperature > minimumTemperature) { for ...;
    currentTemperature *= coolingFactor; }], for at most [fuel] passes:
    the flag is [true] when the loop has ended. *)
Fixpoint whileLoop (fuel : nat) (factor minimum : float) (n : nat)
  (s : RunState T) : M W (RunState T * Trace W T * bool) :=
  if (minimum <? currentTemperature s)%float then
    match fuel with
    | O => ret (s, [], false)
    | S fuel' =>
        r <- forLoop n s ;;
        r' <- whileLoop fuel' factor minimum n (cool (fst r) factor) ;;
        ret (fst (fst r'), (currentTemperature s, snd r) :: snd (fst r'),
             snd r')
    end
  else ret (s, [], true).

Definition settings : SimulatedAnnealingOptions :=
  match options args with Some o => o | None => noOptions end.

(** The defaults [0.99] and [0.00001] are the doubles nearest to 99/100
    and to 1/100000, which is what the rounded quotients are. *)
Definition theCoolingFactor : float :=
  match coolingFactor settings with Some f => f | None => (99 / 100)%float end.
Definition theInitialTemperature : float :=
  match initialTemperature settings with Some t => t | None => 1%float end.
Definition theMinimumTemperature : float :=
  match minimumTemperature settings with
  | Some t => t
  | None => (1 / 100000)%float
  end.
Definition theSwapsPerTemperature : nat :=
  match swapsPerTemperature settings with Some n => n | None => 10%nat end.

Definition initialise : M W (RunState T) :=
  current <- copyState args (initialState args) ;;
  cost <- getCost args (initialState args) ;;
  best <- copyState args (initialState args) ;;
  cost' <- getCost args (initialState args) ;;
  ret {| currentState := current;
         currentCost := cost;
         currentTemperature := theInitialTemperature;
         bestState := best;
         bestCost := cost' |}.

(** The whole function observed for at most [fuel] passes of the outer
    loop, with its trace. *)
Definition runTrace (fuel : nat) : M W (RunState T * Trace W T * bool) :=
  s <- initialise ;;
  whileLoop fuel theCoolingFactor theMinimumTemperature
    theSwapsPerTemperature s.

(** [runSimulatedAnnealing]: [return bestState], once the loop has
    ended. *)
Definition runSimulatedAnnealing (fuel : nat) : M W T :=
  r <- runTrace fuel ;;
  if snd r then ret (bestState (fst (fst r))) else stuck.

End Engine.

(** The temperature of outer pass [j]: the initial temperature multiplied
    [j] times by the factor, each product rounded. *)
Definition cooled (factor initial : float) (j : nat) : float :=
  Nat.iter j (fun t => (t * factor)%float) initial.

(** Whether the first [n] temperatures of the schedule from [t] are all
    above the minimum. *)
Fixpoint allAbove (n : nat) (factor minimum t : float) : bool :=
  match n with
  | O => true
  | S n' =>
      (minimum <? t)%float && allAbove n' factor minimum (t * factor)%float
  end.

(** [l] goes down at every step. *)
Definition strictlyDecreasing (l : list float) : Prop :=
  forall pre x mid y post,
    l = pre ++ x :: mid ++ y :: post -> (y <? x)%float = true.

(** Every strategy returns, whatever it is given. *)
Definition terminating {W T : Type} (random : M W float)
  (args : SimulatedAnnealingArgs W T) : Prop :=
  returns (copyState args) /\ returns (generateNewState args) /\
  returns (getCost args) /\ (forall w, exists u w', random w = Some (u, w')).

(** [2^-1022], the smallest positive normal number of binary64. *)
Definition smallestNormal : float := 0x1p-1022%float.

(** The real number a finite float stands for. *)
Definition valueOf (x : float) : R :=
  match Prim2SF x with
  | S754_finite s m e =>
      (if s then -1 else 1) * IZR (Z.pos m)
      * (if (0 <=? e)%Z then IZR (2 ^ e) else / IZR (2 ^ (- e)))
  | _ => 0
  end.

(** The place of a positive finite float among the positive finite
    floats. *)
Definition rank (x : float) : Z :=
  match Prim2SF x with
  | S754_finite false m e => (e + 1074) * 2 ^ 53 + Z.pos m
  | _ => 0
  end.

(** *** Callers and settings used as examples *)

(** Every draw is [u]. *)
Definition fixedDraw (u : float) : M unit float := fun _ => Some (u, tt).

(** One approximation of the exponential, for the examples:
    [(1 + y + y^2/2 + ... + y^6/720)^4096] with [y = x / 4096], and the
    values ECMAScript fixes. *)
Definition sampleExp (x : float) : float :=
  if is_nan x then nan
  else if (x <? -800)%float then 0%float
  else if (800 <? x)%float then infinity
  else
    let y := (x / 4096)%float in
    let p := (1 + y * (1 + y / 2 * (1 + y / 3 * (1 + y / 4
               * (1 + y / 5 * (1 + y / 6))))))%float in
    Nat.iter 12 (fun q => (q * q)%float) p.

(** States that are numbers: the neighbor of [x] is [x - 1], the cost of
    [x] is [x]; every neighbor is better. *)
Definition descentArgs (start : float) (opts : option SimulatedAnnealingOptions)
  : SimulatedAnnealingArgs unit float :=
  {| copyState := fun x => ret x;
     generateNewState := fun x => ret (x - 1)%float;
     getCost := fun x => ret x;
     initialState := start;
     options := opts |}.


(** A schedule by halves: temperatures 1 and 1/2, two inner passes each. *)
Definition halving : SimulatedAnnealingOptions :=
  {| coolingFactor := Some 0.5%float;
     initialTemperature := Some 1%float;
     minimumTemperature := Some 0.25%float;
     swapsPerTemperature := Some 2%nat |}.

(** A minimum that is the rounded square of the factor. *)
Definition squareMinimum : SimulatedAnnealingOptions :=
  {| coolingFactor := Some (99 / 100)%float;
     initialTemperature := Some 1%float;
     minimumTemperature := Some (99 / 100 * (99 / 100))%float;
     swapsPerTemperature := Some 1%nat |}.

(** A subnormal initial temperature, [49 * 2^-1074], and no minimum to
    speak of. *)
Definition stalling : SimulatedAnnealingOptions :=
  {| coolingFactor := Some (99 / 100)%float;
     initialTemperature := Some 0x31p-1074%float;
     minimumTemperature := Some 0%float;
     swapsPerTemperature := Some 1%nat |}.

(** The defaults, but for a minimum temperature of 0. *)
Definition untilCold : SimulatedAnnealingOptions :=
  {| coolingFactor := None;
     initialTemperature := None;
     minimumTemperature := Some 0%float;
     swapsPerTemperature := None |}.


End Double.

(** ** Rounding in binary64: what the lemmas are stated with *)

(** [n] shifts divide the mantissa by [2^n]; the round bit is set only
    when what fell off is at least half of [2^n]. *)
Definition shifted (n : Z) (a b : shr_record) : Prop :=
  shr_m b = (shr_m a / 2 ^ n)%Z /\
  (shr_r b = true -> (2 ^ n <= 2 * (shr_m a mod 2 ^ n))%Z).

(** The second half of [binary_round_aux]: the rounded mantissa is put
    back into the format. *)
Definition finish (M2 e1 : Z) : spec_float :=
  let '(mrs, e) := shr_fexp prec emax M2 e1 loc_Exact in
  match shr_m mrs with
  | Z0 => S754_zero false
  | Zpos m =>
      if (e <=? emax - prec)%Z then S754_finite false m e
      else S754_infinity false
  | Zneg _ => S754_nan
  end.

(** * Properties *)

(** ** Comparisons *)

Lemma Rltb_true (x y : R) : x < y -> Rltb x y = true.
Proof.
  intros H. unfold Rltb. destruct (Rlt_dec x y); [reflexivity | contradiction].
Qed.

Lemma Rltb_false (x y : R) : y <= x -> Rltb x y = false.
Proof. intros H. unfold Rltb. destruct (Rlt_dec x y); [lra | reflexivity]. Qed.

Lemma Rltb_cases (x y : R) :
  (x < y /\ Rltb x y = true) \/ (y <= x /\ Rltb x y = false).
Proof.
  destruct (Rlt_dec x y) as [H | H].
  - left. split; [assumption | now apply Rltb_true].
  - right. split; [lra | apply Rltb_false; lra].
Qed.

(** ** The monad *)

Lemma bind_Some {W A B : Type} (c : M W A) (k : A -> M W B) (w w' : W) (b : B) :
  bind c k w = Some (b, w') <->
  exists a w1, c w = Some (a, w1) /\ k a w1 = Some (b, w').
Proof.
  unfold bind. split.
  - destruct (c w) as [[a w1] |]; [| discriminate].
    intros H. exists a, w1. split; [reflexivity | assumption].
  - intros (a & w1 & Hc & Hk). rewrite Hc. assumption.
Qed.

Lemma bind_None {W A B : Type} (c : M W A) (k : A -> M W B) (w : W) :
  c w = None -> bind c k w = None.
Proof. intros H. unfold bind. rewrite H. reflexivity. Qed.

Lemma ret_Some {W A : Type} (a b : A) (w w' : W) :
  ret a w = Some (b, w') <-> a = b /\ w = w'.
Proof.
  unfold ret. split.
  - intros H. injection H as -> ->. split; reflexivity.
  - intros [-> ->]. reflexivity.
Qed.

(** Takes a hypothesis [c w = Some _] apart along the binds of [c]. *)
Ltac unbind H :=
  repeat match type of H with
         | bind _ _ _ = Some _ =>
             let a := fresh "a" in
             let w := fresh "w" in
             let Hc := fresh "Hc" in
             apply bind_Some in H; destruct H as (a & w & Hc & H)
         | ret _ _ = Some _ =>
             apply ret_Some in H; destruct H as [H ?]
         end.

(** ** One pass of the inner loop *)

Section Pass.

Context {W T : Type}.
Variable Math_random : M W R.
Variable args : SimulatedAnnealingArgs W T.

(** What a pass that returns has done, step by step. *)
Lemma swap_inv (s : RunState T) (w w' : W) (snap : Snapshot W T) :
  swap Math_random args s w = Some (snap, w') ->
  exists w1 w2,
    generateNewState args (currentState s) w = Some (neighbor snap, w1) /\
    getCost args (neighbor snap) w1 = Some (neighborCost snap, w2) /\
    acceptanceTest Math_random (neighborCost snap - currentCost s)
      (currentTemperature s) w2 = Some (accepted snap, w') /\
    before snap = s /\
    between snap =
      (if accepted snap
       then acceptNeighbor s (neighbor snap) (neighborCost snap) else s) /\
    after snap = recordBest (between snap) (neighbor snap) (neighborCost snap) /\
    world snap = w'.
Proof.
  unfold swap. intros H.
  apply bind_Some in H. destruct H as (n & w1 & Hgen & H).
  apply bind_Some in H. destruct H as (c & w2 & Hcost & H).
  apply bind_Some in H. destruct H as (b & w3 & Hacc & H).
  apply bind_Some in H. destruct H as (w4 & w5 & Hobs & H).
  unfold observe in Hobs. injection Hobs as <- <-.
  apply ret_Some in H. destruct H as [<- <-]. simpl.
  exists w1, w2. repeat split; assumption.
Qed.

Lemma recordBest_cases (s : RunState T) (n : T) (c : R) :
  (c < bestCost s /\ bestState (recordBest s n c) = n /\
   bestCost (recordBest s n c) = c /\
   currentState (recordBest s n c) = currentState s /\
   currentCost (recordBest s n c) = currentCost s /\
   currentTemperature (recordBest s n c) = currentTemperature s) \/
  (bestCost s <= c /\ recordBest s n c = s).
Proof.
  unfold recordBest.
  destruct (Rltb_cases c (bestCost s)) as [[Hlt ->] | [Hge ->]].
  - left. repeat split; assumption.
  - right. split; [assumption | reflexivity].
Qed.

(** The temperature is not touched by a pass. *)
Lemma swap_temperature (s : RunState T) (w w' : W) (snap : Snapshot W T) :
  swap Math_random args s w = Some (snap, w') ->
  currentTemperature (after snap) = currentTemperature s.
Proof.
  intros H. apply swap_inv in H.
  destruct H as (w1 & w2 & _ & _ & _ & _ & Hbetween & Hafter & _).
  rewrite Hafter.
  destruct (recordBest_cases (between snap) (neighbor snap) (neighborCost snap))
    as [(_ & _ & _ & _ & _ & ->) | [_ ->]];
    rewrite Hbetween; destruct (accepted snap); reflexivity.
Qed.

(** What a pass does to the best cost and the current cost. *)
Lemma swap_costs (s : RunState T) (w w' : W) (snap : Snapshot W T) :
  swap Math_random args s w = Some (snap, w') ->
  bestCost (after snap) = Rmin (bestCost s) (neighborCost snap) /\
  (currentCost (after snap) = currentCost s \/
   currentCost (after snap) = neighborCost snap).
Proof.
  intros H. apply swap_inv in H.
  destruct H as (w1 & w2 & _ & _ & _ & _ & Hbetween & Hafter & _).
  assert (Hb : bestCost (between snap) = bestCost s)
    by (rewrite Hbetween; destruct (accepted snap); reflexivity).
  assert (Hc : currentCost (between snap) = currentCost s \/
               currentCost (between snap) = neighborCost snap)
    by (rewrite Hbetween; destruct (accepted snap); [right | left]; reflexivity).
  rewrite Hafter.
  destruct (recordBest_cases (between snap) (neighbor snap) (neighborCost snap))
    as [(Hlt & _ & -> & _ & -> & _) | [Hge ->]].
  - split; [| assumption]. rewrite Hb in Hlt.
    rewrite Rmin_right; lra.
  - split; [| assumption]. rewrite Hb in *.
    rewrite Rmin_left; lra.
Qed.

End Pass.

(** ** Invariants of the loops

    A property [P] of the passes made so far, the variables and the world
    that every pass and every cooling step preserves holds when the loops
    end. *)

Section Invariant.

Context {W T : Type}.
Variable Math_random : M W R.
Variable args : SimulatedAnnealingArgs W T.
Variable P : list (Snapshot W T) -> RunState T -> W -> Prop.

Hypothesis P_swap : forall hist s w snap w',
  P hist s w -> swap Math_random args s w = Some (snap, w') ->
  P (hist ++ [snap]) (after snap) w'.

Hypothesis P_cool : forall hist s w factor,
  P hist s w -> P hist (cool s factor) w.

Lemma forLoop_invariant (n : nat) :
  forall hist s w s' snaps w',
    P hist s w ->
    forLoop Math_random args n s w = Some ((s', snaps), w') ->
    P (hist ++ snaps) s' w'.
Proof.
  induction n as [| n IH]; intros hist s w s' snaps w' HP H; simpl in H.
  - apply ret_Some in H. destruct H as [H <-]. injection H as <- <-.
    rewrite app_nil_r. assumption.
  - apply bind_Some in H. destruct H as (snap & w1 & Hswap & H).
    apply bind_Some in H. destruct H as ([s2 rest] & w2 & Hloop & H).
    apply ret_Some in H. destruct H as [H <-]. simpl in H.
    injection H as <- <-.
    specialize (IH (hist ++ [snap]) (after snap) w1 s2 rest w2).
    rewrite <- app_assoc in IH. simpl in IH.
    apply IH; [| assumption].
    eapply P_swap; eassumption.
Qed.

Lemma whileLoop_invariant (factor minimum : R) (n fuel : nat) :
  forall hist s w s' tr w',
    P hist s w ->
    whileLoop Math_random args fuel factor minimum n s w = Some ((s', tr), w') ->
    P (hist ++ swaps tr) s' w'.
Proof.
  induction fuel as [| fuel IH]; intros hist s w s' tr w' HP H; simpl in H.
  - destruct (Rgtb (currentTemperature s) minimum); [discriminate |].
    apply ret_Some in H. destruct H as [H <-]. injection H as <- <-.
    unfold swaps. simpl. rewrite app_nil_r. assumption.
  - destruct (Rgtb (currentTemperature s) minimum).
    + apply bind_Some in H. destruct H as ([s1 snaps] & w1 & Hfor & H).
      apply bind_Some in H. destruct H as ([s2 rest] & w2 & Hloop & H).
      apply ret_Some in H. destruct H as [H <-]. simpl in H.
      injection H as <- <-.
      unfold swaps. simpl. fold (swaps rest). rewrite app_assoc.
      eapply IH; [| exact Hloop]. simpl.
      apply P_cool. eapply forLoop_invariant; eassumption.
    + apply ret_Some in H. destruct H as [H <-]. injection H as <- <-.
      unfold swaps. simpl. rewrite app_nil_r. assumption.
Qed.

End Invariant.

(** The same for every pass of the run, not the last alone: the property
    held when each pass ended, of the passes up to it and the world then. *)

Section EveryPass.

Context {W T : Type}.
Variable Math_random : M W R.
Variable args : SimulatedAnnealingArgs W T.
Variable P : list (Snapshot W T) -> RunState T -> W -> Prop.

Hypothesis P_swap : forall hist s w snap w',
  P hist s w -> swap Math_random args s w = Some (snap, w') ->
  P (hist ++ [snap]) (after snap) w'.

Hypothesis P_cool : forall hist s w factor,
  P hist s w -> P hist (cool s factor) w.

Lemma atEveryPass_step (hist : list (Snapshot W T)) (snap : Snapshot W T) :
  atEveryPass P hist ->
  P (hist ++ [snap]) (after snap) (world snap) ->
  atEveryPass P (hist ++ [snap]).
Proof.
  intros Hhist Hsnap pre snap0 post E.
  destruct (exists_last (l := snap0 :: post)) as (post' & x & E');
    [discriminate |].
  rewrite E' in E. rewrite app_assoc in E.
  apply app_inj_tail in E. destruct E as [E ->].
  destruct post' as [| y post'].
  - simpl in E'. injection E' as ->. destruct post; [| discriminate].
    rewrite app_nil_r in E. subst hist. assumption.
  - simpl in E'. injection E' as <- E'.
    apply (Hhist pre snap0 post'). assumption.
Qed.

Lemma whileLoop_everyPass (factor minimum : R) (n fuel : nat)
  (s s' : RunState T) (w w' : W) (tr : Trace W T) :
  P [] s w ->
  whileLoop Math_random args fuel factor minimum n s w = Some ((s', tr), w') ->
  P (swaps tr) s' w' /\ atEveryPass P (swaps tr).
Proof.
  intros HP H.
  apply (whileLoop_invariant Math_random args
           (fun hist s w => P hist s w /\ atEveryPass P hist))
    with (hist := []) in H.
  - exact H.
  - intros hist s0 w0 snap w1 [H0 Hall] Hswap.
    assert (Hnew : P (hist ++ [snap]) (after snap) w1)
      by (eapply P_swap; eassumption).
    split; [assumption |].
    apply atEveryPass_step; [assumption |].
    apply swap_inv in Hswap.
    destruct Hswap as (? & ? & _ & _ & _ & _ & _ & _ & ->). assumption.
  - intros hist s0 w0 f [H0 Hall]. split; [apply P_cool |]; assumption.
  - split; [assumption |]. intros pre snap post E.
    destruct pre; discriminate.
Qed.

End EveryPass.

(** ** Least of a list *)

Lemma least_app (c : R) (l1 l2 : list R) :
  least c (l1 ++ l2) = least (least c l1) l2.
Proof. unfold least. apply fold_left_app. Qed.

Lemma least_le (l : list R) : forall c, least c l <= c.
Proof.
  induction l as [| x l IH]; intros c; simpl.
  - lra.
  - apply Rle_trans with (Rmin c x); [apply IH | apply Rmin_l].
Qed.

Lemma least_snoc (c x : R) (l : list R) :
  least c (l ++ [x]) = Rmin (least c l) x.
Proof. rewrite least_app. reflexivity. Qed.

Lemma least_below (l : list R) :
  forall c x, In x l -> least c l <= x.
Proof.
  induction l as [| y l IH]; intros c x Hin; simpl in *.
  - contradiction.
  - destruct Hin as [-> | Hin].
    + apply Rle_trans with (Rmin c x); [apply least_le | apply Rmin_r].
    + apply IH. assumption.
Qed.

(** ** Getting started *)

Section Start.

Context {W T : Type}.
Variable Math_random : M W R.
Variable args : SimulatedAnnealingArgs W T.

Lemma initialise_inv (w w' : W) (s : RunState T) :
  initialise args w = Some (s, w') ->
  exists w1 w2 w3,
    copyState args (initialState args) w = Some (currentState s, w1) /\
    getCost args (initialState args) w1 = Some (currentCost s, w2) /\
    copyState args (initialState args) w2 = Some (bestState s, w3) /\
    getCost args (initialState args) w3 = Some (bestCost s, w') /\
    currentTemperature s = theInitialTemperature args.
Proof.
  unfold initialise. intros H.
  apply bind_Some in H. destruct H as (c & w1 & H1 & H).
  apply bind_Some in H. destruct H as (cc & w2 & H2 & H).
  apply bind_Some in H. destruct H as (b & w3 & H3 & H).
  apply bind_Some in H. destruct H as (bc & w4 & H4 & H).
  apply ret_Some in H. destruct H as [<- <-]. simpl.
  exists w1, w2, w3. repeat split; assumption.
Qed.

Lemma runTrace_inv (fuel : nat) (w w' : W) (s : RunState T) (tr : Trace W T) :
  runTrace Math_random args fuel w = Some ((s, tr), w') ->
  exists s0 w0,
    initialise args w = Some (s0, w0) /\
    whileLoop Math_random args fuel (theCoolingFactor args)
      (theMinimumTemperature args) (theSwapsPerTemperature args) s0 w0
    = Some ((s, tr), w').
Proof. unfold runTrace. intros H. apply bind_Some in H. exact H. Qed.

Lemma runSimulatedAnnealing_inv (fuel : nat) (w w' : W) (result : T) :
  runSimulatedAnnealing Math_random args fuel w = Some (result, w') ->
  exists s tr,
    runTrace Math_random args fuel w = Some ((s, tr), w') /\
    result = bestState s.
Proof.
  unfold runSimulatedAnnealing. intros H.
  apply bind_Some in H. destruct H as ([s tr] & w1 & Hrun & H).
  apply ret_Some in H. destruct H as [<- <-].
  exists s, tr. split; [assumption | reflexivity].
Qed.

(** What a pass does to the best state. *)
Lemma swap_best (s : RunState T) (w w' : W) (snap : Snapshot W T) :
  swap Math_random args s w = Some (snap, w') ->
  (neighborCost snap < bestCost s /\
   bestState (after snap) = neighbor snap /\
   bestCost (after snap) = neighborCost snap) \/
  (bestCost s <= neighborCost snap /\
   bestState (after snap) = bestState s /\
   bestCost (after snap) = bestCost s).
Proof.
  intros H. apply swap_inv in H.
  destruct H as (w1 & w2 & _ & _ & _ & _ & Hbetween & Hafter & _).
  assert (Hb : bestCost (between snap) = bestCost s)
    by (rewrite Hbetween; destruct (accepted snap); reflexivity).
  assert (Hs : bestState (between snap) = bestState s)
    by (rewrite Hbetween; destruct (accepted snap); reflexivity).
  rewrite Hafter.
  destruct (recordBest_cases (between snap) (neighbor snap) (neighborCost snap))
    as [(Hlt & -> & -> & _) | [Hge ->]].
  - left. rewrite <- Hb. repeat split; assumption.
  - right. rewrite <- Hb. repeat split; assumption.
Qed.

(** The best cost is the least of the cost the loops started with and the
    costs of the neighbors met, whatever the strategies do. *)
Lemma whileLoop_bestCost (factor minimum : R) (n fuel : nat)
  (s0 s : RunState T) (w0 w : W) (tr : Trace W T) :
  whileLoop Math_random args fuel factor minimum n s0 w0 = Some ((s, tr), w) ->
  bestCost s = least (bestCost s0) (map neighborCost (swaps tr)) /\
  atEveryPass
    (fun hist s _ => bestCost s = least (bestCost s0) (map neighborCost hist))
    (swaps tr).
Proof.
  apply (whileLoop_everyPass Math_random args
           (fun hist s _ =>
              bestCost s = least (bestCost s0) (map neighborCost hist))).
  - intros hist s1 w1 snap w2 HP Hswap.
    rewrite map_app. simpl. rewrite least_snoc, <- HP.
    apply (swap_costs Math_random args s1 w1 w2 snap Hswap).
  - intros hist s1 w1 f HP. exact HP.
  - reflexivity.
Qed.

End Start.

(** ** The best cost along a run *)

Section BestCost.

Context {W T : Type}.
Variable Math_random : M W R.
Variable args : SimulatedAnnealingArgs W T.

(** A pass never raises the best cost. *)
Lemma swap_bestCost_le (s : RunState T) (w w' : W) (snap : Snapshot W T) :
  swap Math_random args s w = Some (snap, w') ->
  bestCost (after snap) <= bestCost s.
Proof.
  intros H. destruct (swap_best Math_random args s w w' snap H)
    as [(Hlt & _ & ->) | (_ & _ & ->)]; lra.
Qed.

Lemma whileLoop_bestCosts (factor minimum : R) (n fuel : nat)
  (s0 s : RunState T) (w0 w : W) (tr : Trace W T) :
  whileLoop Math_random args fuel factor minimum n s0 w0 = Some ((s, tr), w) ->
  nonIncreasing (bestCost s0 :: bestCosts tr).
Proof.
  intros H. apply whileLoop_bestCost in H. destruct H as [_ Hall].
  assert (Hnth : forall pre c post,
             bestCost s0 :: bestCosts tr = pre ++ c :: post ->
             exists costs rest,
               map neighborCost (swaps tr) = costs ++ rest /\
               length costs = length pre /\
               c = least (bestCost s0) costs).
  { intros pre c post E. destruct pre as [| c0 pre]; simpl in E.
    - injection E as <- _. exists [], (map neighborCost (swaps tr)).
      repeat split.
    - injection E as _ E. unfold bestCosts in E.
      apply map_eq_app in E.
      destruct E as (hist & tl & E & Hpre & Htl).
      destruct tl as [| snap tl]; [discriminate |].
      simpl in Htl. injection Htl as <- _.
      specialize (Hall hist snap tl E). simpl in Hall.
      exists (map neighborCost (hist ++ [snap])), (map neighborCost tl).
      rewrite <- map_app, <- app_assoc. simpl. rewrite <- E.
      repeat split; [| assumption].
      rewrite length_map, length_app, <- Hpre, length_map. simpl. lia. }
  intros pre x mid y post E.
  assert (E' : bestCost s0 :: bestCosts tr = (pre ++ x :: mid) ++ y :: post)
    by (rewrite E, <- app_assoc; reflexivity).
  destruct (Hnth pre x (mid ++ y :: post) E) as (cx & rx & Ex & Lx & Hx).
  destruct (Hnth _ y post E') as (cy & ry & Ey & Ly & Hy).
  rewrite Hx, Hy. clear Hx Hy E E'.
  rewrite Ey in Ex.
  assert (Hsplit : exists more, cy = cx ++ more).
  { apply app_eq_app in Ex. destruct Ex as (l & [[E1 _] | [E1 _]]).
    - exists l. assumption.
    - exfalso. rewrite E1 in Lx. rewrite length_app in Lx, Ly.
      simpl in Ly. lia. }
  destruct Hsplit as (more & ->). rewrite least_app. apply least_le.
Qed.

End BestCost.

(** The best costs at the ends of the passes of a run never go up. *)
Lemma bestCosts_nonIncreasing {W T : Type} (Math_random : M W R)
  (args : SimulatedAnnealingArgs W T) (fuel : nat) (w w' : W)
  (s : RunState T) (tr : Trace W T) :
  runTrace Math_random args fuel w = Some ((s, tr), w') ->
  nonIncreasing (bestCosts tr).
Proof.
  intros H. apply runTrace_inv in H. destruct H as (s0 & w0 & _ & H).
  apply whileLoop_bestCosts in H.
  intros pre x mid y post E.
  apply (H (bestCost s0 :: pre) x mid y post). rewrite E. reflexivity.
Qed.

(** C8. Across any run, whatever the strategies do, the best cost recorded
    at the end of every pass of the inner loop is a sequence that never
    goes up, and no pass ends with a best cost above the one it began
    with. *)
Theorem best_cost_never_increases {W T : Type} (Math_random : M W R)
  (args : SimulatedAnnealingArgs W T) (fuel : nat) (w w' : W)
  (s : RunState T) (tr : Trace W T) :
  runTrace Math_random args fuel w = Some ((s, tr), w') ->
  nonIncreasing (bestCosts tr) /\
  Forall (fun snap => bestCost (after snap) <= bestCost (before snap))
    (swaps tr).
Proof.
  intros H. split; [eapply bestCosts_nonIncreasing; exact H |].
  apply runTrace_inv in H. destruct H as (s0 & w0 & _ & H).
  apply (whileLoop_invariant Math_random args
             (fun hist _ _ =>
                Forall (fun snap =>
                          bestCost (after snap) <= bestCost (before snap)) hist))
    with (hist := []) in H.
  - exact H.
  - intros hist s1 w1 snap w2 HP Hswap.
    apply Forall_app. split; [assumption |].
    constructor; [| constructor].
    pose proof (swap_bestCost_le Math_random args s1 w1 w2 snap Hswap) as Hle.
    apply swap_inv in Hswap.
    destruct Hswap as (? & ? & _ & _ & _ & -> & _). exact Hle.
  - intros hist s1 w1 f HP. exact HP.
  - constructor.
Qed.

(** ** Runs under the caller's contract on costs *)

Section PureCost.

Context {W T : Type}.
Variable Math_random : M W R.
Variable args : SimulatedAnnealingArgs W T.
Variable cost : T -> R.
Hypothesis cost_pure : pureCost args cost.

Lemma swap_neighborCost (s : RunState T) (w w' : W) (snap : Snapshot W T) :
  swap Math_random args s w = Some (snap, w') ->
  neighborCost snap = cost (neighbor snap).
Proof.
  intros H. apply swap_inv in H.
  destruct H as (w1 & w2 & _ & Hcost & _).
  rewrite cost_pure in Hcost. injection Hcost as -> _. reflexivity.
Qed.

Lemma initialise_costs (w w0 : W) (s0 : RunState T) :
  initialise args w = Some (s0, w0) ->
  currentCost s0 = cost (initialState args) /\
  bestCost s0 = cost (initialState args).
Proof.
  intros H. apply initialise_inv in H.
  destruct H as (w1 & w2 & w3 & _ & H1 & _ & H2 & _).
  rewrite cost_pure in H1, H2.
  injection H1 as E1 _. injection H2 as E2 _. split; symmetry; assumption.
Qed.

Hypothesis copy_faithful : faithfulCopy args cost.

Lemma initialise_bestState (w w0 : W) (s0 : RunState T) :
  initialise args w = Some (s0, w0) ->
  cost (bestState s0) = cost (initialState args).
Proof.
  intros H. apply initialise_inv in H.
  destruct H as (w1 & w2 & w3 & _ & _ & H & _).
  apply copy_faithful in H. exact H.
Qed.

(** The cost of the best state is the least of the cost of the initial
    state and the costs of the neighbors generated so far. *)
Lemma runTrace_least (fuel : nat) (w w' : W) (s : RunState T) (tr : Trace W T) :
  runTrace Math_random args fuel w = Some ((s, tr), w') ->
  cost (bestState s)
  = least (cost (initialState args))
      (map (fun snap => cost (neighbor snap)) (swaps tr)) /\
  atEveryPass
    (fun hist s _ =>
       cost (bestState s)
       = least (cost (initialState args))
           (map (fun snap => cost (neighbor snap)) hist))
    (swaps tr).
Proof.
  intros H. apply runTrace_inv in H. destruct H as (s0 & w0 & Hinit & H).
  pose proof (initialise_costs w w0 s0 Hinit) as [Hc Hb].
  pose proof (initialise_bestState w w0 s0 Hinit) as Hs.
  apply (whileLoop_everyPass Math_random args
           (fun hist s _ =>
              cost (bestState s) = bestCost s /\
              bestCost s
              = least (cost (initialState args))
                  (map (fun snap => cost (neighbor snap)) hist)))
    in H.
  - destruct H as [[H1 H2] Hall]. split.
    + rewrite H1. exact H2.
    + intros pre snap post E. destruct (Hall pre snap post E) as [H3 H4].
      rewrite H3. exact H4.
  - intros hist s1 w1 snap w2 [HP HQ] Hswap.
    pose proof (swap_neighborCost s1 w1 w2 snap Hswap) as Hn.
    pose proof (swap_costs Math_random args s1 w1 w2 snap Hswap) as [Hmin _].
    split.
    + destruct (swap_best Math_random args s1 w1 w2 snap Hswap)
        as [(_ & -> & ->) | (_ & -> & ->)]; [symmetry |]; assumption.
    + rewrite map_app. simpl. rewrite least_snoc, <- HQ, <- Hn. exact Hmin.
  - intros hist s1 w1 f HP. exact HP.
  - simpl. split; [rewrite Hs, Hb; reflexivity | assumption].
Qed.

End PureCost.

(** C5. With a cost function that reads the state alone and a copy that
    costs what its original costs, the best state at the end of every pass
    has the least cost among the initial state and all neighbors generated
    up to that pass, accepted or not; so has the state the run returns,
    among all the states the run evaluated. *)
Theorem best_state_has_least_cost_seen {W T : Type} (Math_random : M W R)
  (args : SimulatedAnnealingArgs W T) (cost : T -> R)
  (fuel : nat) (w w' : W) (s : RunState T) (tr : Trace W T) :
  pureCost args cost ->
  faithfulCopy args cost ->
  runTrace Math_random args fuel w = Some ((s, tr), w') ->
  runSimulatedAnnealing Math_random args fuel w = Some (bestState s, w') /\
  cost (bestState s)
  = least (cost (initialState args))
      (map (fun snap => cost (neighbor snap)) (swaps tr)) /\
  cost (bestState s) <= cost (initialState args) /\
  Forall (fun snap => cost (bestState s) <= cost (neighbor snap)) (swaps tr) /\
  forall pre snap post,
    swaps tr = pre ++ snap :: post ->
    cost (bestState (after snap))
    = least (cost (initialState args))
        (map (fun snap => cost (neighbor snap)) (pre ++ [snap])).
Proof.
  intros Hcost Hcopy H. split.
  - unfold runSimulatedAnnealing, bind. rewrite H. reflexivity.
  - destruct (runTrace_least Math_random args cost Hcost Hcopy fuel w w' s tr H)
      as [Hend Hall].
    split; [exact Hend |].
    split; [rewrite Hend; apply least_le |].
    split.
    + apply Forall_forall. intros snap Hin. rewrite Hend.
      apply least_below.
      apply (in_map (fun snap => cost (neighbor snap))). exact Hin.
    + intros pre snap post E. exact (Hall pre snap post E).
Qed.

(** ** The temperature schedule *)

Lemma ceil_bounds (x : R) : IZR (ceil x) - 1 < x <= IZR (ceil x).
Proof.
  unfold ceil. rewrite opp_IZR.
  destruct (base_Int_part (- x)) as [H1 H2]. lra.
Qed.

(** The count of the specification is the first step at which the
    geometric schedule is at or below the minimum. *)
Lemma outerPasses_first (factor initial minimum : R) :
  0 < factor < 1 ->
  0 < minimum < initial ->
  initial * factor ^ outerPasses factor initial minimum <= minimum /\
  forall j, (j < outerPasses factor initial minimum)%nat ->
            minimum < initial * factor ^ j.
Proof.
  intros Hf Hm. unfold outerPasses.
  set (x := ln (minimum / initial) / ln factor).
  assert (Hratio : 0 < minimum / initial < 1).
  { split.
    - apply Rdiv_lt_0_compat; lra.
    - apply Rmult_lt_reg_r with initial; [lra |].
      unfold Rdiv. rewrite Rmult_assoc, Rinv_l; lra. }
  assert (Hlnf : ln factor < 0).
  { rewrite <- ln_1. apply ln_increasing; lra. }
  assert (Hlnr : ln (minimum / initial) < 0).
  { rewrite <- ln_1. apply ln_increasing; lra. }
  assert (Hx : x * ln factor = ln (minimum / initial)).
  { unfold x. field. lra. }
  assert (Hxpos : 0 < x) by nra.
  destruct (ceil_bounds x) as [Hlo Hhi].
  assert (Hz : (0 < ceil x)%Z).
  { apply lt_IZR. lra. }
  assert (HN : INR (Z.to_nat (ceil x)) = IZR (ceil x)).
  { rewrite INR_IZR_INZ, Z2Nat.id; [reflexivity | lia]. }
  assert (Hback : forall r, 0 < r -> minimum / initial * initial = minimum)
    by (intros; field; lra).
  split.
  - destruct (Rle_or_lt (initial * factor ^ Z.to_nat (ceil x)) minimum)
      as [Hle | Hgt]; [assumption | exfalso].
    assert (Hlt : minimum / initial < factor ^ Z.to_nat (ceil x)).
    { apply Rmult_lt_reg_r with initial; [lra |].
      rewrite (Hback 1) by lra. lra. }
    apply ln_increasing in Hlt; [| lra].
    rewrite ln_pow in Hlt by lra. rewrite HN in Hlt. nra.
  - intros j Hj.
    assert (Hj' : INR j <= IZR (ceil x) - 1).
    { rewrite INR_IZR_INZ, <- minus_IZR. apply IZR_le. lia. }
    assert (Hlt : minimum / initial < factor ^ j).
    { apply ln_lt_inv; [lra | apply pow_lt; lra |].
      rewrite ln_pow by lra. nra. }
    apply Rmult_lt_compat_r with (r := initial) in Hlt; [| lra].
    rewrite (Hback 1) in Hlt by lra. lra.
Qed.


(** ** Progress

    When every pass from variables and a world that satisfy [I] returns
    and leaves them satisfying [I], the loops return once the schedule is
    at or below the minimum. *)

Section Progress.

Context {W T : Type}.
Variable Math_random : M W R.
Variable args : SimulatedAnnealingArgs W T.
Variable I : RunState T -> W -> Prop.

Hypothesis I_swap : forall s w,
  I s w ->
  exists snap w', swap Math_random args s w = Some (snap, w') /\ I (after snap) w'.

Hypothesis I_cool : forall s w factor, I s w -> I (cool s factor) w.

Lemma forLoop_progress (n : nat) :
  forall s w,
    I s w ->
    exists s' snaps w',
      forLoop Math_random args n s w = Some ((s', snaps), w') /\ I s' w' /\
      currentTemperature s' = currentTemperature s.
Proof.
  induction n as [| n IH]; intros s w HI; simpl.
  - exists s, [], w. repeat split. assumption.
  - destruct (I_swap s w HI) as (snap & w1 & Hswap & HI1).
    destruct (IH (after snap) w1 HI1) as (s2 & rest & w2 & Hloop & HI2 & Ht).
    exists s2, (snap :: rest), w2.
    unfold bind, ret. rewrite Hswap, Hloop. simpl.
    repeat split; [assumption |].
    rewrite Ht. eapply swap_temperature. exact Hswap.
Qed.

Lemma whileLoop_progress (factor minimum : R) (n N : nat) :
  forall fuel s w,
    I s w ->
    (N <= fuel)%nat ->
    currentTemperature s * factor ^ N <= minimum ->
    exists s' tr w',
      whileLoop Math_random args fuel factor minimum n s w
      = Some ((s', tr), w') /\ I s' w'.
Proof.
  induction N as [| N IH]; intros fuel s w HI Hfuel Hend.
  - simpl in Hend.
    assert (E : Rgtb (currentTemperature s) minimum = false)
      by (apply Rltb_false; lra).
    exists s, [], w.
    destruct fuel; simpl; rewrite E; split; try reflexivity; assumption.
  - destruct fuel as [| fuel]; [lia |]. simpl.
    destruct (Rgtb (currentTemperature s) minimum).
    + destruct (forLoop_progress n s w HI) as (s1 & snaps & w1 & Hfor & HI1 & Ht).
      destruct (IH fuel (cool s1 factor) w1) as (s2 & tr & w2 & Hloop & HI2);
        [apply I_cool; assumption | lia | |].
      * simpl. rewrite Ht. simpl in Hend. lra.
      * exists s2, ((currentTemperature s, snaps) :: tr), w2.
        unfold bind, ret. rewrite Hfor. simpl. rewrite Hloop.
        split; [reflexivity | assumption].
    + exists s, [], w. split; [reflexivity | assumption].
Qed.

End Progress.

Section Schedule.

Context {W T : Type}.
Variable Math_random : M W R.
Variable args : SimulatedAnnealingArgs W T.

(** The inner loop makes [n] passes and leaves the temperature alone. *)
Lemma forLoop_shape (n : nat) :
  forall s w s' snaps w',
    forLoop Math_random args n s w = Some ((s', snaps), w') ->
    currentTemperature s' = currentTemperature s /\ length snaps = n.
Proof.
  induction n as [| n IH]; intros s w s' snaps w' H; simpl in H.
  - apply ret_Some in H. destruct H as [H _]. injection H as <- <-.
    split; reflexivity.
  - apply bind_Some in H. destruct H as (snap & w1 & Hswap & H).
    apply bind_Some in H. destruct H as ([s2 rest] & w2 & Hloop & H).
    apply ret_Some in H. destruct H as [H _]. simpl in H.
    injection H as <- <-.
    apply IH in Hloop. destruct Hloop as [Ht Hl].
    apply swap_temperature in Hswap. simpl.
    split; [congruence | lia].
Qed.

(** The outer loop follows the geometric schedule, makes a pass for every
    temperature above the minimum, and stops at the first one that is
    not. *)
Lemma whileLoop_shape (factor minimum : R) (n fuel : nat) :
  forall s w s' tr w',
    whileLoop Math_random args fuel factor minimum n s w = Some ((s', tr), w') ->
    (forall j t, nth_error (temperatures tr) j = Some t ->
                 t = currentTemperature s * factor ^ j /\ minimum < t) /\
    currentTemperature s' = currentTemperature s * factor ^ length tr /\
    currentTemperature s' <= minimum /\
    Forall (fun pass => length (snd pass) = n) tr.
Proof.
  induction fuel as [| fuel IH]; intros s w s' tr w' H; simpl in H;
    unfold Rgtb in H;
    destruct (Rltb_cases minimum (currentTemperature s)) as [[Hc E] | [Hc E]];
    rewrite E in H; try discriminate.
  - apply ret_Some in H. destruct H as [H _]. injection H as <- <-. simpl.
    split; [intros [| j] t Hj; discriminate |].
    split; [lra |]. split; [lra | constructor].
  - apply bind_Some in H. destruct H as ([s1 snaps] & w1 & Hfor & H).
    apply bind_Some in H. destruct H as ([s2 rest] & w2 & Hloop & H).
    apply ret_Some in H. destruct H as [H _]. simpl in H.
    injection H as <- <-.
    apply forLoop_shape in Hfor. destruct Hfor as [Ht Hl].
    apply IH in Hloop. simpl in Hloop. rewrite Ht in Hloop.
    destruct Hloop as (Hnth & Hend & Hmin & Hall).
    split; [| split; [| split]].
    + intros [| j] t H; simpl in H.
      * injection H as <-. split; [lra | assumption].
      * apply Hnth in H. destruct H as [-> Hgt].
        split; [simpl; ring | assumption].
    + rewrite Hend. simpl. ring.
    + assumption.
    + constructor; assumption.
  - apply ret_Some in H. destruct H as [H _]. injection H as <- <-. simpl.
    split; [intros [| j] t Hj; discriminate |].
    split; [lra |]. split; [lra | constructor].
Qed.

Hypothesis strategies_return : terminating Math_random args.

Lemma acceptanceTest_returns (changeInCost temperature : R) (w : W) :
  exists b w', acceptanceTest Math_random changeInCost temperature w
               = Some (b, w').
Proof.
  unfold acceptanceTest. destruct (Rltb changeInCost 0).
  - exists true, w. reflexivity.
  - destruct strategies_return as (_ & _ & _ & Hr).
    destruct (Hr w) as (u & w' & Hu).
    eexists _, w'. unfold bind. rewrite Hu. reflexivity.
Qed.

Lemma swap_returns (s : RunState T) (w : W) :
  exists snap w', swap Math_random args s w = Some (snap, w').
Proof.
  destruct strategies_return as (_ & Hgen & Hcost & _).
  destruct (Hgen (currentState s) w) as (n & w1 & Hn).
  destruct (Hcost n w1) as (c & w2 & Hc).
  destruct (acceptanceTest_returns (c - currentCost s) (currentTemperature s) w2)
    as (b & w3 & Hb).
  unfold swap, bind, observe, ret. rewrite Hn, Hc, Hb.
  eexists _, w3. reflexivity.
Qed.

(** Once the schedule is at or below the minimum after [N] steps, [N]
    units of fuel are enough. *)
Lemma whileLoop_returns (factor minimum : R) (n N fuel : nat)
  (s : RunState T) (w : W) :
  (N <= fuel)%nat ->
  currentTemperature s * factor ^ N <= minimum ->
  exists r w',
    whileLoop Math_random args fuel factor minimum n s w = Some (r, w').
Proof.
  intros Hfuel Hend.
  destruct (whileLoop_progress Math_random args (fun _ _ => True))
    with (factor := factor) (minimum := minimum) (n := n) (N := N)
         (fuel := fuel) (s := s) (w := w)
    as (s' & tr & w' & H & _); try assumption; try exact I.
  - intros s1 w1 _. destruct (swap_returns s1 w1) as (snap & w2 & Hswap).
    exists snap, w2. split; [assumption | exact I].
  - intros; exact I.
  - exists (s', tr), w'. exact H.
Qed.

Lemma initialise_returns (w : W) :
  exists s w', initialise args w = Some (s, w').
Proof.
  destruct strategies_return as (Hcopy & _ & Hcost & _).
  destruct (Hcopy (initialState args) w) as (c & w1 & H1).
  destruct (Hcost (initialState args) w1) as (cc & w2 & H2).
  destruct (Hcopy (initialState args) w2) as (b & w3 & H3).
  destruct (Hcost (initialState args) w3) as (bc & w4 & H4).
  unfold initialise, bind, ret. rewrite H1, H2, H3, H4.
  eexists _, w4. reflexivity.
Qed.

End Schedule.


Lemma nth_error_middle {A : Type} (pre post : list A) (x : A) :
  nth_error (pre ++ x :: post) (length pre) = Some x.
Proof. induction pre as [| a pre IH]; simpl; [reflexivity | exact IH]. Qed.


(** ** The acceptance rule *)

(** What the first [if] of a pass leaves in the current state and cost. *)
Lemma swap_current {W T : Type} (Math_random : M W R)
  (args : SimulatedAnnealingArgs W T) (s : RunState T) (w w' : W)
  (snap : Snapshot W T) :
  swap Math_random args s w = Some (snap, w') ->
  (accepted snap = true ->
   currentState (after snap) = neighbor snap /\
   currentCost (after snap) = neighborCost snap) /\
  (accepted snap = false ->
   currentState (after snap) = currentState s /\
   currentCost (after snap) = currentCost s).
Proof.
  intros H. apply swap_inv in H.
  destruct H as (w1 & w2 & _ & _ & _ & _ & Hbetween & Hafter & _).
  assert (Hkeep : currentState (after snap) = currentState (between snap) /\
                  currentCost (after snap) = currentCost (between snap)).
  { rewrite Hafter.
    destruct (recordBest_cases (between snap) (neighbor snap) (neighborCost snap))
      as [(_ & _ & _ & -> & -> & _) | [_ ->]]; split; reflexivity. }
  destruct Hkeep as [-> ->]. rewrite Hbetween.
  split; intros ->; split; reflexivity.
Qed.

(** ** Ties *)

Section Earliest.

Context {W T : Type}.
Variable Math_random : M W R.
Variable args : SimulatedAnnealingArgs W T.

Lemma candidates_snoc (s0 : RunState T) (hist : list (Snapshot W T))
  (snap : Snapshot W T) :
  candidates s0 (hist ++ [snap])
  = candidates s0 hist ++ [(neighbor snap, neighborCost snap)].
Proof. unfold candidates. rewrite map_app. reflexivity. Qed.

(** The best state and cost are the first candidate of least cost. *)
Lemma whileLoop_earliestLeast (factor minimum : R) (n fuel : nat)
  (s0 s : RunState T) (w0 w : W) (tr : Trace W T) :
  whileLoop Math_random args fuel factor minimum n s0 w0 = Some ((s, tr), w) ->
  earliestLeast (bestState s, bestCost s) (candidates s0 (swaps tr)).
Proof.
  apply (whileLoop_invariant Math_random args
           (fun hist s _ =>
              earliestLeast (bestState s, bestCost s) (candidates s0 hist)))
    with (hist := []).
  - intros hist s1 w1 snap w2 (pre & post & E & Hpre & Hpost) Hswap.
    rewrite candidates_snoc, E. simpl in Hpre, Hpost.
    destruct (swap_best Math_random args s1 w1 w2 snap Hswap)
      as [(Hlt & -> & ->) | (Hge & -> & ->)].
    + exists (pre ++ (bestState s1, bestCost s1) :: post), [].
      split; [reflexivity |]. split; [| constructor]. simpl.
      apply Forall_app. split.
      * eapply Forall_impl; [| exact Hpre]. simpl. intros q Hq. lra.
      * constructor; [simpl; lra |].
        eapply Forall_impl; [| exact Hpost]. simpl. intros q Hq. lra.
    + exists pre, (post ++ [(neighbor snap, neighborCost snap)]).
      split; [rewrite <- app_assoc; reflexivity |].
      split; [exact Hpre |]. simpl.
      apply Forall_app. split; [exact Hpost |].
      constructor; [simpl; lra | constructor].
  - intros hist s1 w1 f HP. exact HP.
  - exists [], []. repeat split; constructor.
Qed.

(** The best state moves only to a neighbor strictly cheaper than it. *)
Lemma whileLoop_strict_updates (factor minimum : R) (n fuel : nat)
  (s0 s : RunState T) (w0 w : W) (tr : Trace W T) :
  whileLoop Math_random args fuel factor minimum n s0 w0 = Some ((s, tr), w) ->
  Forall
    (fun snap =>
       (neighborCost snap < bestCost (before snap) /\
        bestState (after snap) = neighbor snap /\
        bestCost (after snap) = neighborCost snap) \/
       (bestCost (before snap) <= neighborCost snap /\
        bestState (after snap) = bestState (before snap) /\
        bestCost (after snap) = bestCost (before snap)))
    (swaps tr).
Proof.
  apply (whileLoop_invariant Math_random args
           (fun hist _ _ =>
              Forall
                (fun snap =>
                   (neighborCost snap < bestCost (before snap) /\
                    bestState (after snap) = neighbor snap /\
                    bestCost (after snap) = neighborCost snap) \/
                   (bestCost (before snap) <= neighborCost snap /\
                    bestState (after snap) = bestState (before snap) /\
                    bestCost (after snap) = bestCost (before snap)))
                hist))
    with (hist := []).
  - intros hist s1 w1 snap w2 HP Hswap.
    apply Forall_app. split; [assumption |].
    constructor; [| constructor].
    pose proof (swap_best Math_random args s1 w1 w2 snap Hswap) as Hbest.
    apply swap_inv in Hswap.
    destruct Hswap as (? & ? & _ & _ & _ & -> & _). exact Hbest.
  - intros hist s1 w1 f HP. exact HP.
  - constructor.
Qed.

(** With no neighbor strictly cheaper than the start, the best state is
    the one the loops started with. *)
Lemma whileLoop_no_improvement (factor minimum : R) (n fuel : nat)
  (s0 s : RunState T) (w0 w : W) (tr : Trace W T) :
  whileLoop Math_random args fuel factor minimum n s0 w0 = Some ((s, tr), w) ->
  Forall (fun snap => bestCost s0 <= neighborCost snap) (swaps tr) ->
  bestState s = bestState s0 /\ bestCost s = bestCost s0.
Proof.
  apply (whileLoop_invariant Math_random args
           (fun hist s _ =>
              Forall (fun snap => bestCost s0 <= neighborCost snap) hist ->
              bestState s = bestState s0 /\ bestCost s = bestCost s0))
    with (hist := []).
  - intros hist s1 w1 snap w2 HP Hswap Hall.
    apply Forall_app in Hall. destruct Hall as [Hhist Hsnap].
    apply Forall_inv in Hsnap. destruct (HP Hhist) as [Hs Hc].
    destruct (swap_best Math_random args s1 w1 w2 snap Hswap)
      as [(Hlt & _ & _) | (_ & -> & ->)]; [lra | split; assumption].
  - intros hist s1 w1 f HP. exact HP.
  - intros _. split; reflexivity.
Qed.

End Earliest.

(** C10. In every pass of a run the best state and cost change only when
    the neighbor is strictly cheaper than the best cost, and then to that
    neighbor; a neighbor that ties leaves them as they are.  So the state
    returned is the first, in the order the run met them, of the states of
    least cost among the copy of the initial state made at entry and the
    neighbors; it is that copy when no neighbor is strictly cheaper. *)
Theorem ties_keep_the_earlier_best {W T : Type} (Math_random : M W R)
  (args : SimulatedAnnealingArgs W T) (fuel : nat) (w w' : W)
  (s : RunState T) (tr : Trace W T) :
  runTrace Math_random args fuel w = Some ((s, tr), w') ->
  exists s0 w0,
    initialise args w = Some (s0, w0) /\
    (exists w2 w3,
        copyState args (initialState args) w2 = Some (bestState s0, w3)) /\
    Forall
      (fun snap =>
         (neighborCost snap < bestCost (before snap) /\
          bestState (after snap) = neighbor snap /\
          bestCost (after snap) = neighborCost snap) \/
         (bestCost (before snap) <= neighborCost snap /\
          bestState (after snap) = bestState (before snap) /\
          bestCost (after snap) = bestCost (before snap)))
      (swaps tr) /\
    earliestLeast (bestState s, bestCost s) (candidates s0 (swaps tr)) /\
    (Forall (fun snap => bestCost s0 <= neighborCost snap) (swaps tr) ->
     bestState s = bestState s0).
Proof.
  intros H. apply runTrace_inv in H. destruct H as (s0 & w0 & Hinit & H).
  exists s0, w0. split; [exact Hinit |].
  split.
  { apply initialise_inv in Hinit.
    destruct Hinit as (w1 & w2 & w3 & _ & _ & Hcopy & _).
    exists w2, w3. exact Hcopy. }
  split; [eapply whileLoop_strict_updates; exact H |].
  split; [eapply whileLoop_earliestLeast; exact H |].
  intros Hall.
  apply (whileLoop_no_improvement Math_random args _ _ _ _ _ _ _ _ _ H Hall).
Qed.

(** ** Best cost against current cost *)

Section BestAndCurrent.

Context {W T : Type}.
Variable Math_random : M W R.
Variable args : SimulatedAnnealingArgs W T.

(** A pass that starts with the best cost at most the current cost ends
    so. *)
Lemma swap_best_le_current (s : RunState T) (w w' : W) (snap : Snapshot W T) :
  bestCost s <= currentCost s ->
  swap Math_random args s w = Some (snap, w') ->
  bestCost (after snap) <= currentCost (after snap).
Proof.
  intros Hle Hswap.
  destruct (swap_costs Math_random args s w w' snap Hswap) as [-> [-> | ->]].
  - apply Rle_trans with (bestCost s); [apply Rmin_l | assumption].
  - apply Rmin_r.
Qed.

Lemma whileLoop_best_le_current (factor minimum : R) (n fuel : nat)
  (s0 s : RunState T) (w0 w : W) (tr : Trace W T) :
  bestCost s0 <= currentCost s0 ->
  whileLoop Math_random args fuel factor minimum n s0 w0 = Some ((s, tr), w) ->
  bestCost s <= currentCost s /\
  Forall (fun snap =>
            bestCost (before snap) <= currentCost (before snap) /\
            bestCost (after snap) <= currentCost (after snap))
    (swaps tr).
Proof.
  intros Hle H.
  apply (whileLoop_invariant Math_random args
           (fun hist s _ =>
              bestCost s <= currentCost s /\
              Forall (fun snap =>
                        bestCost (before snap) <= currentCost (before snap) /\
                        bestCost (after snap) <= currentCost (after snap))
                hist))
    with (hist := []) in H.
  - exact H.
  - intros hist s1 w1 snap w2 [HP Hhist] Hswap.
    pose proof (swap_best_le_current s1 w1 w2 snap HP Hswap) as Hafter.
    split; [exact Hafter |].
    apply Forall_app. split; [exact Hhist |].
    constructor; [| constructor].
    apply swap_inv in Hswap.
    destruct Hswap as (? & ? & _ & _ & _ & -> & _).
    split; assumption.
  - intros hist s1 w1 f HP. exact HP.
  - split; [exact Hle | constructor].
Qed.

End BestAndCurrent.

(** X21. With a cost function that reads the state alone, the best cost
    is at most the current cost at the start and at the end of every pass
    of the inner loop and when the run ends, and the best cost never goes
    up from one pass to the next. *)
Theorem best_at_most_current_after_every_pass {W T : Type}
  (Math_random : M W R) (args : SimulatedAnnealingArgs W T) (cost : T -> R)
  (fuel : nat) (w w' : W) (s : RunState T) (tr : Trace W T) :
  pureCost args cost ->
  runTrace Math_random args fuel w = Some ((s, tr), w') ->
  Forall (fun snap =>
            bestCost (before snap) <= currentCost (before snap) /\
            bestCost (after snap) <= currentCost (after snap))
    (swaps tr) /\
  bestCost s <= currentCost s /\
  nonIncreasing (bestCosts tr).
Proof.
  intros Hcost H.
  pose proof (bestCosts_nonIncreasing Math_random args fuel w w' s tr H)
    as Hmono.
  apply runTrace_inv in H. destruct H as (s0 & w0 & Hinit & H).
  destruct (initialise_costs args cost Hcost w w0 s0 Hinit) as [Hc Hb].
  apply whileLoop_best_le_current in H; [| lra].
  destruct H as [Hend Hall]. repeat split; assumption.
Qed.

(** ** States on the heap *)

Lemma keeps_refl {V : Type} (h : Heap V) : keeps h h.
Proof. intros r v H. exact H. Qed.

Lemma keeps_trans {V : Type} (h1 h2 h3 : Heap V) :
  keeps h1 h2 -> keeps h2 h3 -> keeps h1 h3.
Proof. intros H12 H23 r v H. apply H23, H12, H. Qed.

Section Frame.

Context {V : Type}.
Variable Math_random : M (Heap V) R.
Variable args : SimulatedAnnealingArgs (Heap V) Ref.
Hypothesis discipline : copyDiscipline Math_random args.

(** A pass writes to no object that exists, and its neighbor is an
    object. *)
Lemma swap_keeps (s : RunState Ref) (h h' : Heap V)
  (snap : Snapshot (Heap V) Ref) :
  swap Math_random args s h = Some (snap, h') ->
  keeps h h' /\ exists v, deref h' (neighbor snap) = Some v.
Proof.
  destruct discipline as (_ & _ & Hgen & Hnew & Hcost & Hrandom).
  intros H. apply swap_inv in H.
  destruct H as (h1 & h2 & Hn & Hc & Hacc & _).
  pose proof (Hgen _ _ _ _ Hn) as K1.
  destruct (Hnew _ _ _ _ Hn) as (v & Hv).
  pose proof (Hcost _ _ _ _ Hc) as K2.
  assert (K3 : keeps h2 h').
  { unfold acceptanceTest in Hacc.
    destruct (Rltb (neighborCost snap - currentCost s) 0).
    - apply ret_Some in Hacc. destruct Hacc as [_ <-]. apply keeps_refl.
    - apply bind_Some in Hacc. destruct Hacc as (u & h3 & Hdraw & Hacc).
      apply ret_Some in Hacc. destruct Hacc as [_ <-].
      exact (Hrandom _ _ _ Hdraw). }
  split.
  - eapply keeps_trans; [exact K1 |]. eapply keeps_trans; eassumption.
  - exists v. apply K3, K2, Hv.
Qed.

(** The object recorded as best at the end of a pass is an object then,
    and is kept as it is from then on. *)
Lemma whileLoop_keeps_best (factor minimum : R) (n fuel : nat)
  (s0 s : RunState Ref) (h0 h : Heap V) (tr : Trace (Heap V) Ref) :
  (exists v, deref h0 (bestState s0) = Some v) ->
  whileLoop Math_random args fuel factor minimum n s0 h0 = Some ((s, tr), h) ->
  Forall (fun snap =>
            keeps (world snap) h /\
            exists v, deref (world snap) (bestState (after snap)) = Some v)
    (swaps tr) /\
  atEveryPass
    (fun hist _ h =>
       Forall (fun snap =>
                 keeps (world snap) h /\
                 exists v, deref (world snap) (bestState (after snap)) = Some v)
         hist)
    (swaps tr).
Proof.
  intros Hstart H.
  apply (whileLoop_everyPass Math_random args
           (fun hist s h =>
              (exists v, deref h (bestState s) = Some v) /\
              Forall (fun snap =>
                        keeps (world snap) h /\
                        exists v,
                          deref (world snap) (bestState (after snap)) = Some v)
                hist)) in H.
  - destruct H as [[_ Hend] Hall]. split; [exact Hend |].
    intros pre snap post E. exact (proj2 (Hall pre snap post E)).
  - intros hist s1 h1 snap h2 [(v & Hv) Hhist] Hswap.
    destruct (swap_keeps s1 h1 h2 snap Hswap) as [K (vn & Hn)].
    assert (Hbest : exists v', deref h2 (bestState (after snap)) = Some v').
    { destruct (swap_best Math_random args s1 h1 h2 snap Hswap)
        as [(_ & -> & _) | (_ & -> & _)].
      - exists vn. exact Hn.
      - exists v. apply K, Hv. }
    split; [exact Hbest |].
    apply Forall_app. split.
    + eapply Forall_impl; [| exact Hhist]. simpl.
      intros sn [Ksn Hsn]. split; [| exact Hsn].
      eapply keeps_trans; eassumption.
    + constructor; [| constructor].
      apply swap_inv in Hswap.
      destruct Hswap as (? & ? & _ & _ & _ & _ & _ & _ & ->).
      split; [apply keeps_refl | exact Hbest].
  - intros hist s1 h1 f HP. exact HP.
  - split; [exact Hstart | constructor].
Qed.

Lemma initialise_allocates (h h0 : Heap V) (s0 : RunState Ref) :
  initialise args h = Some (s0, h0) ->
  exists v, deref h0 (bestState s0) = Some v.
Proof.
  destruct discipline as (_ & Hnew & _ & _ & Hcost & _).
  intros H. apply initialise_inv in H.
  destruct H as (h1 & h2 & h3 & _ & _ & Hcopy & Hc & _).
  destruct (Hnew _ _ _ _ Hcopy) as (v & Hv).
  exists v. exact (Hcost _ _ _ _ Hc _ _ Hv).
Qed.

End Frame.

(** C1, as the code has it. [bestState] is given the reference of the
    neighbor itself, never a copy: a pass that accepts the neighbor it
    records as best leaves [bestState] and [currentState] one reference.
    When the strategies keep the copy discipline (they write to no object
    that exists, and return references to objects), the object recorded as
    best at the end of a pass is the same, with the same content, at the
    end of every later pass and when the run returns. *)
Theorem recorded_best_kept_under_copy_discipline {V : Type}
  (Math_random : M (Heap V) R) (args : SimulatedAnnealingArgs (Heap V) Ref)
  (fuel : nat) (h h' : Heap V) (s : RunState Ref) (tr : Trace (Heap V) Ref) :
  copyDiscipline Math_random args ->
  runTrace Math_random args fuel h = Some ((s, tr), h') ->
  Forall (fun snap =>
            (bestState (after snap) = neighbor snap \/
             bestState (after snap) = bestState (before snap)) /\
            (accepted snap = true ->
             neighborCost snap < bestCost (before snap) ->
             bestState (after snap) = currentState (after snap)))
    (swaps tr) /\
  Forall (fun snap =>
            exists v,
              deref (world snap) (bestState (after snap)) = Some v /\
              deref h' (bestState (after snap)) = Some v)
    (swaps tr) /\
  (forall pre snap mid later post,
      swaps tr = pre ++ snap :: mid ++ later :: post ->
      exists v,
        deref (world snap) (bestState (after snap)) = Some v /\
        deref (world later) (bestState (after snap)) = Some v).
Proof.
  intros Hd H. apply runTrace_inv in H. destruct H as (s0 & h0 & Hinit & H).
  pose proof (initialise_allocates Math_random args Hd h h0 s0 Hinit) as Hstart.
  split; [| split].
  - apply (whileLoop_invariant Math_random args
             (fun hist _ _ =>
                Forall (fun snap =>
                          (bestState (after snap) = neighbor snap \/
                           bestState (after snap) = bestState (before snap)) /\
                          (accepted snap = true ->
                           neighborCost snap < bestCost (before snap) ->
                           bestState (after snap) = currentState (after snap)))
                  hist))
      with (hist := []) in H.
    + exact H.
    + intros hist s1 h1 snap h2 HP Hswap.
      apply Forall_app. split; [assumption |].
      constructor; [| constructor].
      pose proof (swap_best Math_random args s1 h1 h2 snap Hswap) as Hbest.
      destruct (swap_current Math_random args s1 h1 h2 snap Hswap)
        as [Hyes _].
      apply swap_inv in Hswap.
      destruct Hswap as (? & ? & _ & _ & _ & -> & _).
      split.
      * destruct Hbest as [(_ & -> & _) | (_ & -> & _)];
          [left | right]; reflexivity.
      * intros Hacc Hlt. destruct (Hyes Hacc) as [-> _].
        destruct Hbest as [(_ & -> & _) | (Hge & _)]; [reflexivity | lra].
    + intros hist s1 h1 f HP. exact HP.
    + constructor.
  - apply (whileLoop_keeps_best Math_random args Hd) in H; [| exact Hstart].
    destruct H as [Hend _].
    eapply Forall_impl; [| exact Hend]. simpl.
    intros snap [K (v & Hv)]. exists v. split; [exact Hv | apply K, Hv].
  - intros pre snap mid later post E.
    apply (whileLoop_keeps_best Math_random args Hd) in H; [| exact Hstart].
    destruct H as [_ Hall].
    specialize (Hall (pre ++ snap :: mid) later post).
    rewrite <- app_assoc in Hall. specialize (Hall E).
    apply Forall_app in Hall. destruct Hall as [Hall _].
    apply Forall_app in Hall. destruct Hall as [_ Hall].
    apply Forall_inv in Hall. destruct Hall as [K (v & Hv)].
    exists v. split; [exact Hv | apply K, Hv].
Qed.

(** ** The strategies of the test-suite on degenerate states *)

Section Degenerate.

Context {W : Type}.
Variable Math_random : M W R.

Lemma copyState_spec (state : Test.Groups) : Test.copyState state = state.
Proof.
  unfold Test.copyState.
  assert (H : forall acc, fold_left
                (fun accumulator group =>
                   accumulator ++ [map (fun e : Test.Element => e) group])
                state acc = acc ++ state).
  { induction state as [| g state IH]; intros acc; simpl.
    - rewrite app_nil_r. reflexivity.
    - rewrite IH, map_id, <- app_assoc. reflexivity. }
  apply (H []).
Qed.

Hypothesis draws_in_range : unitInterval Math_random.

(** Between equal bounds there is one number to draw. *)
Lemma generateRandomNumber_single (bound : Z) (w w' : W) (z : Z) :
  Test.generateRandomNumber Math_random bound bound w = Some (z, w') ->
  z = bound.
Proof.
  unfold Test.generateRandomNumber. intros H.
  apply bind_Some in H. destruct H as (u & w1 & Hu & H).
  apply ret_Some in H. destruct H as [<- _].
  apply draws_in_range in Hu.
  replace (bound - bound + 1)%Z with 1%Z by lia.
  rewrite Rmult_1_r.
  rewrite <- (Int_part_spec u 0%Z); [lia |]. simpl. lra.
Qed.

(** The loop that draws until the two numbers differ never ends when
    there is one number to draw. *)
Lemma redraw_never_returns (fuel : nat) :
  forall bound w, Test.redraw Math_random fuel bound bound bound bound w = None.
Proof.
  induction fuel as [| fuel IH]; intros bound w; simpl;
    rewrite Z.eqb_refl; [reflexivity |].
  unfold bind.
  destruct (Test.generateRandomNumber Math_random bound bound w)
    as [[z w1] |] eqn:E; [| reflexivity].
  apply generateRandomNumber_single in E. subst z. apply IH.
Qed.

Lemma generateUniqueRandomNumbers_never_returns (fuel : nat) (bound : Z) (w : W) :
  Test.generateUniqueRandomNumbers Math_random fuel bound bound w = None.
Proof.
  unfold Test.generateUniqueRandomNumbers, bind.
  destruct (Test.generateRandomNumber Math_random bound bound w)
    as [[z w1] |] eqn:E; [| reflexivity].
  apply generateRandomNumber_single in E. subst z.
  rewrite redraw_never_returns. reflexivity.
Qed.

(** [generateNewState] never returns on a single group, whatever its
    size. *)
Lemma generateNewState_single_group (fuel : nat) (group : Test.Group) (w : W) :
  Test.generateNewState Math_random fuel [group] w = None.
Proof.
  unfold Test.generateNewState. simpl.
  apply bind_None. apply generateUniqueRandomNumbers_never_returns.
Qed.

End Degenerate.

(** [generateNewState] returns the array it was given when it is empty. *)
Lemma generateNewState_empty {W : Type} (Math_random : M W R) (fuel : nat)
  (w : W) :
  Test.generateNewState Math_random fuel [] w = Some ([], w).
Proof. reflexivity. Qed.

(** C3, where the code fails. On a single group, of any size, with the
    strategies of the test-suite and draws in [0, 1), a run whose loops
    are entered never returns: however much fuel the engine and
    [generateUniqueRandomNumbers] are given, there is no result. *)
Theorem single_group_never_returns {W : Type} (Math_random : M W R)
  (fuel strategyFuel : nat) (cost : Test.Groups -> R) (group : Test.Group)
  (opts : option SimulatedAnnealingOptions) (w : W) :
  unitInterval Math_random ->
  theMinimumTemperature
    (fixtureArgs Math_random strategyFuel cost [group] opts)
  < theInitialTemperature
      (fixtureArgs Math_random strategyFuel cost [group] opts) ->
  (0 < theSwapsPerTemperature
         (fixtureArgs Math_random strategyFuel cost [group] opts))%nat ->
  runSimulatedAnnealing Math_random
    (fixtureArgs Math_random strategyFuel cost [group] opts) fuel w = None.
Proof.
  intros Hrange Htemp Hswaps.
  set (args := fixtureArgs Math_random strategyFuel cost [group] opts) in *.
  unfold runSimulatedAnnealing. apply bind_None.
  unfold runTrace, initialise. simpl. unfold bind at 1. simpl.
  destruct fuel as [| fuel]; simpl; unfold Rgtb;
    rewrite (Rltb_true _ _ Htemp); [reflexivity |].
  apply bind_None.
  destruct (theSwapsPerTemperature args) as [| n]; [lia |]. simpl.
  apply bind_None. unfold swap. apply bind_None. simpl.
  rewrite copyState_spec.
  apply generateNewState_single_group. exact Hrange.
Qed.


(** ** Runs of the examples *)

Lemma exp_below_half (x : R) : x <= -1 -> exp x < 1 / 2.
Proof.
  intros Hx. replace x with (- - x) by ring. rewrite exp_Ropp.
  assert (H : 2 < exp (- x)).
  { apply Rle_lt_trans with (1 + - x); [lra |]. apply exp_ineq1. lra. }
  apply Rmult_lt_reg_r with (exp (- x)); [lra |].
  rewrite Rinv_l by lra. lra.
Qed.

(** Settles the comparisons between numerals in the goal. *)
Ltac decide_lt :=
  repeat match goal with
         | |- context [Rltb ?x (exp ?y)] =>
             let H := fresh "H" in
             assert (H : exp y < 1 / 2) by (apply exp_below_half; lra);
             rewrite (Rltb_false x (exp y)) by lra; clear H
         | |- context [Rltb ?x ?y] =>
             first [ rewrite (Rltb_true x y) by lra
                   | rewrite (Rltb_false x y) by lra ]
         end.

(** Runs the engine on arguments that are given in full. *)
Ltac run_engine :=
  unfold runSimulatedAnnealing, runTrace, initialise, theInitialTemperature,
    theCoolingFactor, theMinimumTemperature, theSwapsPerTemperature, settings;
  repeat (cbn -[Rltb exp];
          unfold swap, acceptanceTest, recordBest, acceptNeighbor, cool, Rgtb,
            bind, ret, observe;
          cbn -[Rltb exp]; decide_lt).

(** Runs the strategies of the cell examples. *)
Ltac run_cells :=
  unfold cellCopy, cellCost, cellNeighbor, cellNeighborInPlace, load, store,
    allocate, heapRandom, nextDraw, deref, oneCell, halves, nudge;
  run_engine.

(** The descent from 5: two passes, to 4 and to 3, at temperature 1. *)
Lemma descent_run (d : Draws) :
  exists s first second,
    runTrace drawRandom (descentArgs 5 (Some twoSwaps)) 1 d
    = Some ((s, [(1, [first; second])]), d) /\
    neighbor first = 4 /\ neighbor second = 3 /\
    bestCost (between first) = 5 /\ currentCost (between first) = 4 /\
    bestState s = 3 /\ bestCost s = 3 /\ currentTemperature s = 1 / 2.
Proof.
  eexists _, _, _. split; [run_engine; reflexivity |].
  cbn. repeat split; lra.
Qed.

Lemma descent_contract (start : R) (opts : option SimulatedAnnealingOptions) :
  pureCost (descentArgs start opts) (fun x => x) /\
  faithfulCopy (descentArgs start opts) (fun x => x) /\
  terminating drawRandom (descentArgs start opts).
Proof.
  split; [| split].
  - intros t w. reflexivity.
  - intros t w t' w' H. injection H as <- _. reflexivity.
  - split; [| split; [| split]].
    + intros a w. exists a, w. reflexivity.
    + intros a w. exists (a - 1), w. reflexivity.
    + intros a w. exists a, w. reflexivity.
    + intros w. exists (w O), (fun n => w (S n)). reflexivity.
Qed.

(** Inside a pass, between its two [if]s, the best cost can be above the
    current cost even with a cost that reads the state alone: the first
    pass of the descent has accepted the neighbor of cost 4 while the best
    cost is still 5. *)
Lemma best_above_current_inside_a_pass :
  exists s first second,
    runTrace drawRandom (descentArgs 5 (Some twoSwaps)) 1 halves
    = Some ((s, [(1, [first; second])]), halves) /\
    bestCost (between first) > currentCost (between first).
Proof.
  destruct (descent_run halves)
    as (s & first & second & H & _ & _ & Hb & Hc & _).
  exists s, first, second. split; [exact H | lra].
Qed.

(** The run of the counting caller: the two calls of [getCost] at the
    start give a current cost of 0 and a best cost of 1, and the two
    neighbors, of costs 2 and 3, are neither accepted nor recorded. *)
Lemma counting_run :
  exists s first second,
    runTrace countingRandom (countingArgs (Some twoSwaps)) 1 0%nat
    = Some ((s, [(1, [first; second])]), 4%nat) /\
    neighborCost first = 2 /\ neighborCost second = 3 /\
    (bestCost (before first) = 1 /\ currentCost (before first) = 0) /\
    (bestCost (after first) = 1 /\ currentCost (after first) = 0) /\
    (bestCost (before second) = 1 /\ currentCost (before second) = 0) /\
    (bestCost (after second) = 1 /\ currentCost (after second) = 0) /\
    bestCost s = 1 /\ currentCost s = 0.
Proof.
  eexists _, _, _. split.
  - unfold countingRandom, countingArgs. run_engine. reflexivity.
  - cbn. repeat split; lra.
Qed.

(** C2. The best cost is not at most the current cost at every instant:
    with a [getCost] that is not a function of the state alone, every
    pass of the inner loop of a run can start and end with the best cost
    above the current cost (the two costs come from two calls of
    [getCost] at the start); but in every run, whatever the strategies
    do, the best cost never goes up from one pass to the next. *)
Theorem best_can_exceed_current_but_never_increases :
  (exists (s : RunState unit) (tr : Trace nat unit) (w' : nat),
      runTrace countingRandom (countingArgs (Some twoSwaps)) 1 0%nat
      = Some ((s, tr), w') /\
      tr <> [] /\
      Forall (fun snap =>
                bestCost (before snap) > currentCost (before snap) /\
                bestCost (after snap) > currentCost (after snap))
        (swaps tr) /\
      bestCost s > currentCost s) /\
  (forall (W T : Type) (Math_random : M W R)
          (args : SimulatedAnnealingArgs W T) (fuel : nat) (w w' : W)
          (s : RunState T) (tr : Trace W T),
      runTrace Math_random args fuel w = Some ((s, tr), w') ->
      nonIncreasing (bestCosts tr)).
Proof.
  split.
  - destruct counting_run
      as (s & first & second & H & _ & _ & [B0 C0] & [B1 C1] & [B2 C2]
          & [B3 C3] & Bs & Cs).
    exists s, [(1, [first; second])], 4%nat.
    split; [exact H |]. split; [discriminate |]. split.
    + simpl. constructor; [| constructor; [| constructor]].
      * rewrite B0, C0, B1, C1. split; lra.
      * rewrite B2, C2, B3, C3. split; lra.
    + rewrite Bs, Cs. lra.
  - intros W T Math_random args fuel w w' s tr H.
    exact (bestCosts_nonIncreasing Math_random args fuel w w' s tr H).
Qed.

(** The cells, with a neighbor that is a new object: the first pass
    records the new object of value 3 as best, the second meets one of
    value 9 and rejects it. *)
Lemma cells_run :
  exists s first second h',
    runTrace heapRandom (cellArgs cellNeighbor 0%nat (Some twoSwaps)) 1 oneCell
    = Some ((s, [(1, [first; second])]), h') /\
    bestState (after first) = 3%nat /\
    deref (world first) 3%nat = Some 3 /\
    bestState s = 3%nat /\ currentState s = 3%nat /\
    deref h' 3%nat = Some 3.
Proof.
  eexists _, _, _, _. split; [run_cells; reflexivity |].
  cbn. repeat split; f_equal; lra.
Qed.

Lemma allocate_keeps {V : Type} (v : V) : framed (allocate v).
Proof.
  intros h r h' H. unfold allocate in H. injection H as _ <-.
  intros r' v' Hr. unfold deref in *. simpl.
  rewrite nth_error_app1; [exact Hr |].
  apply nth_error_Some. rewrite Hr. discriminate.
Qed.

Lemma allocate_allocates {V : Type} (v : V) : allocates (allocate v).
Proof.
  intros h r h' H. unfold allocate in H. injection H as <- <-.
  exists v. unfold deref. simpl. apply nth_error_middle.
Qed.

Lemma load_keeps {V : Type} (r : Ref) : framed (@load V r).
Proof.
  intros h v h' H. unfold load in H.
  destruct (deref h r); [| discriminate]. injection H as _ <-.
  apply keeps_refl.
Qed.

(** The cells with [cellNeighbor] keep the copy discipline. *)
Lemma cells_copyDiscipline (state : Ref)
  (opts : option SimulatedAnnealingOptions) :
  copyDiscipline heapRandom (cellArgs cellNeighbor state opts).
Proof.
  assert (Hla : forall (f : R -> R) (t : Ref),
             framed (v <- load t ;; allocate (f v))).
  { intros f t h r h' H. apply bind_Some in H.
    destruct H as (v & h1 & Hl & Ha).
    eapply keeps_trans; [exact (load_keeps _ _ _ _ Hl) |].
    exact (allocate_keeps _ _ _ _ Ha). }
  assert (Hlb : forall (f : R -> R) (t : Ref),
             allocates (v <- load t ;; allocate (f v))).
  { intros f t h r h' H. apply bind_Some in H.
    destruct H as (v & h1 & Hl & Ha).
    exact (allocate_allocates _ _ _ _ Ha). }
  unfold copyDiscipline. simpl.
  split; [exact (Hla (fun v => v)) |].
  split; [exact (Hlb (fun v => v)) |].
  split; [exact (Hla nudge) |].
  split; [exact (Hlb nudge) |].
  split; [intros t; apply load_keeps |].
  intros h u h' H. unfold heapRandom in H. simpl in H.
  injection H as _ <-. intros r v Hr. exact Hr.
Qed.

(** C1, as stated, fails. With a [generateNewState] that writes to the
    object it is given, the first pass records reference 1 as best when
    its value is 3; the second pass, perturbing the current state (the
    same reference), leaves 9 in that object.  The run returns reference
    1, the current state itself, with a best cost of 3 on record and a
    value of 9, above the 5 of the initial state. *)
Lemma neighbor_written_in_place_alters_recorded_best :
  exists s first second h',
    runTrace heapRandom (cellArgs cellNeighborInPlace 0%nat (Some twoSwaps))
      1 oneCell
    = Some ((s, [(1, [first; second])]), h') /\
    runSimulatedAnnealing heapRandom
      (cellArgs cellNeighborInPlace 0%nat (Some twoSwaps)) 1 oneCell
    = Some (1%nat, h') /\
    bestState (after first) = 1%nat /\
    deref (world first) 1%nat = Some 3 /\
    bestState s = 1%nat /\ bestCost s = 3 /\
    currentState s = bestState s /\
    deref h' 1%nat = Some 9 /\
    deref h' 0%nat = Some 5.
Proof.
  eexists _, _, _, _. split; [run_cells; reflexivity |].
  split; [run_cells; reflexivity |].
  cbn. repeat split; try f_equal; lra.
Qed.

(** C1: the amended statement at the cells with [cellNeighbor]. *)
Lemma recorded_best_kept_witness :
  exists s tr h',
    runTrace heapRandom (cellArgs cellNeighbor 0%nat (Some twoSwaps)) 1 oneCell
    = Some ((s, tr), h') /\
    Forall (fun snap =>
              exists v,
                deref (world snap) (bestState (after snap)) = Some v /\
                deref h' (bestState (after snap)) = Some v)
      (swaps tr).
Proof.
  destruct cells_run as (s & first & second & h' & H & _).
  exists s, [(1, [first; second])], h'. split; [exact H |].
  exact (proj1 (proj2 (recorded_best_kept_under_copy_discipline
                         heapRandom _ _ _ _ _ _
                         (cells_copyDiscipline 0%nat (Some twoSwaps)) H))).
Defined.

(** X21 at the descent from 5. *)
Lemma best_at_most_current_witness :
  exists s tr,
    runTrace drawRandom (descentArgs 5 (Some twoSwaps)) 1 halves
    = Some ((s, tr), halves) /\
    Forall (fun snap =>
              bestCost (before snap) <= currentCost (before snap) /\
              bestCost (after snap) <= currentCost (after snap))
      (swaps tr) /\
    bestCost s <= currentCost s /\
    nonIncreasing (bestCosts tr).
Proof.
  destruct (descent_run halves) as (s & first & second & H & _).
  exists s, [(1, [first; second])]. split; [exact H |].
  exact (best_at_most_current_after_every_pass drawRandom _ (fun x => x)
           _ _ _ _ _ (proj1 (descent_contract 5 (Some twoSwaps))) H).
Defined.

(** C5: at the descent from 5 the state returned costs the least of 5 and
    the costs of the two neighbors. *)
Lemma best_state_has_least_cost_seen_witness :
  exists s tr,
    runTrace drawRandom (descentArgs 5 (Some twoSwaps)) 1 halves
    = Some ((s, tr), halves) /\
    runSimulatedAnnealing drawRandom (descentArgs 5 (Some twoSwaps)) 1 halves
    = Some (bestState s, halves) /\
    bestState s = least 5 (map (fun snap => neighbor snap) (swaps tr)).
Proof.
  destruct (descent_run halves) as (s & first & second & H & _).
  exists s, [(1, [first; second])]. split; [exact H |].
  destruct (best_state_has_least_cost_seen drawRandom _ (fun x => x)
              _ _ _ _ _
              (proj1 (descent_contract 5 (Some twoSwaps)))
              (proj1 (proj2 (descent_contract 5 (Some twoSwaps)))) H)
    as (Hrun & Hleast & _).
  split; [exact Hrun | exact Hleast].
Defined.


(** C8: the best costs of the descent from 5 never go up. *)
Lemma best_cost_never_increases_witness :
  exists s tr,
    runTrace drawRandom (descentArgs 5 (Some twoSwaps)) 1 halves
    = Some ((s, tr), halves) /\
    nonIncreasing (bestCosts tr) /\
    Forall (fun snap => bestCost (after snap) <= bestCost (before snap))
      (swaps tr).
Proof.
  destruct (descent_run halves) as (s & first & second & H & _).
  exists s, [(1, [first; second])]. split; [exact H |].
  exact (best_cost_never_increases drawRandom _ _ _ _ _ _ H).
Defined.

(** C10: the state the descent from 5 returns is the first of least cost
    among its candidates. *)
Lemma ties_keep_the_earlier_best_witness :
  exists s tr s0 w0,
    runTrace drawRandom (descentArgs 5 (Some twoSwaps)) 1 halves
    = Some ((s, tr), halves) /\
    initialise (descentArgs 5 (Some twoSwaps)) halves = Some (s0, w0) /\
    earliestLeast (bestState s, bestCost s) (candidates s0 (swaps tr)).
Proof.
  destruct (descent_run halves) as (s & first & second & H & _).
  destruct (ties_keep_the_earlier_best drawRandom _ _ _ _ _ _ H)
    as (s0 & w0 & Hinit & _ & _ & Hfirst & _).
  exists s, [(1, [first; second])], s0, w0.
  split; [exact H |]. split; [exact Hinit | exact Hfirst].
Defined.

(** C3: the run of the test-suite's strategies on the one group [[1]],
    with the default settings and every draw 1/2, has no result. *)
Lemma single_group_never_returns_witness :
  runSimulatedAnnealing (fixedDraw (1 / 2))
    (fixtureArgs (fixedDraw (1 / 2)) 1000 (fun _ => 0) [[Some 1]] None)
    2000 tt
  = None.
Proof.
  apply single_group_never_returns.
  - intros w u w' H. unfold fixedDraw in H. injection H as <- _. lra.
  - cbn. lra.
  - cbn. lia.
Defined.

(** * More properties of the code *)

(** ** The engine and the heap *)

Section Untouched.

Context {V : Type}.
Variable Math_random : M (Heap V) R.
Variable args : SimulatedAnnealingArgs (Heap V) Ref.
Hypothesis discipline : copyDiscipline Math_random args.

Lemma initialise_keeps (h h0 : Heap V) (s0 : RunState Ref) :
  initialise args h = Some (s0, h0) -> keeps h h0.
Proof.
  destruct discipline as (Hcopy & _ & _ & _ & Hcost & _).
  intros H. apply initialise_inv in H.
  destruct H as (h1 & h2 & h3 & H1 & H2 & H3 & H4 & _).
  eapply keeps_trans; [exact (Hcopy _ _ _ _ H1) |].
  eapply keeps_trans; [exact (Hcost _ _ _ _ H2) |].
  eapply keeps_trans; [exact (Hcopy _ _ _ _ H3) |].
  exact (Hcost _ _ _ _ H4).
Qed.

Lemma whileLoop_keeps (factor minimum : R) (n fuel : nat)
  (s0 s : RunState Ref) (h0 h : Heap V) (tr : Trace (Heap V) Ref) :
  (exists v, deref h0 (bestState s0) = Some v) ->
  whileLoop Math_random args fuel factor minimum n s0 h0 = Some ((s, tr), h) ->
  keeps h0 h /\ exists v, deref h (bestState s) = Some v.
Proof.
  intros Hstart H.
  apply (whileLoop_invariant Math_random args
           (fun _ s h =>
              keeps h0 h /\ exists v, deref h (bestState s) = Some v))
    with (hist := []) in H.
  - exact H.
  - intros hist s1 h1 snap h2 [K (v & Hv)] Hswap.
    destruct (swap_keeps Math_random args discipline s1 h1 h2 snap Hswap)
      as [K' (vn & Hn)].
    split; [eapply keeps_trans; eassumption |].
    destruct (swap_best Math_random args s1 h1 h2 snap Hswap)
      as [(_ & -> & _) | (_ & -> & _)].
    + exists vn. exact Hn.
    + exists v. apply K', Hv.
  - intros hist s1 h1 f HP. exact HP.
  - split; [apply keeps_refl | exact Hstart].
Qed.

End Untouched.

(** X1. The engine writes to no state. When the strategies keep the copy
    discipline, every object of the heap at the call, the one behind
    [initialState] among them, is in the heap at the return with the
    content it had, and the state returned is an object of that heap. *)
Theorem run_keeps_every_object {V : Type} (Math_random : M (Heap V) R)
  (args : SimulatedAnnealingArgs (Heap V) Ref) (fuel : nat)
  (h h' : Heap V) (result : Ref) :
  copyDiscipline Math_random args ->
  runSimulatedAnnealing Math_random args fuel h = Some (result, h') ->
  keeps h h' /\
  (forall v, deref h (initialState args) = Some v ->
             deref h' (initialState args) = Some v) /\
  exists v, deref h' result = Some v.
Proof.
  intros Hd H. apply runSimulatedAnnealing_inv in H.
  destruct H as (s & tr & H & ->).
  apply runTrace_inv in H. destruct H as (s0 & h0 & Hinit & H).
  pose proof (initialise_keeps Math_random args Hd h h0 s0 Hinit) as K0.
  pose proof (initialise_allocates Math_random args Hd h h0 s0 Hinit) as Hstart.
  destruct (whileLoop_keeps Math_random args Hd _ _ _ _ _ _ _ _ _ Hstart H)
    as [K Hres].
  assert (Kall : keeps h h') by (eapply keeps_trans; eassumption).
  split; [exact Kall |]. split; [| exact Hres].
  intros v Hv. apply Kall, Hv.
Qed.

Lemma allocate_fresh {V : Type} (v : V) : fresh (allocate v).
Proof.
  intros h r h' H. unfold allocate in H. injection H as <- _.
  unfold deref. apply nth_error_None. apply Nat.le_refl.
Qed.

(** X2. When moreover [copyState] and [generateNewState] return objects
    that did not exist when they were called, the state returned is an
    object that did not exist at the call: never the caller's
    [initialState] itself, nor any other object the caller holds. *)
Theorem returned_state_is_new {V : Type} (Math_random : M (Heap V) R)
  (args : SimulatedAnnealingArgs (Heap V) Ref) (fuel : nat)
  (h h' : Heap V) (result : Ref) :
  copyDiscipline Math_random args ->
  (forall t, fresh (copyState args t)) ->
  (forall t, fresh (generateNewState args t)) ->
  runSimulatedAnnealing Math_random args fuel h = Some (result, h') ->
  deref h result = None /\
  (forall v, deref h (initialState args) = Some v ->
             result <> initialState args).
Proof.
  intros Hd Hcopy Hgen H.
  assert (Hold : forall (h1 : Heap V) (r : Ref),
             keeps h h1 -> deref h1 r = None -> deref h r = None).
  { intros h1 r K Hr. destruct (deref h r) as [v |] eqn:E; [| reflexivity].
    apply K in E. congruence. }
  apply runSimulatedAnnealing_inv in H. destruct H as (s & tr & H & ->).
  apply runTrace_inv in H. destruct H as (s0 & h0 & Hinit & H).
  pose proof (initialise_keeps Math_random args Hd h h0 s0 Hinit) as K0.
  assert (Hnew0 : deref h (bestState s0) = None).
  { destruct Hd as (Kcopy & _ & _ & _ & Kcost & _).
    apply initialise_inv in Hinit.
    destruct Hinit as (h1 & h2 & h3 & H1 & H2 & H3 & _).
    apply (Hold h2); [| exact (Hcopy _ _ _ _ H3)].
    eapply keeps_trans; [exact (Kcopy _ _ _ _ H1) | exact (Kcost _ _ _ _ H2)]. }
  assert (Hnew : deref h (bestState s) = None).
  { apply (whileLoop_invariant Math_random args
             (fun _ s h1 => keeps h h1 /\ deref h (bestState s) = None))
      with (hist := []) in H.
    - exact (proj2 H).
    - intros hist s1 h1 snap h2 [K Hb] Hswap.
      destruct (swap_keeps Math_random args Hd s1 h1 h2 snap Hswap) as [K' _].
      split; [eapply keeps_trans; eassumption |].
      destruct (swap_best Math_random args s1 h1 h2 snap Hswap)
        as [(_ & -> & _) | (_ & -> & _)]; [| exact Hb].
      apply swap_inv in Hswap. destruct Hswap as (h3 & h4 & Hn & _).
      apply (Hold h1 _ K). exact (Hgen _ _ _ _ Hn).
    - intros hist s1 h1 f HP. exact HP.
    - split; assumption. }
  split; [exact Hnew |].
  intros v Hv E. rewrite E in Hnew. congruence.
Qed.

(** ** Edges of the schedule *)

(** X3. With an initial temperature at or below the minimum the loop
    body never runs: whatever the fuel, no neighbor is generated and the
    run returns what initialisation gives, the second copy of
    [initialState]. *)
Theorem no_pass_when_already_cold {W T : Type} (Math_random : M W R)
  (args : SimulatedAnnealingArgs W T) (fuel : nat) (w : W) :
  theInitialTemperature args <= theMinimumTemperature args ->
  runTrace Math_random args fuel w
  = (s <- initialise args ;; ret (s, [])) w /\
  runSimulatedAnnealing Math_random args fuel w
  = (current <- copyState args (initialState args) ;;
     _ <- getCost args (initialState args) ;;
     best <- copyState args (initialState args) ;;
     _ <- getCost args (initialState args) ;;
     ret best) w.
Proof.
  intros Hcold.
  assert (Hloop : forall s w0,
             currentTemperature s = theInitialTemperature args ->
             whileLoop Math_random args fuel (theCoolingFactor args)
               (theMinimumTemperature args) (theSwapsPerTemperature args) s w0
             = Some ((s, []), w0)).
  { intros s w0 Hs.
    assert (E : Rgtb (currentTemperature s) (theMinimumTemperature args) = false)
      by (apply Rltb_false; lra).
    destruct fuel; simpl; rewrite E; reflexivity. }
  assert (Hrun : runTrace Math_random args fuel w
                 = (s <- initialise args ;; ret (s, [])) w).
  { unfold runTrace, bind.
    destruct (initialise args w) as [[s w0] |] eqn:Hinit; [| reflexivity].
    apply Hloop. apply initialise_inv in Hinit.
    destruct Hinit as (_ & _ & _ & _ & _ & _ & _ & Ht). exact Ht. }
  split; [exact Hrun |].
  unfold runSimulatedAnnealing. unfold bind at 1. rewrite Hrun.
  unfold initialise, bind, ret.
  destruct (copyState args (initialState args) w) as [[c w1] |]; [| reflexivity].
  destruct (getCost args (initialState args) w1) as [[cc w2] |]; [| reflexivity].
  destruct (copyState args (initialState args) w2) as [[b w3] |]; [| reflexivity].
  destruct (getCost args (initialState args) w3) as [[bc w4] |]; reflexivity.
Qed.

Section NeverCools.

Context {W T : Type}.
Variable Math_random : M W R.
Variable args : SimulatedAnnealingArgs W T.

Lemma whileLoop_never_cools (factor minimum : R) (n fuel : nat) :
  1 <= factor ->
  forall s w,
    minimum < currentTemperature s ->
    0 <= currentTemperature s ->
    whileLoop Math_random args fuel factor minimum n s w = None.
Proof.
  intros Hf. induction fuel as [| fuel IH]; intros s w Hmin Hpos; simpl;
    unfold Rgtb; rewrite (Rltb_true _ _ Hmin); [reflexivity |].
  unfold bind.
  destruct (forLoop Math_random args n s w) as [[[s1 snaps] w1] |] eqn:Hfor;
    [| reflexivity].
  apply forLoop_shape in Hfor. destruct Hfor as [Ht _]. simpl.
  rewrite IH; [reflexivity | |]; simpl; rewrite Ht; nra.
Qed.

End NeverCools.

(** X4. A cooling factor of 1 or more never ends the run: with an initial
    temperature that is not negative and above the minimum, no amount of
    fuel gives a result, whatever the strategies do. *)
Theorem no_result_without_cooling {W T : Type} (Math_random : M W R)
  (args : SimulatedAnnealingArgs W T) (fuel : nat) (w : W) :
  1 <= theCoolingFactor args ->
  theMinimumTemperature args < theInitialTemperature args ->
  0 <= theInitialTemperature args ->
  runSimulatedAnnealing Math_random args fuel w = None.
Proof.
  intros Hf Hmin Hpos. unfold runSimulatedAnnealing. apply bind_None.
  unfold runTrace, bind.
  destruct (initialise args w) as [[s0 w0] |] eqn:Hinit; [| reflexivity].
  apply initialise_inv in Hinit.
  destruct Hinit as (_ & _ & _ & _ & _ & _ & _ & Ht).
  apply whileLoop_never_cools; rewrite ?Ht; assumption.
Qed.

(** ** The default schedule *)

Lemma pow_ratio (a b : Z) (n : nat) :
  (IZR a / IZR b) ^ n = IZR (a ^ Z.of_nat n) / IZR (b ^ Z.of_nat n).
Proof.
  unfold Rdiv. rewrite Rpow_mult_distr, pow_inv, !pow_IZR. reflexivity.
Qed.

Lemma pow_ratio_le (a b c : Z) (n : nat) :
  (0 <? b ^ Z.of_nat n)%Z = true ->
  (0 <? c)%Z = true ->
  (a ^ Z.of_nat n * c <=? b ^ Z.of_nat n)%Z = true ->
  1 * (IZR a / IZR b) ^ n <= 1 / IZR c.
Proof.
  rewrite pow_ratio.
  generalize (a ^ Z.of_nat n)%Z (b ^ Z.of_nat n)%Z. intros A B HB Hc H.
  apply Z.ltb_lt in HB, Hc. apply Z.leb_le in H.
  apply IZR_lt in HB, Hc. apply IZR_le in H. rewrite mult_IZR in H.
  apply Rmult_le_reg_r with (IZR B * IZR c); [nra |].
  replace (1 * (IZR A / IZR B) * (IZR B * IZR c)) with (IZR A * IZR c)
    by (field; lra).
  replace (1 / IZR c * (IZR B * IZR c)) with (IZR B) by (field; lra).
  exact H.
Qed.

Lemma pow_ratio_gt (a b c : Z) (n : nat) :
  (0 <? b ^ Z.of_nat n)%Z = true ->
  (0 <? c)%Z = true ->
  (b ^ Z.of_nat n <? a ^ Z.of_nat n * c)%Z = true ->
  1 / IZR c < 1 * (IZR a / IZR b) ^ n.
Proof.
  rewrite pow_ratio.
  generalize (a ^ Z.of_nat n)%Z (b ^ Z.of_nat n)%Z. intros A B HB Hc H.
  apply Z.ltb_lt in HB, Hc, H.
  apply IZR_lt in HB, Hc, H. rewrite mult_IZR in H.
  apply Rmult_lt_reg_r with (IZR B * IZR c); [nra |].
  replace (1 * (IZR A / IZR B) * (IZR B * IZR c)) with (IZR A * IZR c)
    by (field; lra).
  replace (1 / IZR c * (IZR B * IZR c)) with (IZR B) by (field; lra).
  exact H.
Qed.

(** 0.99 ^ 1146 <= 0.00001 < 0.99 ^ 1145, by integer arithmetic. *)
Lemma default_schedule_bounds :
  1 * (99 / 100) ^ 1146 <= 1 / 100000 /\
  1 / 100000 < 1 * (99 / 100) ^ 1145.
Proof.
  split.
  - apply pow_ratio_le; vm_compute; reflexivity.
  - apply pow_ratio_gt; vm_compute; reflexivity.
Qed.

Lemma pow_antitone (c : R) (j k : nat) :
  0 <= c <= 1 -> (j <= k)%nat -> c ^ k <= c ^ j.
Proof.
  intros Hc Hjk. induction Hjk as [| k Hjk IH]; [lra |].
  simpl. pose proof (pow_le c k (proj1 Hc)). nra.
Qed.

Lemma concat_length_uniform {A : Type} (n : nat) (l : list (list A)) :
  Forall (fun x => length x = n) l -> length (concat l) = (length l * n)%nat.
Proof.
  induction 1 as [| x l Hx _ IH]; simpl; [reflexivity |].
  rewrite length_app, Hx, IH. reflexivity.
Qed.

(** A run makes [N] outer passes when the schedule first reaches the
    minimum at its step [N]. *)
Lemma runTrace_pass_count {W T : Type} (Math_random : M W R)
  (args : SimulatedAnnealingArgs W T) (N fuel : nat) (w : W) :
  terminating Math_random args ->
  theInitialTemperature args * theCoolingFactor args ^ N
  <= theMinimumTemperature args ->
  (forall j, (j < N)%nat ->
             theMinimumTemperature args
             < theInitialTemperature args * theCoolingFactor args ^ j) ->
  (N <= fuel)%nat ->
  exists s tr w',
    runTrace Math_random args fuel w = Some ((s, tr), w') /\
    length tr = N /\
    length (swaps tr) = (N * theSwapsPerTemperature args)%nat.
Proof.
  intros Hret Hstop Hgo Hfuel.
  destruct (initialise_returns Math_random args Hret w) as (s0 & w0 & Hinit).
  pose proof Hinit as Hinit'. apply initialise_inv in Hinit'.
  destruct Hinit' as (_ & _ & _ & _ & _ & _ & _ & Ht).
  destruct (whileLoop_returns Math_random args Hret (theCoolingFactor args)
              (theMinimumTemperature args) (theSwapsPerTemperature args) N
              fuel s0 w0 Hfuel) as ([s tr] & w' & Hloop).
  { rewrite Ht. exact Hstop. }
  exists s, tr, w'. split.
  - unfold runTrace, bind. rewrite Hinit. exact Hloop.
  - apply whileLoop_shape in Hloop. rewrite Ht in Hloop.
    destruct Hloop as (Hnth & Hend & Hmin & Hall).
    assert (Hlen : length tr = N).
    { destruct (Nat.lt_trichotomy (length tr) N) as [Hlt | [Heq | Hgt]].
      - apply Hgo in Hlt. lra.
      - exact Heq.
      - destruct (nth_error (temperatures tr) N) as [t |] eqn:E.
        + apply Hnth in E. destruct E as [-> E]. lra.
        + apply nth_error_None in E. unfold temperatures in E.
          rewrite length_map in E. lia. }
    split; [exact Hlen |].
    unfold swaps.
    rewrite (concat_length_uniform (theSwapsPerTemperature args)).
    + rewrite length_map, Hlen. reflexivity.
    + apply Forall_map. exact Hall.
Qed.

(** X6. With no options the schedule is 1, 0.99, 0.99^2, ... against
    0.00001: a run whose strategies return makes exactly 1146 passes of
    the outer loop and 11460 passes of the inner loop (as many calls of
    [generateNewState]), which is also the count the specification's
    logarithm formula gives for the defaults. *)
Theorem default_schedule_makes_1146_outer_passes {W T : Type}
  (Math_random : M W R) (args : SimulatedAnnealingArgs W T)
  (fuel : nat) (w : W) :
  options args = None ->
  terminating Math_random args ->
  (1146 <= fuel)%nat ->
  (exists s tr w',
      runTrace Math_random args fuel w = Some ((s, tr), w') /\
      length tr = 1146%nat /\
      length (swaps tr) = (1146 * 10)%nat) /\
  outerPasses (99 / 100) 1 (1 / 100000) = 1146%nat.
Proof.
  intros Hopts Hret Hfuel.
  destruct default_schedule_bounds as [Hstop Hlast].
  assert (Hgo : forall j, (j < 1146)%nat -> 1 / 100000 < 1 * (99 / 100) ^ j).
  { intros j Hj. apply Rlt_le_trans with (1 * (99 / 100) ^ 1145);
      [exact Hlast |].
    apply Rmult_le_compat_l; [lra |]. apply pow_antitone; [lra | lia]. }
  split.
  - assert (Hf : theCoolingFactor args = 99 / 100)
      by (unfold theCoolingFactor, settings; rewrite Hopts; reflexivity).
    assert (Hi : theInitialTemperature args = 1)
      by (unfold theInitialTemperature, settings; rewrite Hopts; reflexivity).
    assert (Hm : theMinimumTemperature args = 1 / 100000)
      by (unfold theMinimumTemperature, settings; rewrite Hopts; reflexivity).
    assert (Hn : theSwapsPerTemperature args = 10%nat)
      by (unfold theSwapsPerTemperature, settings; rewrite Hopts; reflexivity).
    destruct (runTrace_pass_count Math_random args 1146 fuel w Hret)
      as (s & tr & w' & H & Hlen & Hswaps);
      [rewrite Hf, Hi, Hm; exact Hstop
      | rewrite Hf, Hi, Hm; exact Hgo
      | exact Hfuel |].
    rewrite Hn in Hswaps. exists s, tr, w'.
    split; [exact H |]. split; assumption.
  - destruct (outerPasses_first (99 / 100) 1 (1 / 100000)) as [Hstop' Hgo'];
      [lra | lra |].
    destruct (Nat.lt_trichotomy (outerPasses (99 / 100) 1 (1 / 100000)) 1146)
      as [Hlt | [Heq | Hgt]].
    + apply Hgo in Hlt. lra.
    + exact Heq.
    + apply Hgo' in Hgt. lra.
Qed.

(** ** The recorded costs *)

(** X7. Under the caller's contract on [getCost] and [copyState] the two
    cost variables never go stale: at the end of every pass of the inner
    loop, and when the run ends, [currentCost] is the cost of
    [currentState] and [bestCost] is the cost of [bestState]. *)
Theorem recorded_costs_are_costs_of_recorded_states {W T : Type}
  (Math_random : M W R) (args : SimulatedAnnealingArgs W T) (cost : T -> R)
  (fuel : nat) (w w' : W) (s : RunState T) (tr : Trace W T) :
  pureCost args cost ->
  faithfulCopy args cost ->
  runTrace Math_random args fuel w = Some ((s, tr), w') ->
  (cost (currentState s) = currentCost s /\
   cost (bestState s) = bestCost s) /\
  Forall (fun snap =>
            cost (currentState (after snap)) = currentCost (after snap) /\
            cost (bestState (after snap)) = bestCost (after snap))
    (swaps tr).
Proof.
  intros Hcost Hcopy H.
  apply runTrace_inv in H. destruct H as (s0 & w0 & Hinit & H).
  destruct (initialise_costs args cost Hcost w w0 s0 Hinit) as [Hc Hb].
  pose proof (initialise_bestState args cost Hcopy w w0 s0 Hinit) as Hbs.
  assert (Hcs : cost (currentState s0) = cost (initialState args)).
  { apply initialise_inv in Hinit.
    destruct Hinit as (w1 & _ & _ & H1 & _). exact (Hcopy _ _ _ _ H1). }
  apply (whileLoop_invariant Math_random args
           (fun hist s _ =>
              (cost (currentState s) = currentCost s /\
               cost (bestState s) = bestCost s) /\
              Forall (fun snap =>
                        cost (currentState (after snap))
                        = currentCost (after snap) /\
                        cost (bestState (after snap)) = bestCost (after snap))
                hist))
    with (hist := []) in H.
  - exact H.
  - intros hist s1 w1 snap w2 [[HC HB] Hhist] Hswap.
    pose proof (swap_neighborCost Math_random args cost Hcost s1 w1 w2 snap
                  Hswap) as Hn.
    assert (Hnew : cost (currentState (after snap)) = currentCost (after snap) /\
                   cost (bestState (after snap)) = bestCost (after snap)).
    { split.
      - destruct (swap_current Math_random args s1 w1 w2 snap Hswap)
          as [Hyes Hno].
        destruct (accepted snap).
        + destruct (Hyes eq_refl) as [-> ->]. symmetry. exact Hn.
        + destruct (Hno eq_refl) as [-> ->]. exact HC.
      - destruct (swap_best Math_random args s1 w1 w2 snap Hswap)
          as [(_ & -> & ->) | (_ & -> & ->)]; [symmetry; exact Hn | exact HB]. }
    split; [exact Hnew |].
    apply Forall_app. split; [exact Hhist |].
    constructor; [exact Hnew | constructor].
  - intros hist s1 w1 f HP. exact HP.
  - split; [| constructor]. split; congruence.
Qed.

(** ** More on acceptance *)



(** ** The random numbers of the test-suite *)

Lemma Int_part_scaled (u : R) (n : Z) :
  0 <= u < 1 -> (0 < n)%Z -> (0 <= Int_part (u * IZR n) < n)%Z.
Proof.
  intros Hu Hn. apply IZR_lt in Hn.
  destruct (base_Int_part (u * IZR n)) as [Hlo Hhi].
  assert (H0 : 0 <= u * IZR n) by nra.
  assert (H1 : u * IZR n < IZR n) by nra.
  split.
  - apply Z.lt_succ_r. apply lt_IZR. rewrite succ_IZR. lra.
  - apply lt_IZR. lra.
Qed.

Section RandomNumbers.

Context {W : Type}.
Variable Math_random : M W R.
Hypothesis draws_in_range : unitInterval Math_random.

Lemma generateRandomNumber_bounds (min max : Z) (w w' : W) (z : Z) :
  (min <= max)%Z ->
  Test.generateRandomNumber Math_random min max w = Some (z, w') ->
  (min <= z <= max)%Z.
Proof.
  intros Hle H. unfold Test.generateRandomNumber in H.
  apply bind_Some in H. destruct H as (u & w1 & Hu & H).
  apply ret_Some in H. destruct H as [<- _].
  apply draws_in_range in Hu.
  pose proof (Int_part_scaled u (max - min + 1) Hu) as Hip. lia.
Qed.

(** With no number to choose from ([max = min - 1], a group of size 0)
    the result is [min]. *)
Lemma generateRandomNumber_empty_range (min : Z) (w w' : W) (z : Z) :
  Test.generateRandomNumber Math_random min (min - 1) w = Some (z, w') ->
  z = min.
Proof.
  intros H. unfold Test.generateRandomNumber in H.
  apply bind_Some in H. destruct H as (u & w1 & Hu & H).
  apply ret_Some in H. destruct H as [<- _].
  replace (min - 1 - min + 1)%Z with 0%Z by lia.
  rewrite Rmult_0_r.
  rewrite <- (Int_part_spec 0 0%Z); [lia |]. lra.
Qed.

Lemma redraw_inv (fuel : nat) (min max one : Z) :
  (min <= max)%Z ->
  forall two w w' z,
    (min <= two <= max)%Z ->
    Test.redraw Math_random fuel min max one two w = Some (z, w') ->
    z <> one /\ (min <= z <= max)%Z.
Proof.
  intros Hle. induction fuel as [| fuel IH]; intros two w w' z Htwo H;
    simpl in H; destruct (Z.eqb_spec one two) as [E | E]; try discriminate.
  - apply ret_Some in H. destruct H as [<- _]. split; [congruence | exact Htwo].
  - apply bind_Some in H. destruct H as (again & w1 & Hagain & H).
    apply generateRandomNumber_bounds in Hagain; [| exact Hle].
    exact (IH again w1 w' z Hagain H).
  - apply ret_Some in H. destruct H as [<- _]. split; [congruence | exact Htwo].
Qed.

Lemma generateUniqueRandomNumbers_inv (fuel : nat) (min max : Z)
  (w w' : W) (one two : Z) :
  (min <= max)%Z ->
  Test.generateUniqueRandomNumbers Math_random fuel min max w
  = Some ((one, two), w') ->
  one <> two /\ (min <= one <= max)%Z /\ (min <= two <= max)%Z.
Proof.
  intros Hle H. unfold Test.generateUniqueRandomNumbers in H.
  apply bind_Some in H. destruct H as (a & w1 & Ha & H).
  apply bind_Some in H. destruct H as (b & w2 & Hb & H).
  apply ret_Some in H. destruct H as [H _]. injection H as <- <-.
  apply generateRandomNumber_bounds in Ha; [| exact Hle].
  destruct (redraw_inv fuel min max a Hle a w1 w2 b Ha Hb) as [Hne Hb'].
  split; [congruence |]. split; assumption.
Qed.

End RandomNumbers.

(** ** Exchanging two elements *)

Lemma replaceAt_split {A : Type} (l : list A) :
  forall i x,
    nth_error l i = Some x ->
    exists l1 l2,
      l = l1 ++ x :: l2 /\ length l1 = i /\
      forall a, replaceAt l i a = l1 ++ a :: l2.
Proof.
  induction l as [| y l IH]; intros i x H.
  - destruct i; discriminate.
  - destruct i as [| i]; simpl in H.
    + injection H as ->. exists [], l. repeat split.
    + destruct (IH i x H) as (l1 & l2 & -> & <- & Hr).
      exists (y :: l1), l2. repeat split.
      intros a. simpl. rewrite Hr. reflexivity.
Qed.

Lemma nth_error_replaceAt_other {A : Type} (l : list A) :
  forall i j a, i <> j -> nth_error (replaceAt l i a) j = nth_error l j.
Proof.
  induction l as [| y l IH]; intros i j a Hij; simpl.
  - reflexivity.
  - destruct i as [| i], j as [| j]; simpl; try reflexivity; try lia.
    apply IH. lia.
Qed.

Lemma length_replaceAt {A : Type} (l : list A) :
  forall i a, length (replaceAt l i a) = length l.
Proof.
  induction l as [| y l IH]; intros i a; simpl; [reflexivity |].
  destruct i; simpl; [reflexivity | rewrite IH; reflexivity].
Qed.

(** Replacing a group by another: the elements of the state, with the
    old group put back, are those of the old state with the new group
    added. *)
Lemma concat_replaceAt {A : Type} (l : list (list A)) (g : nat)
  (old new : list A) :
  nth_error l g = Some old ->
  Permutation (old ++ concat (replaceAt l g new)) (new ++ concat l).
Proof.
  intros H. destruct (replaceAt_split l g old H) as (l1 & l2 & -> & _ & Hr).
  rewrite Hr, !concat_app. simpl.
  rewrite (Permutation_app_swap_app old (concat l1)).
  rewrite (Permutation_app_swap_app new (concat l1)).
  apply Permutation_app_head.
  apply Permutation_app_swap_app.
Qed.

Lemma Forall_replaceAt {A : Type} (P : A -> Prop) (l : list A) :
  forall i a, Forall P l -> P a -> Forall P (replaceAt l i a).
Proof.
  induction l as [| y l IH]; intros i a Hl Ha; simpl; [constructor |].
  inversion Hl; subst.
  destruct i; constructor; auto.
Qed.

(** Reading and writing inside a group. *)
Lemma readAt_inside (group : Test.Group) (i : Z) :
  (0 <= i < Z.of_nat (length group))%Z ->
  exists l1 l2,
    group = l1 ++ Test.readAt group i :: l2 /\
    forall e, Test.writeAt group i e = l1 ++ e :: l2.
Proof.
  intros Hi. unfold Test.readAt, Test.writeAt.
  destruct (Z.ltb_spec i 0) as [Hneg | _]; [lia |].
  assert (Hk : (Z.to_nat i < length group)%nat) by lia.
  destruct (nth_error group (Z.to_nat i)) as [e |] eqn:E.
  - destruct (replaceAt_split group _ e E) as (l1 & l2 & Hg & _ & Hr).
    exists l1, l2. split; [exact Hg |].
    intros e'. apply Nat.ltb_lt in Hk. rewrite Hk. apply Hr.
  - apply nth_error_None in E. lia.
Qed.

Lemma readAt_writeAt_inside (group : Test.Group) (i : Z) :
  (0 <= i < Z.of_nat (length group))%Z ->
  nth_error group (Z.to_nat i) = Some (Test.readAt group i) /\
  forall e, Test.writeAt group i e = replaceAt group (Z.to_nat i) e.
Proof.
  intros Hi. unfold Test.readAt, Test.writeAt.
  destruct (Z.ltb_spec i 0) as [Hneg | _]; [lia |].
  assert (Hk : (Z.to_nat i < length group)%nat) by lia.
  split.
  - destruct (nth_error group (Z.to_nat i)) as [e |] eqn:E; [reflexivity |].
    apply nth_error_None in E. lia.
  - intros e. apply Nat.ltb_lt in Hk. rewrite Hk. reflexivity.
Qed.

Lemma nth_error_replaceAt_same {A : Type} (l : list A) :
  forall i a, (i < length l)%nat -> nth_error (replaceAt l i a) i = Some a.
Proof.
  induction l as [| y l IH]; intros i a Hi; simpl in *; [lia |].
  destruct i as [| i]; simpl; [reflexivity |]. apply IH. lia.
Qed.

(** ** What [generateNewState] returns *)

Section NewState.

Context {W : Type}.
Variable Math_random : M W R.
Hypothesis draws_in_range : unitInterval Math_random.

(** On a state with groups, a result is the state with two elements
    exchanged, one of each of two different groups, at places drawn
    within the size of the first group. *)
Lemma generateNewState_inv (fuel : nat) (groups result : Test.Groups)
  (w w' : W) :
  groups <> [] ->
  Test.generateNewState Math_random fuel groups w = Some (result, w') ->
  exists (g1 g2 : nat) (i1 i2 : Z) (group1 group2 : Test.Group),
    g1 <> g2 /\
    nth_error groups g1 = Some group1 /\
    nth_error groups g2 = Some group2 /\
    (0 <= i1 /\ 0 <= i2)%Z /\
    (i1 <= Z.max 0 (Z.of_nat (length (nth 0 groups [])) - 1) /\
     i2 <= Z.max 0 (Z.of_nat (length (nth 0 groups [])) - 1))%Z /\
    result
    = replaceAt
        (replaceAt groups g1 (Test.writeAt group1 i1 (Test.readAt group2 i2)))
        g2 (Test.writeAt group2 i2 (Test.readAt group1 i1)).
Proof.
  intros Hne H. unfold Test.generateNewState in H.
  destruct (Z.eqb_spec (Z.of_nat (length groups)) 0) as [E | E].
  { destruct groups; [congruence | simpl in E; lia]. }
  apply bind_Some in H. destruct H as ([a b] & w1 & Hpair & H).
  apply generateUniqueRandomNumbers_inv in Hpair;
    [| exact draws_in_range | lia].
  destruct Hpair as (Hab & Ha & Hb). simpl in H.
  set (size := Z.of_nat (length (nth 0 groups []))) in *.
  apply bind_Some in H. destruct H as (i1 & w2 & Hi1 & H).
  apply bind_Some in H. destruct H as (i2 & w3 & Hi2 & H).
  assert (Hi : forall i w0 w0',
             Test.generateRandomNumber Math_random 0 (size - 1) w0
             = Some (i, w0') ->
             (0 <= i /\ i <= Z.max 0 (size - 1))%Z).
  { intros i w0 w0' Hgen.
    destruct (Z.eq_dec size 0) as [Hz | Hz].
    - rewrite Hz in Hgen.
      apply (generateRandomNumber_empty_range Math_random 0) in Hgen. lia.
    - apply generateRandomNumber_bounds in Hgen;
        [lia | exact draws_in_range | unfold size; lia]. }
  apply Hi in Hi1, Hi2.
  rewrite copyState_spec in H.
  apply bind_Some in H. destruct H as (group1 & w4 & Hg1 & H).
  apply bind_Some in H. destruct H as (group2 & w5 & Hg2 & H).
  unfold Test.groupAt in Hg1, Hg2.
  destruct (Z.ltb_spec a 0) as [? | _]; [lia |].
  destruct (Z.ltb_spec b 0) as [? | _]; [lia |].
  destruct (nth_error groups (Z.to_nat a)) as [x |] eqn:Ea; [| discriminate].
  destruct (nth_error groups (Z.to_nat b)) as [y |] eqn:Eb; [| discriminate].
  apply ret_Some in Hg1, Hg2. destruct Hg1 as [<- <-]. destruct Hg2 as [<- <-].
  assert (Hnat : Z.to_nat a <> Z.to_nat b) by lia.
  unfold Test.writeElement in H.
  apply bind_Some in H. destruct H as (result1 & w6 & Hw1 & H).
  apply bind_Some in Hw1. destruct Hw1 as (x' & w7 & Hx' & Hw1).
  unfold Test.groupAt in Hx'.
  destruct (Z.ltb_spec a 0) as [? | _]; [lia |].
  rewrite Ea in Hx'.
  apply ret_Some in Hx'. destruct Hx' as [<- <-].
  apply ret_Some in Hw1. destruct Hw1 as [<- <-].
  apply bind_Some in H. destruct H as (y' & w8 & Hy' & H).
  unfold Test.groupAt in Hy'.
  destruct (Z.ltb_spec b 0) as [? | _]; [lia |].
  rewrite nth_error_replaceAt_other, Eb in Hy' by exact Hnat.
  apply ret_Some in Hy'. destruct Hy' as [<- <-].
  apply ret_Some in H. destruct H as [<- _].
  exists (Z.to_nat a), (Z.to_nat b), i1, i2, x, y.
  repeat split; try assumption; try lia.
Qed.

End NewState.

Section Preservation.

Context {W : Type}.
Variable Math_random : M W R.
Hypothesis draws_in_range : unitInterval Math_random.

(** On groups that all have the same positive size a result keeps the
    number of groups, their size and, up to order, the elements. *)
Lemma generateNewState_preserves (size fuel : nat)
  (groups result : Test.Groups) (w w' : W) :
  (0 < size)%nat ->
  Forall (fun group => length group = size) groups ->
  Test.generateNewState Math_random fuel groups w = Some (result, w') ->
  length result = length groups /\
  Forall (fun group => length group = size) result /\
  Permutation (concat result) (concat groups).
Proof.
  intros Hsize Hall H.
  destruct groups as [| g0 rest] eqn:Egroups.
  { injection H as <- _. repeat split; [assumption | apply Permutation_refl]. }
  rewrite <- Egroups in *.
  assert (Hne : groups <> []) by (rewrite Egroups; discriminate).
  destruct (generateNewState_inv Math_random draws_in_range fuel groups result
              w w' Hne H)
    as (g1 & g2 & i1 & i2 & group1 & group2 & Hg & H1 & H2 & Hlo & Hhi & ->).
  assert (H0 : length (nth 0 groups []) = size).
  { rewrite Egroups. simpl. rewrite Egroups in Hall.
    exact (Forall_inv Hall). }
  rewrite H0 in Hhi.
  assert (L1 : length group1 = size).
  { rewrite Forall_forall in Hall. apply Hall. eapply nth_error_In. exact H1. }
  assert (L2 : length group2 = size).
  { rewrite Forall_forall in Hall. apply Hall. eapply nth_error_In. exact H2. }
  destruct (readAt_inside group1 i1) as (x1 & x2 & E1 & W1); [lia |].
  destruct (readAt_inside group2 i2) as (y1 & y2 & E2 & W2); [lia |].
  rewrite W1, W2.
  set (p := Test.readAt group1 i1) in *.
  set (q := Test.readAt group2 i2) in *.
  assert (L1' : length (x1 ++ q :: x2) = size).
  { rewrite <- L1, E1, !length_app. reflexivity. }
  assert (L2' : length (y1 ++ p :: y2) = size).
  { rewrite <- L2, E2, !length_app. reflexivity. }
  split; [rewrite !length_replaceAt; reflexivity |].
  split; [apply Forall_replaceAt; [apply Forall_replaceAt |]; assumption |].
  assert (H2' : nth_error (replaceAt groups g1 (x1 ++ q :: x2)) g2
                = Some group2)
    by (rewrite nth_error_replaceAt_other; assumption).
  pose proof (concat_replaceAt _ g2 group2 (y1 ++ p :: y2) H2') as P2.
  pose proof (concat_replaceAt groups g1 group1 (x1 ++ q :: x2) H1) as P1.
  apply (Permutation_app_inv_l (group1 ++ group2)).
  rewrite <- app_assoc.
  rewrite (Permutation_app_head group1 P2).
  rewrite (Permutation_app_swap_app group1 (y1 ++ p :: y2)).
  rewrite (Permutation_app_head (y1 ++ p :: y2) P1).
  rewrite !app_assoc. apply Permutation_app_tail.
  rewrite E1, E2.
  rewrite <- !app_assoc. simpl.
  repeat rewrite <- Permutation_middle.
  do 2 apply perm_skip.
  rewrite (app_assoc y1 y2 (x1 ++ x2)), (app_assoc x1 x2 (y1 ++ y2)).
  apply Permutation_app_comm.
Qed.


End Preservation.

(** X10. [generateNewState] of the test-suite makes one exchange and
    keeps the shape and the elements of a state whose groups all have the
    same positive size: when it returns, the result has as many groups,
    each of that size, its elements are the elements of the state in
    another order, and on a state with groups it is the state with one
    element of a group exchanged with one element of a different
    group. *)
Theorem generateNewState_keeps_shape_and_elements {W : Type}
  (Math_random : M W R) (size fuel : nat) (groups result : Test.Groups)
  (w w' : W) :
  unitInterval Math_random ->
  (0 < size)%nat ->
  Forall (fun group => length group = size) groups ->
  Test.generateNewState Math_random fuel groups w = Some (result, w') ->
  length result = length groups /\
  Forall (fun group => length group = size) result /\
  Permutation (concat result) (concat groups) /\
  (groups <> [] ->
   exists g1 g2 i1 i2 group1 group2 p q,
     g1 <> g2 /\
     nth_error groups g1 = Some group1 /\
     nth_error groups g2 = Some group2 /\
     nth_error group1 i1 = Some p /\
     nth_error group2 i2 = Some q /\
     result = replaceAt (replaceAt groups g1 (replaceAt group1 i1 q))
                g2 (replaceAt group2 i2 p)).
Proof.
  intros Hrange Hsize Hall H.
  destruct (generateNewState_preserves Math_random Hrange size fuel groups
              result w w' Hsize Hall H) as (Hlen & Hsz & Hperm).
  split; [exact Hlen |]. split; [exact Hsz |]. split; [exact Hperm |].
  intros Hne.
  destruct (generateNewState_inv Math_random Hrange fuel groups result
              w w' Hne H)
    as (g1 & g2 & i1 & i2 & group1 & group2 & Hg & H1 & H2 & Hlo & Hhi & ->).
  assert (H0 : length (nth 0 groups []) = size).
  { destruct groups as [| g0 rest]; [congruence |]. simpl.
    exact (Forall_inv Hall). }
  rewrite H0 in Hhi.
  assert (L1 : length group1 = size).
  { rewrite Forall_forall in Hall. apply Hall. eapply nth_error_In. exact H1. }
  assert (L2 : length group2 = size).
  { rewrite Forall_forall in Hall. apply Hall. eapply nth_error_In. exact H2. }
  destruct (readAt_writeAt_inside group1 i1) as [R1 W1]; [lia |].
  destruct (readAt_writeAt_inside group2 i2) as [R2 W2]; [lia |].
  exists g1, g2, (Z.to_nat i1), (Z.to_nat i2), group1, group2,
    (Test.readAt group1 i1), (Test.readAt group2 i2).
  rewrite W1, W2. repeat split; assumption.
Qed.

(** X11. Run with the strategies of the test-suite on a state whose groups
    all have the same positive size, the engine returns a regrouping of
    the same elements: as many groups, each of that size, holding the
    elements of the initial state in another order, whatever the cost
    function and the settings are. *)
Theorem run_returns_a_regrouping {W : Type} (Math_random : M W R)
  (size fuel strategyFuel : nat) (cost : Test.Groups -> R)
  (groups result : Test.Groups) (opts : option SimulatedAnnealingOptions)
  (w w' : W) :
  unitInterval Math_random ->
  (0 < size)%nat ->
  Forall (fun group => length group = size) groups ->
  runSimulatedAnnealing Math_random
    (fixtureArgs Math_random strategyFuel cost groups opts) fuel w
  = Some (result, w') ->
  length result = length groups /\
  Forall (fun group => length group = size) result /\
  Permutation (concat result) (concat groups).
Proof.
  intros Hrange Hsize Hall H.
  set (args := fixtureArgs Math_random strategyFuel cost groups opts) in *.
  set (good := fun state : Test.Groups =>
                 length state = length groups /\
                 Forall (fun group => length group = size) state /\
                 Permutation (concat state) (concat groups)).
  apply runSimulatedAnnealing_inv in H. destruct H as (s & tr & H & ->).
  apply runTrace_inv in H. destruct H as (s0 & w0 & Hinit & H).
  assert (Hstart : good (currentState s0) /\ good (bestState s0)).
  { apply initialise_inv in Hinit.
    destruct Hinit as (w1 & w2 & w3 & H1 & _ & H3 & _).
    simpl in H1, H3.
    apply ret_Some in H1, H3. destruct H1 as [<- _]. destruct H3 as [<- _].
    rewrite copyState_spec.
    split; (split; [reflexivity | split; [exact Hall | apply Permutation_refl]]). }
  apply (whileLoop_invariant Math_random args
           (fun _ s _ => good (currentState s) /\ good (bestState s)))
    with (hist := []) in H.
  - exact (proj2 H).
  - intros hist s1 w1 snap w2 [Hc Hb] Hswap.
    assert (Hn : good (neighbor snap)).
    { pose proof Hswap as Hgen. apply swap_inv in Hgen.
      destruct Hgen as (w3 & w4 & Hgen & _). simpl in Hgen.
      destruct Hc as (Hlen & Hsz & Hperm).
      destruct (generateNewState_preserves Math_random Hrange size strategyFuel
                  _ _ _ _ Hsize Hsz Hgen) as (Hlen' & Hsz' & Hperm').
      split; [congruence |]. split; [exact Hsz' |].
      eapply Permutation_trans; eassumption. }
    split.
    + destruct (swap_current Math_random args s1 w1 w2 snap Hswap)
        as [Hyes Hno].
      destruct (accepted snap).
      * destruct (Hyes eq_refl) as [-> _]. exact Hn.
      * destruct (Hno eq_refl) as [-> _]. exact Hc.
    + destruct (swap_best Math_random args s1 w1 w2 snap Hswap)
        as [(_ & -> & _) | (_ & -> & _)]; assumption.
  - intros hist s1 w1 f HP. exact HP.
  - exact Hstart.
Qed.

(** ** A source of randomness that repeats itself *)

Section ConstantDraws.

Context {W : Type}.
Variable Math_random : M W R.
Variable u : R.
Hypothesis same_draw : forall w r w', Math_random w = Some (r, w') -> r = u.

Lemma generateRandomNumber_constant (min max : Z) (w w' : W) (z : Z) :
  Test.generateRandomNumber Math_random min max w = Some (z, w') ->
  z = (Int_part (u * IZR (max - min + 1)) + min)%Z.
Proof.
  intros H. unfold Test.generateRandomNumber in H.
  apply bind_Some in H. destruct H as (r & w1 & Hr & H).
  apply ret_Some in H. destruct H as [<- _].
  apply same_draw in Hr. subst r. reflexivity.
Qed.

Lemma redraw_constant (fuel : nat) (min max : Z) :
  forall w,
    Test.redraw Math_random fuel min max
      (Int_part (u * IZR (max - min + 1)) + min)%Z
      (Int_part (u * IZR (max - min + 1)) + min)%Z w
    = None.
Proof.
  induction fuel as [| fuel IH]; intros w; simpl;
    rewrite Z.eqb_refl; [reflexivity |].
  unfold bind.
  destruct (Test.generateRandomNumber Math_random min max w)
    as [[z w1] |] eqn:E; [| reflexivity].
  apply generateRandomNumber_constant in E. subst z. apply IH.
Qed.

End ConstantDraws.

(** X12. With a source of randomness that returns the same number at
    every draw (a stubbed [Math.random]), [generateUniqueRandomNumbers]
    never returns, whatever the bounds, and so [generateNewState] never
    returns on a state that has groups. *)
Theorem constant_draws_never_give_two_numbers {W : Type}
  (Math_random : M W R) (u : R) (fuel : nat) (min max : Z)
  (groups : Test.Groups) (w : W) :
  (forall w r w', Math_random w = Some (r, w') -> r = u) ->
  Test.generateUniqueRandomNumbers Math_random fuel min max w = None /\
  (groups <> [] -> Test.generateNewState Math_random fuel groups w = None).
Proof.
  intros Hsame.
  assert (Hpair : forall lo hi w0,
             Test.generateUniqueRandomNumbers Math_random fuel lo hi w0 = None).
  { intros lo hi w0. unfold Test.generateUniqueRandomNumbers, bind.
    destruct (Test.generateRandomNumber Math_random lo hi w0)
      as [[z w1] |] eqn:E; [| reflexivity].
    apply (generateRandomNumber_constant Math_random u Hsame) in E. subst z.
    rewrite (redraw_constant Math_random u Hsame). reflexivity. }
  split; [apply Hpair |].
  intros Hne. unfold Test.generateNewState.
  destruct (Z.eqb_spec (Z.of_nat (length groups)) 0) as [E | E].
  - destruct groups; [congruence | simpl in E; lia].
  - apply bind_None. apply Hpair.
Qed.

(** ** Groups of size 0 *)

(** X13. On a state of empty groups [generateNewState] does not leave the
    state as it is: when it returns, the result has as many groups, and
    two of them now hold one [undefined] element each. *)
Theorem generateNewState_fills_empty_groups {W : Type}
  (Math_random : M W R) (fuel : nat) (groups result : Test.Groups)
  (w w' : W) :
  unitInterval Math_random ->
  groups <> [] ->
  Forall (fun group => group = []) groups ->
  Test.generateNewState Math_random fuel groups w = Some (result, w') ->
  length result = length groups /\
  exists g1 g2,
    g1 <> g2 /\ (g1 < length groups)%nat /\ (g2 < length groups)%nat /\
    result = replaceAt (replaceAt groups g1 [None]) g2 [None] /\
    nth_error result g1 = Some [None] /\
    nth_error result g2 = Some [None].
Proof.
  intros Hrange Hne Hall H.
  destruct (generateNewState_inv Math_random Hrange fuel groups result
              w w' Hne H)
    as (g1 & g2 & i1 & i2 & group1 & group2 & Hg & H1 & H2 & Hlo & Hhi & ->).
  assert (H0 : length (nth 0 groups []) = 0%nat).
  { destruct groups as [| g0 rest]; [congruence |]. simpl.
    rewrite (Forall_inv Hall). reflexivity. }
  rewrite H0 in Hhi.
  assert (E1 : group1 = []).
  { rewrite Forall_forall in Hall. apply Hall. eapply nth_error_In. exact H1. }
  assert (E2 : group2 = []).
  { rewrite Forall_forall in Hall. apply Hall. eapply nth_error_In. exact H2. }
  assert (Hi1 : i1 = 0%Z) by lia. assert (Hi2 : i2 = 0%Z) by lia.
  subst group1 group2 i1 i2.
  change (Test.writeAt [] 0 (Test.readAt [] 0)) with ([None] : Test.Group).
  split; [rewrite !length_replaceAt; reflexivity |].
  exists g1, g2.
  assert (L1 : (g1 < length groups)%nat)
    by (apply nth_error_Some; rewrite H1; discriminate).
  assert (L2 : (g2 < length groups)%nat)
    by (apply nth_error_Some; rewrite H2; discriminate).
  split; [exact Hg |]. split; [exact L1 |]. split; [exact L2 |].
  split; [reflexivity |]. split.
  - rewrite nth_error_replaceAt_other by congruence.
    apply nth_error_replaceAt_same. exact L1.
  - apply nth_error_replaceAt_same. rewrite length_replaceAt. exact L2.
Qed.

(** ** The cost function of the test-suite *)

Lemma Reqb_true (x y : R) : x = y -> Reqb x y = true.
Proof. intros H. unfold Reqb. destruct (Req_dec_T x y); [reflexivity | contradiction]. Qed.

Lemma Reqb_false (x y : R) : x <> y -> Reqb x y = false.
Proof. intros H. unfold Reqb. destruct (Req_dec_T x y); [contradiction | reflexivity]. Qed.

(** Settles the comparisons of keys with a number in the goal. *)
Ltac decide_keys :=
  repeat match goal with
         | |- context [Reqb ?x ?y] =>
             first [ rewrite (Reqb_true x y) by lra
                   | rewrite (Reqb_false x y) by lra ]
         end.

Lemma known_cases (k : Z) :
  known k ->
  k = 1%Z \/ k = 2%Z \/ k = 3%Z \/ k = 4%Z \/
  k = 5%Z \/ k = 6%Z \/ k = 7%Z \/ k = 8%Z.
Proof. unfold known. lia. Qed.

(** Between two known numbers the table gives 2 when they have the same
    parity and 0 otherwise. *)
Lemma addPreference_known (q : R) (a b : Z) :
  known a -> known b ->
  Test.addPreference (Some q) (person a) (person b)
  = Some (Some (q + (if Bool.eqb (Z.even a) (Z.even b) then 2 else 0))).
Proof.
  intros Ha Hb. unfold Test.addPreference, person.
  apply known_cases in Ha, Hb.
  destruct Ha as [-> | [-> | [-> | [-> | [-> | [-> | [-> | ->]]]]]]];
    destruct Hb as [-> | [-> | [-> | [-> | [-> | [-> | [-> | ->]]]]]]];
    cbn -[Reqb]; decide_keys; cbn -[Reqb]; decide_keys; reflexivity.
Qed.

Lemma scoreAgainst_known (a : Z) (rest : list Z) :
  known a -> Forall known rest ->
  forall q,
    Test.scoreAgainst (Some q) (person a) (map person rest)
    = Some (Some (q + 2 * INR (length (filter
                                          (fun b => Bool.eqb (Z.even a) (Z.even b))
                                          rest)))).
Proof.
  intros Ha Hrest. induction Hrest as [| b rest Hb _ IH]; intros q.
  - simpl. do 2 f_equal. ring.
  - cbn [map Test.scoreAgainst].
    rewrite (addPreference_known q a b Ha Hb), IH.
    cbn [filter]. destruct (Bool.eqb (Z.even a) (Z.even b)).
    + cbn [length]. rewrite S_INR. do 2 f_equal. ring.
    + do 2 f_equal. ring.
Qed.

Lemma groupQualityScore_known (group : list Z) :
  Forall known group ->
  forall q,
    Test.groupQualityScore (Some q) (map person group)
    = Some (Some (q + 2 * INR (samePairs group))).
Proof.
  induction 1 as [| a rest Ha Hrest IH]; intros q.
  - simpl. do 2 f_equal. ring.
  - cbn [map Test.groupQualityScore samePairs].
    rewrite (scoreAgainst_known a rest Ha Hrest), IH, plus_INR.
    do 2 f_equal. ring.
Qed.

Lemma groupTerm_known (n : nat) :
  Test.groupTerm (Some (0 + 2 * INR n))
  = Some (if (n =? 0)%nat then 0 else ln (2 * INR n)).
Proof.
  unfold Test.groupTerm. rewrite Rplus_0_l.
  destruct n as [| n].
  - simpl. rewrite Reqb_true by lra. reflexivity.
  - assert (H : 0 < 2 * INR (S n))
      by (rewrite S_INR; pose proof (pos_INR n); lra).
    rewrite Reqb_false by lra.
    unfold Test.Math_log. rewrite Rltb_true by exact H. reflexivity.
Qed.

Lemma groupCost_nonneg (group : list Z) : 0 <= groupCost group.
Proof.
  unfold groupCost. destruct (samePairs group) as [| n]; simpl (_ =? _)%nat.
  - lra.
  - rewrite <- ln_1.
    assert (H : 1 <= INR (S n)) by (rewrite S_INR; pose proof (pos_INR n); lra).
    destruct (Req_dec 1 (2 * INR (S n))) as [E | E]; [lra |].
    left. apply ln_increasing; lra.
Qed.

Lemma getCost_fold_known (state : list (list Z)) :
  Forall (Forall known) state ->
  forall acc,
    fold_left
      (fun accumulator group =>
         match accumulator with
         | None => None
         | Some acc =>
             match Test.groupQualityScore (Some 0) group with
             | None => None
             | Some score => Some (Test.minus acc (Test.groupTerm score))
             end
         end)
      (map (map person) state) (Some (Some acc))
    = Some (Some (fold_left (fun accumulator group => accumulator - groupCost group)
                    state acc)).
Proof.
  induction 1 as [| group state Hg _ IH]; intros acc.
  - reflexivity.
  - cbn [map fold_left].
    rewrite (groupQualityScore_known group Hg), groupTerm_known.
    cbn [Test.minus]. rewrite IH. reflexivity.
Qed.

Lemma costOfPeople_fold (state : list (list Z)) :
  forall acc,
    fold_left (fun accumulator group => accumulator - groupCost group) state acc
    <= acc.
Proof.
  induction state as [| group state IH]; intros acc; simpl; [lra |].
  apply Rle_trans with (acc - groupCost group); [apply IH |].
  pose proof (groupCost_nonneg group). lra.
Qed.

(** X14. On a state of the numbers 1 to 8 [getCost] neither throws nor
    gives NaN: every group contributes minus the logarithm of twice the
    number of its pairs of the same parity (nothing when it has no such
    pair), so the cost is at most 0. *)
Theorem getCost_counts_pairs_of_same_parity (state : list (list Z)) :
  Forall (Forall known) state ->
  Test.getCost (map (map person) state) = Some (Some (costOfPeople state)) /\
  costOfPeople state <= 0.
Proof.
  intros Hstate. split.
  - unfold Test.getCost, costOfPeople. apply getCost_fold_known. exact Hstate.
  - unfold costOfPeople. apply costOfPeople_fold.
Qed.

(** A stranger has no row and no value in the table. *)
Lemma property_stranger {A : Type} (object : list (R * A)) (e : Test.Element) :
  Forall (fun entry => exists k, known k /\ fst entry = IZR k) object ->
  stranger e ->
  Test.property object e = None.
Proof.
  intros Hkeys He. induction Hkeys as [| [k v] rest (z & Hz & Ek) _ IH].
  - destruct e; reflexivity.
  - simpl in Ek. subst k. destruct e as [x |]; [| reflexivity].
    cbn [Test.property]. rewrite Reqb_false; [exact IH |].
    intros E. apply (He z Hz). unfold person. congruence.
Qed.

(** Every key of the list is one of the numbers 1 to 8. *)
Ltac known_keys :=
  repeat (apply Forall_cons;
          [eexists; split; [| reflexivity]; unfold known; lia |]);
  apply Forall_nil.

Lemma preferences_keys :
  Forall (fun entry => exists k, known k /\ fst entry = IZR k)
    Test.preferences.
Proof. unfold Test.preferences. known_keys. Qed.

Lemma row_of_known (a : Z) :
  known a ->
  exists row,
    Test.property Test.preferences (person a) = Some row /\
    Forall (fun entry => exists k, known k /\ fst entry = IZR k) row.
Proof.
  intros Ha. apply known_cases in Ha. unfold person, known.
  destruct Ha as [-> | [-> | [-> | [-> | [-> | [-> | [-> | ->]]]]]]];
    cbn -[Reqb]; decide_keys; eexists; (split; [reflexivity |]);
    known_keys.
Qed.

(** A stranger followed by another element: the row is [undefined] and
    reading from it throws. *)
Lemma scoreAgainst_stranger (score : option R) (e b : Test.Element)
  (rest : Test.Group) :
  stranger e -> Test.scoreAgainst score e (b :: rest) = None.
Proof.
  intros He. cbn [Test.scoreAgainst]. unfold Test.addPreference.
  rewrite (property_stranger _ e preferences_keys He). reflexivity.
Qed.

Lemma groupQualityScore_stranger (pre : Test.Group) (e b : Test.Element)
  (rest : Test.Group) :
  stranger e ->
  forall score,
    Test.groupQualityScore score (pre ++ e :: b :: rest) = None.
Proof.
  intros He. induction pre as [| a pre IH]; intros score.
  - cbn [app Test.groupQualityScore].
    rewrite scoreAgainst_stranger by exact He. reflexivity.
  - cbn [app Test.groupQualityScore].
    destruct (Test.scoreAgainst score a (pre ++ e :: b :: rest));
      [apply IH | reflexivity].
Qed.

Lemma getCost_fold_thrown (state : Test.Groups) :
  fold_left
    (fun accumulator group =>
       match accumulator with
       | None => None
       | Some acc =>
           match Test.groupQualityScore (Some 0) group with
           | None => None
           | Some score => Some (Test.minus acc (Test.groupTerm score))
           end
       end)
    state None
  = None.
Proof. induction state as [| g state IH]; [reflexivity | exact IH]. Qed.

(** X15. [getCost] throws on a state that has, anywhere in a group but at
    its end, an element the table has no row for ([undefined], or a
    number that is not one of 1 to 8): the row read is [undefined], and a
    value is read from it as soon as an element follows. *)
Theorem getCost_throws_on_a_stranger_before_the_end (state : Test.Groups)
  (pre : Test.Group) (e b : Test.Element) (rest : Test.Group) :
  stranger e ->
  In (pre ++ e :: b :: rest) state ->
  Test.getCost state = None.
Proof.
  intros He Hin. apply in_split in Hin. destruct Hin as (s1 & s2 & ->).
  unfold Test.getCost. rewrite fold_left_app. cbn [fold_left].
  match goal with
  | |- fold_left _ s2 ?start = None =>
      assert (E : start = None); [| rewrite E; apply getCost_fold_thrown]
  end.
  destruct (fold_left _ s1 (Some (Some 0))); [| reflexivity].
  rewrite groupQualityScore_stranger by exact He. reflexivity.
Qed.

(** With NaN for a score, a known number against any elements. *)
Lemma scoreAgainst_NaN (a : Z) (rest : Test.Group) :
  known a -> Test.scoreAgainst None (person a) rest = Some None.
Proof.
  intros Ha. destruct (row_of_known a Ha) as (row & Hrow & _).
  induction rest as [| b rest IH]; [reflexivity |].
  cbn [Test.scoreAgainst]. unfold Test.addPreference.
  rewrite Hrow. exact IH.
Qed.

Lemma scoreAgainst_stranger_last (a : Z) (rest : list Z) (e : Test.Element) :
  known a -> Forall known rest -> stranger e ->
  forall score,
    Test.scoreAgainst score (person a) (map person rest ++ [e])
    = Some None.
Proof.
  intros Ha Hrest He.
  destruct (row_of_known a Ha) as (row & Hrow & Hkeys).
  induction Hrest as [| b rest Hb _ IH]; intros score.
  - cbn [map app Test.scoreAgainst]. unfold Test.addPreference.
    rewrite Hrow, (property_stranger row e Hkeys He).
    destruct score; reflexivity.
  - cbn [map app Test.scoreAgainst].
    destruct score as [q |].
    + rewrite (addPreference_known q a b Ha Hb). apply IH.
    + unfold Test.addPreference. rewrite Hrow. apply IH.
Qed.

Lemma groupQualityScore_stranger_last (group : list Z) (e : Test.Element) :
  Forall known group -> stranger e ->
  forall score,
    Test.groupQualityScore score (map person group ++ [e])
    = Some (match group with [] => score | _ :: _ => None end).
Proof.
  intros Hgroup He. induction Hgroup as [| a rest Ha Hrest IH]; intros score.
  - reflexivity.
  - cbn [map app Test.groupQualityScore].
    rewrite (scoreAgainst_stranger_last a rest e Ha Hrest He), IH.
    destruct rest; reflexivity.
Qed.

(** X16. At the end of a group of the numbers 1 to 8 a stranger does not
    make [getCost] throw: it turns the score of the group into NaN, which
    counts as 0, so the state costs what it costs without that group,
    whatever pairs the group holds. *)
Theorem getCost_ignores_a_group_that_ends_with_a_stranger
  (before after : list (list Z)) (group : list Z) (e : Test.Element) :
  Forall (Forall known) before ->
  Forall (Forall known) after ->
  Forall known group ->
  stranger e ->
  Test.getCost
    (map (map person) before ++ (map person group ++ [e])
       :: map (map person) after)
  = Some (Some (costOfPeople (before ++ after))).
Proof.
  intros Hbefore Hafter Hgroup He.
  unfold Test.getCost, costOfPeople.
  rewrite fold_left_app, (getCost_fold_known before Hbefore).
  cbn [fold_left].
  rewrite (groupQualityScore_stranger_last group e Hgroup He).
  assert (Hterm : Test.groupTerm
                    (match group with [] => Some 0 | _ :: _ => None end)
                  = Some 0).
  { destruct group; [| reflexivity].
    unfold Test.groupTerm. rewrite Reqb_true by reflexivity. reflexivity. }
  rewrite Hterm. cbn [Test.minus]. rewrite Rminus_0_r.
  rewrite (getCost_fold_known after Hafter), fold_left_app. reflexivity.
Qed.

(** ** The random numbers, as a user sees them *)

(** X17. With draws in [0, 1), [generateRandomNumber(min, max)] returns an
    integer from [min] to [max] when [min <= max], and [min] itself when
    the range is empty ([max = min - 1], as for a group of size 0);
    [generateUniqueRandomNumbers(min, max)], when it returns, returns two
    different integers from [min] to [max]. *)
Theorem random_numbers_stay_in_range {W : Type} (Math_random : M W R)
  (fuel : nat) (min max : Z) (w : W) :
  unitInterval Math_random ->
  (forall z w',
      (min <= max)%Z ->
      Test.generateRandomNumber Math_random min max w = Some (z, w') ->
      (min <= z <= max)%Z) /\
  (forall z w',
      Test.generateRandomNumber Math_random min (min - 1) w = Some (z, w') ->
      z = min) /\
  (forall one two w',
      (min <= max)%Z ->
      Test.generateUniqueRandomNumbers Math_random fuel min max w
      = Some ((one, two), w') ->
      one <> two /\ (min <= one <= max)%Z /\ (min <= two <= max)%Z).
Proof.
  intros Hrange. split; [| split].
  - intros z w' Hle H.
    exact (generateRandomNumber_bounds Math_random Hrange min max w w' z Hle H).
  - intros z w' H.
    exact (generateRandomNumber_empty_range Math_random min w w' z H).
  - intros one two w' Hle H.
    exact (generateUniqueRandomNumbers_inv Math_random Hrange fuel min max
             w w' one two Hle H).
Qed.

(** ** The optimum of the cost function *)

Lemma samePairs_bound (group : list Z) :
  (2 * samePairs group <= length group * (length group - 1))%nat.
Proof.
  induction group as [| a rest IH]; simpl; [lia |].
  pose proof (filter_length_le
                (fun b => Bool.eqb (Z.even a) (Z.even b)) rest) as Hf.
  rewrite Nat.sub_0_r. nia.
Qed.

Lemma samePairs_oneParity (group : list Z) :
  oneParity group ->
  (2 * samePairs group = length group * (length group - 1))%nat.
Proof.
  intros (parity & Hall).
  induction Hall as [| a rest Ha Hrest IH]; cbn [samePairs length];
    [reflexivity |].
  assert (Hf : filter (fun b => Bool.eqb (Z.even a) (Z.even b)) rest = rest).
  { clear IH. induction Hrest as [| b rest Hb _ IH]; simpl; [reflexivity |].
    rewrite IH, Ha, Hb, Bool.eqb_reflx. reflexivity. }
  rewrite Hf. nia.
Qed.

(** No group of [size] known numbers, [size] at least 2, contributes more
    than [log(size * (size - 1))], and a group of one parity contributes
    that. *)
Lemma groupCost_bound (size : nat) (group : list Z) :
  (2 <= size)%nat ->
  length group = size ->
  groupCost group <= ln (INR (size * (size - 1))) /\
  (oneParity group -> groupCost group = ln (INR (size * (size - 1)))).
Proof.
  intros Hsize Hlen.
  pose proof (samePairs_bound group) as Hb. rewrite Hlen in Hb.
  assert (Hpos : 1 <= INR (size * (size - 1))).
  { change 1 with (INR 1). apply le_INR. nia. }
  assert (Hln : 0 <= ln (INR (size * (size - 1)))).
  { rewrite <- ln_1. destruct Hpos as [Hlt | <-]; [| lra].
    left. apply ln_increasing; lra. }
  assert (Htwice : 2 * INR (samePairs group) = INR (2 * samePairs group))
    by (rewrite mult_INR; reflexivity).
  split.
  - unfold groupCost. destruct (samePairs group) as [| n] eqn:E;
      simpl (_ =? _)%nat; [exact Hln |].
    rewrite Htwice.
    apply le_INR in Hb.
    assert (H0 : 0 < INR (2 * S n)) by (apply lt_0_INR; lia).
    destruct Hb as [Hlt | Heq]; [| rewrite Heq; lra].
    left. apply ln_increasing; assumption.
  - intros Hone. apply samePairs_oneParity in Hone. rewrite Hlen in Hone.
    unfold groupCost. destruct (samePairs group) as [| n] eqn:E.
    + exfalso. nia.
    + simpl (_ =? _)%nat. rewrite Htwice, Hone. reflexivity.
Qed.

Lemma costOfPeople_bound (size : nat) (state : list (list Z)) :
  (2 <= size)%nat ->
  Forall (fun group => length group = size) state ->
  forall acc,
    acc - INR (length state) * ln (INR (size * (size - 1)))
    <= fold_left (fun accumulator group => accumulator - groupCost group)
         state acc /\
    (Forall oneParity state ->
     fold_left (fun accumulator group => accumulator - groupCost group)
       state acc
     = acc - INR (length state) * ln (INR (size * (size - 1)))).
Proof.
  intros Hsize Hall.
  induction Hall as [| group state Hg _ IH]; intros acc.
  - simpl. split; [lra | intros _; lra].
  - cbn [fold_left length]. rewrite S_INR.
    destruct (groupCost_bound size group Hsize Hg) as [Hle Heq].
    destruct (IH (acc - groupCost group)) as [IHle IHeq].
    split; [lra |].
    intros Hone. inversion Hone as [| ? ? H1 H2]; subst.
    rewrite (IHeq H2), (Heq H1). ring.
Qed.

(** X18. Splitting by parity is the best a state can do: on a state of
    groups of [size] numbers from 1 to 8, [size] at least 2, [getCost]
    returns a cost that is at least minus the number of groups times
    [log(size * (size - 1))], and exactly that when every group holds
    numbers of one parity, as the outputs the test-suite expects do. *)
Theorem getCost_is_least_on_a_split_by_parity (size : nat)
  (state : list (list Z)) :
  (2 <= size)%nat ->
  Forall (Forall known) state ->
  Forall (fun group => length group = size) state ->
  exists c,
    Test.getCost (map (map person) state) = Some (Some c) /\
    - INR (length state) * ln (INR (size * (size - 1))) <= c /\
    (Forall oneParity state ->
     c = - INR (length state) * ln (INR (size * (size - 1)))).
Proof.
  intros Hsize Hknown Hall. exists (costOfPeople state).
  split.
  - unfold Test.getCost, costOfPeople. apply getCost_fold_known. exact Hknown.
  - unfold costOfPeople.
    destruct (costOfPeople_bound size state Hsize Hall 0) as [Hle Heq].
    split; [lra |]. intros Hone. rewrite (Heq Hone). ring.
Qed.

(** ** Strict improvement *)

Lemma least_lt_iff (l : list R) :
  forall c, least c l < c <-> exists x, In x l /\ x < c.
Proof.
  induction l as [| y l IH]; intros c; simpl.
  - split; [lra | intros (x & [] & _)].
  - fold (least (Rmin c y) l). split.
    + intros H. destruct (Rlt_le_dec y c) as [Hy | Hy].
      * exists y. split; [left; reflexivity | exact Hy].
      * rewrite Rmin_left in H by exact Hy.
        apply IH in H. destruct H as (x & Hin & Hx).
        exists x. split; [right; exact Hin | exact Hx].
    + intros (x & [-> | Hin] & Hx).
      * apply Rle_lt_trans with (Rmin c x); [apply least_le |].
        rewrite Rmin_right; lra.
      * destruct (Rlt_le_dec y c) as [Hy | Hy].
        -- apply Rle_lt_trans with (Rmin c y); [apply least_le |].
           rewrite Rmin_right; lra.
        -- rewrite Rmin_left by exact Hy. apply IH. exists x. split; assumption.
Qed.

(** X19. Under the caller's contract on [getCost] and [copyState], the
    state returned is strictly cheaper than the initial state exactly
    when some neighbor generated during the run was, accepted or not. *)
Theorem result_improves_iff_a_neighbor_did {W T : Type} (Math_random : M W R)
  (args : SimulatedAnnealingArgs W T) (cost : T -> R)
  (fuel : nat) (w w' : W) (s : RunState T) (tr : Trace W T) :
  pureCost args cost ->
  faithfulCopy args cost ->
  runTrace Math_random args fuel w = Some ((s, tr), w') ->
  (cost (bestState s) < cost (initialState args) <->
   exists snap,
     In snap (swaps tr) /\ cost (neighbor snap) < cost (initialState args)).
Proof.
  intros Hcost Hcopy H.
  destruct (runTrace_least Math_random args cost Hcost Hcopy fuel w w' s tr H)
    as [-> _].
  rewrite least_lt_iff. split.
  - intros (x & Hin & Hx). apply in_map_iff in Hin.
    destruct Hin as (snap & <- & Hin). exists snap. split; assumption.
  - intros (snap & Hin & Hx). exists (cost (neighbor snap)).
    split; [| exact Hx].
    apply (in_map (fun snap => cost (neighbor snap))). exact Hin.
Qed.

(** ** Further runs of the examples *)

Lemma alternatingDraw_unitInterval : unitInterval alternatingDraw.
Proof.
  intros n u n' H. unfold alternatingDraw in H. injection H as <- _.
  destruct (Nat.even n); lra.
Qed.

(** Between 0 and 1 the alternating draws give 0 and 1 in turn. *)
Lemma alternatingDraw_of_two (n : nat) :
  Test.generateRandomNumber alternatingDraw 0 1 n
  = Some ((if Nat.even n then 0 else 1)%Z, S n).
Proof.
  unfold Test.generateRandomNumber, alternatingDraw, bind, ret.
  destruct (Nat.even n); do 2 f_equal.
  - rewrite <- (Int_part_spec (1 / 4 * IZR (1 - 0 + 1)) 0%Z);
      [reflexivity | simpl; lra].
  - rewrite <- (Int_part_spec (3 / 4 * IZR (1 - 0 + 1)) 1%Z);
      [reflexivity | simpl; lra].
Qed.

Lemma alternatingDraw_of_none (n : nat) :
  Test.generateRandomNumber alternatingDraw 0 (-1) n = Some (0%Z, S n).
Proof.
  unfold Test.generateRandomNumber, alternatingDraw, bind, ret.
  do 2 f_equal.
  rewrite <- (Int_part_spec
                ((if Nat.even n then 1 / 4 else 3 / 4) * IZR (-1 - 0 + 1)) 0%Z);
    [reflexivity |].
  simpl. lra.
Qed.

(** From [[1, 4], [2, 3]] the alternating draws exchange the 1 and the
    3. *)
Lemma exchange_run (state : Test.Groups) :
  state = [[Some 1; Some 4]; [Some 2; Some 3]] ->
  Test.generateNewState alternatingDraw 5 state 0%nat
  = Some ([[Some 3; Some 4]; [Some 2; Some 1]], 4%nat).
Proof.
  intros ->. unfold Test.generateNewState, Test.generateUniqueRandomNumbers.
  cbn -[Test.generateRandomNumber Test.redraw].
  repeat (unfold bind; cbn -[Test.generateRandomNumber];
          rewrite ?alternatingDraw_of_two).
  reflexivity.
Qed.

Lemma fill_run (state : Test.Groups) :
  state = [[]; []] ->
  Test.generateNewState alternatingDraw 5 state 0%nat
  = Some ([[None]; [None]], 4%nat).
Proof.
  intros ->. unfold Test.generateNewState, Test.generateUniqueRandomNumbers.
  cbn -[Test.generateRandomNumber Test.redraw].
  repeat (unfold bind; cbn -[Test.generateRandomNumber];
          rewrite ?alternatingDraw_of_two, ?alternatingDraw_of_none).
  reflexivity.
Qed.

(** One pass of the engine on [[1, 4], [2, 3]]: the exchange is cheaper
    by [firstElementCost] and is returned. *)
Lemma regrouping_run :
  runSimulatedAnnealing alternatingDraw
    (fixtureArgs alternatingDraw 5 firstElementCost
       [[Some 1; Some 4]; [Some 2; Some 3]] (Some onePass))
    1 0%nat
  = Some ([[Some 3; Some 4]; [Some 2; Some 1]], 4%nat).
Proof.
  unfold runSimulatedAnnealing, runTrace, initialise, theInitialTemperature,
    theCoolingFactor, theMinimumTemperature, theSwapsPerTemperature, settings.
  cbn -[Rltb exp Test.generateNewState].
  unfold bind at 1. cbn -[Rltb exp Test.generateNewState].
  unfold Rgtb. decide_lt.
  unfold swap. cbn -[Rltb exp Test.generateNewState].
  unfold bind.
  erewrite exchange_run by reflexivity.
  unfold acceptanceTest, recordBest, acceptNeighbor, cool, ret, observe.
  cbn -[Rltb exp]. decide_lt. cbn -[Rltb exp]. decide_lt.
  cbn -[Rltb exp]. decide_lt. reflexivity.
Qed.

(** The cells once more, with the result of the run. *)
Lemma cells_result :
  exists h',
    runSimulatedAnnealing heapRandom (cellArgs cellNeighbor 0%nat (Some twoSwaps))
      1 oneCell
    = Some (3%nat, h').
Proof.
  destruct cells_run as (s & first & second & h' & H & _ & _ & Hbest & _).
  exists h'. unfold runSimulatedAnnealing, bind. rewrite H. simpl.
  rewrite Hbest. reflexivity.
Qed.

Lemma cells_fresh :
  (forall t, fresh (copyState (cellArgs cellNeighbor 0%nat (Some twoSwaps)) t)) /\
  (forall t,
      fresh (generateNewState (cellArgs cellNeighbor 0%nat (Some twoSwaps)) t)).
Proof.
  assert (H : forall (f : R -> R) (t : Ref),
             fresh (v <- load t ;; allocate (f v))).
  { intros f t h r h' H. apply bind_Some in H.
    destruct H as (v & h1 & Hl & Ha).
    unfold load in Hl. destruct (deref h t); [| discriminate].
    injection Hl as _ <-. exact (allocate_fresh _ _ _ _ Ha). }
  split; intros t; [exact (H (fun v => v) t) | exact (H nudge t)].
Qed.

(** X1 at the cells. *)
Lemma run_keeps_every_object_witness :
  exists h',
    runSimulatedAnnealing heapRandom (cellArgs cellNeighbor 0%nat (Some twoSwaps))
      1 oneCell
    = Some (3%nat, h') /\
    keeps oneCell h' /\
    deref h' 0%nat = Some 5.
Proof.
  destruct cells_result as (h' & H). exists h'. split; [exact H |].
  destruct (run_keeps_every_object heapRandom _ _ _ _ _
              (cells_copyDiscipline 0%nat (Some twoSwaps)) H)
    as (K & Hinit & _).
  split; [exact K |]. apply Hinit. reflexivity.
Defined.

(** X2 at the cells. *)
Lemma returned_state_is_new_witness :
  exists h',
    runSimulatedAnnealing heapRandom (cellArgs cellNeighbor 0%nat (Some twoSwaps))
      1 oneCell
    = Some (3%nat, h') /\
    deref oneCell 3%nat = None.
Proof.
  destruct cells_result as (h' & H). exists h'. split; [exact H |].
  exact (proj1 (returned_state_is_new heapRandom _ _ _ _ _
                  (cells_copyDiscipline 0%nat (Some twoSwaps))
                  (proj1 cells_fresh) (proj2 cells_fresh) H)).
Defined.

(** X3 at the descent from 5 with nothing to cool. *)
Lemma no_pass_when_already_cold_witness :
  runSimulatedAnnealing drawRandom (descentArgs 5 (Some alreadyCold)) 0 halves
  = Some (5, halves).
Proof.
  rewrite (proj2 (no_pass_when_already_cold drawRandom
                    (descentArgs 5 (Some alreadyCold)) 0 halves
                    ltac:(cbn; lra))).
  reflexivity.
Defined.

(** X4 at the descent from 5 with a cooling factor of 1. *)
Lemma no_result_without_cooling_witness :
  runSimulatedAnnealing drawRandom (descentArgs 5 (Some noCooling)) 1000 halves
  = None.
Proof.
  apply no_result_without_cooling; cbn; lra.
Defined.

(** X6 at the descent from 5 with no options. *)
Lemma default_schedule_witness :
  exists s tr w',
    runTrace drawRandom (descentArgs 5 None) 1146 halves = Some ((s, tr), w') /\
    length tr = 1146%nat /\
    length (swaps tr) = (1146 * 10)%nat.
Proof.
  exact (proj1 (default_schedule_makes_1146_outer_passes drawRandom
                  (descentArgs 5 None) 1146 halves eq_refl
                  (proj2 (proj2 (descent_contract 5 None)))
                  (Nat.le_refl 1146))).
Defined.

(** X7 at the descent from 5. *)
Lemma recorded_costs_witness :
  exists s tr,
    runTrace drawRandom (descentArgs 5 (Some twoSwaps)) 1 halves
    = Some ((s, tr), halves) /\
    currentState s = currentCost s /\ bestState s = bestCost s.
Proof.
  destruct (descent_run halves) as (s & first & second & H & _).
  exists s, [(1, [first; second])]. split; [exact H |].
  exact (proj1 (recorded_costs_are_costs_of_recorded_states drawRandom _
                  (fun x => x) _ _ _ _ _
                  (proj1 (descent_contract 5 (Some twoSwaps)))
                  (proj1 (proj2 (descent_contract 5 (Some twoSwaps)))) H)).
Defined.



(** X10 at the exchange of 1 and 3. *)
Lemma generateNewState_keeps_shape_witness :
  Test.generateNewState alternatingDraw 5
    [[Some 1; Some 4]; [Some 2; Some 3]] 0%nat
  = Some ([[Some 3; Some 4]; [Some 2; Some 1]], 4%nat) /\
  Permutation [Some 3; Some 4; Some 2; Some 1] [Some 1; Some 4; Some 2; Some 3].
Proof.
  split; [exact (exchange_run _ eq_refl) |].
  exact (proj1 (proj2 (proj2
           (generateNewState_keeps_shape_and_elements alternatingDraw 2 5
              [[Some 1; Some 4]; [Some 2; Some 3]]
              [[Some 3; Some 4]; [Some 2; Some 1]] 0%nat 4%nat
              alternatingDraw_unitInterval (Nat.lt_0_succ 1)
              ltac:(repeat constructor) (exchange_run _ eq_refl))))).
Defined.

(** X11 at one pass on [[1, 4], [2, 3]]. *)
Lemma run_returns_a_regrouping_witness :
  runSimulatedAnnealing alternatingDraw
    (fixtureArgs alternatingDraw 5 firstElementCost
       [[Some 1; Some 4]; [Some 2; Some 3]] (Some onePass))
    1 0%nat
  = Some ([[Some 3; Some 4]; [Some 2; Some 1]], 4%nat) /\
  Permutation [Some 3; Some 4; Some 2; Some 1] [Some 1; Some 4; Some 2; Some 3].
Proof.
  split; [exact regrouping_run |].
  exact (proj2 (proj2
           (run_returns_a_regrouping alternatingDraw 2 1 5 firstElementCost
              [[Some 1; Some 4]; [Some 2; Some 3]]
              [[Some 3; Some 4]; [Some 2; Some 1]] (Some onePass) 0%nat 4%nat
              alternatingDraw_unitInterval (Nat.lt_0_succ 1)
              ltac:(repeat constructor) regrouping_run))).
Defined.

(** X12 with every draw 1/2. *)
Lemma constant_draws_witness :
  Test.generateUniqueRandomNumbers (fixedDraw (1 / 2)) 100 0 1 tt = None /\
  Test.generateNewState (fixedDraw (1 / 2)) 100 [[Some 1]; [Some 2]] tt = None.
Proof.
  destruct (constant_draws_never_give_two_numbers (fixedDraw (1 / 2)) (1 / 2)
              100 0 1 [[Some 1]; [Some 2]] tt) as [H1 H2].
  - intros w r w' E. injection E as <- _. reflexivity.
  - split; [exact H1 |]. apply H2. discriminate.
Defined.

(** X13 at two empty groups. *)
Lemma generateNewState_fills_witness :
  Test.generateNewState alternatingDraw 5 [[]; []] 0%nat
  = Some ([[None]; [None]], 4%nat) /\
  length ([[None]; [None]] : Test.Groups) = 2%nat.
Proof.
  split; [exact (fill_run _ eq_refl) |].
  exact (proj1 (generateNewState_fills_empty_groups alternatingDraw 5
                  [[]; []] [[None]; [None]] 0%nat 4%nat
                  alternatingDraw_unitInterval ltac:(discriminate)
                  ltac:(repeat constructor) (fill_run _ eq_refl))).
Defined.

(** X14 at the split by parity of 1 to 4. *)
Lemma getCost_counts_pairs_witness :
  Test.getCost (map (map person) [[1; 3]; [2; 4]]%Z)
  = Some (Some (costOfPeople [[1; 3]; [2; 4]]%Z)) /\
  costOfPeople [[1; 3]; [2; 4]]%Z <= 0.
Proof.
  apply getCost_counts_pairs_of_same_parity.
  repeat constructor; unfold known; lia.
Defined.

(** X15 at a group that starts with [undefined]. *)
Lemma getCost_throws_witness :
  Test.getCost [[None; person 1]] = None.
Proof.
  apply (getCost_throws_on_a_stranger_before_the_end
           [[None; person 1]] [] None (person 1) []).
  - intros k _. discriminate.
  - left. reflexivity.
Defined.

(** X16 at a group that ends with 9. *)
Lemma getCost_ignores_witness :
  Test.getCost
    (map (map person) [[2; 4]]%Z ++ (map person [1; 3]%Z ++ [Some 9])
       :: map (map person) [])
  = Some (Some (costOfPeople ([[2; 4]]%Z ++ []))).
Proof.
  apply getCost_ignores_a_group_that_ends_with_a_stranger.
  - repeat constructor; unfold known; lia.
  - constructor.
  - repeat constructor; unfold known; lia.
  - intros k Hk E. unfold person in E. injection E as E.
    apply eq_IZR in E. unfold known in Hk. lia.
Defined.

(** X17 at the first alternating draw between 0 and 1. *)
Lemma random_numbers_witness :
  Test.generateRandomNumber alternatingDraw 0 1 0%nat = Some (0%Z, 1%nat) /\
  (0 <= 0 <= 1)%Z.
Proof.
  split; [exact (alternatingDraw_of_two 0) |].
  exact (proj1 (random_numbers_stay_in_range alternatingDraw 0 0 1 0%nat
                  alternatingDraw_unitInterval)
           0%Z 1%nat ltac:(lia) (alternatingDraw_of_two 0)).
Defined.

(** X18 at the split by parity of 1 to 4. *)
Lemma getCost_is_least_witness :
  exists c,
    Test.getCost (map (map person) [[1; 3]; [2; 4]]%Z) = Some (Some c) /\
    c = - INR 2 * ln (INR (2 * (2 - 1))).
Proof.
  destruct (getCost_is_least_on_a_split_by_parity 2 [[1; 3]; [2; 4]]%Z)
    as (c & H & _ & Heq).
  - apply Nat.le_refl.
  - repeat constructor; unfold known; lia.
  - repeat constructor.
  - exists c. split; [exact H |]. apply Heq.
    constructor; [exists false; repeat constructor |].
    constructor; [exists true; repeat constructor | constructor].
Defined.

(** X19 at the descent from 5. *)
Lemma result_improves_witness :
  exists s tr,
    runTrace drawRandom (descentArgs 5 (Some twoSwaps)) 1 halves
    = Some ((s, tr), halves) /\
    bestState s < 5.
Proof.
  destruct (descent_run halves) as (s & first & second & H & Hfirst & _).
  exists s, [(1, [first; second])]. split; [exact H |].
  apply (proj2 (result_improves_iff_a_neighbor_did drawRandom
                  (descentArgs 5 (Some twoSwaps)) (fun x => x) 1 halves halves
                  s [(1, [first; second])]
                  (proj1 (descent_contract 5 (Some twoSwaps)))
                  (proj1 (proj2 (descent_contract 5 (Some twoSwaps)))) H)).
  exists first. split; [left; reflexivity |].
  rewrite Hfirst. simpl. lra.
Defined.


(** * The engine in binary64 *)

(** ** Rounding in binary64 *)

Lemma digits2_pos_size (p : positive) : digits2_pos p = Pos.size p.
Proof. induction p; simpl; congruence. Qed.

(** A positive number of [d] binary digits lies between [2^(d-1)] and
    [2^d]. *)
Lemma digits2_pos_bounds (p : positive) :
  (2 ^ (Z.pos (digits2_pos p) - 1) <= Z.pos p < 2 ^ Z.pos (digits2_pos p))%Z.
Proof.
  rewrite digits2_pos_size. split.
  - pose proof (Pos.size_le p) as H.
    assert (E : (Z.pos (2 ^ Pos.size p) <= Z.pos p~0)%Z) by exact H.
    rewrite Pos2Z.inj_pow in E.
    replace (Z.pos (Pos.size p)) with (Z.succ (Z.pos (Pos.size p) - 1))%Z in E
      by lia.
    rewrite Z.pow_succ_r in E by lia. lia.
  - pose proof (Pos.size_gt p) as H.
    assert (E : (Z.pos p < Z.pos (2 ^ Pos.size p))%Z) by exact H.
    rewrite Pos2Z.inj_pow in E. exact E.
Qed.

(** One shift to the right halves the mantissa and remembers the bit that
    falls off. *)
Lemma shr_1_spec (a : shr_record) :
  (0 <= shr_m a)%Z ->
  shr_m (shr_1 a) = (shr_m a / 2)%Z /\
  (shr_r (shr_1 a) = true -> (shr_m a mod 2 = 1)%Z).
Proof.
  destruct a as [m r s]. simpl. intros Hm.
  destruct m as [| p | p]; [| | lia].
  - split; [reflexivity | discriminate].
  - destruct p as [p | p |]; simpl.
    + split; [| intros _].
      * rewrite (Pos2Z.inj_xI p). apply Z.div_unique with 1%Z; lia.
      * rewrite (Pos2Z.inj_xI p). symmetry.
        apply Z.mod_unique with (Z.pos p); lia.
    + split; [| discriminate].
      rewrite (Pos2Z.inj_xO p). apply Z.div_unique with 0%Z; lia.
    + split; reflexivity.
Qed.


Lemma shifted_1 (a : shr_record) :
  (0 <= shr_m a)%Z -> shifted 1 a (shr_1 a).
Proof.
  intros Hm. destruct (shr_1_spec a Hm) as [H1 H2]. split.
  - rewrite H1. reflexivity.
  - intros Hr. apply H2 in Hr. change (2 ^ 1)%Z with 2%Z. lia.
Qed.

Lemma shifted_compose (n1 n2 : Z) (a b c : shr_record) :
  (0 < n1)%Z -> (0 < n2)%Z -> (0 <= shr_m a)%Z ->
  shifted n1 a b -> shifted n2 b c -> shifted (n1 + n2) a c.
Proof.
  intros H1 H2 Hm [Hb _] [Hc Hr].
  assert (P1 : (0 < 2 ^ n1)%Z) by (apply Z.pow_pos_nonneg; lia).
  assert (P2 : (0 < 2 ^ n2)%Z) by (apply Z.pow_pos_nonneg; lia).
  unfold shifted. rewrite Z.pow_add_r by lia.
  split.
  - rewrite Hc, Hb. rewrite Z.div_div by lia. reflexivity.
  - intros E. apply Hr in E. rewrite Hb in E.
    rewrite Z.rem_mul_r by lia.
    pose proof (Z.mod_pos_bound (shr_m a) (2 ^ n1) P1). nia.
Qed.

Lemma shifted_nonneg (n : Z) (a b : shr_record) :
  (0 <= n)%Z -> (0 <= shr_m a)%Z -> shifted n a b -> (0 <= shr_m b)%Z.
Proof.
  intros Hn Hm [E _]. rewrite E. apply Z.div_pos; [exact Hm |].
  apply Z.pow_pos_nonneg; lia.
Qed.

Lemma iter_pos_shr_1 (p : positive) :
  forall a, (0 <= shr_m a)%Z -> shifted (Z.pos p) a (iter_pos shr_1 p a).
Proof.
  induction p as [p IH | p IH |]; intros a Hm; simpl.
  - pose proof (shifted_1 a Hm) as S1.
    pose proof (shifted_nonneg 1 _ _ ltac:(lia) Hm S1) as M1.
    pose proof (IH _ M1) as S2.
    pose proof (shifted_nonneg (Z.pos p) _ _ ltac:(lia) M1 S2) as M2.
    pose proof (IH _ M2) as S3.
    replace (Z.pos p~1) with (1 + Z.pos p + Z.pos p)%Z by lia.
    eapply shifted_compose; [lia | lia | exact Hm | | exact S3].
    eapply shifted_compose; [lia | lia | exact Hm | exact S1 | exact S2].
  - pose proof (IH _ Hm) as S1.
    pose proof (shifted_nonneg (Z.pos p) _ _ ltac:(lia) Hm S1) as M1.
    pose proof (IH _ M1) as S2.
    replace (Z.pos p~0) with (Z.pos p + Z.pos p)%Z by lia.
    eapply shifted_compose; [lia | lia | exact Hm | exact S1 | exact S2].
  - exact (shifted_1 a Hm).
Qed.

(** [shr_fexp] on an exact number: it shifts by the distance to the
    exponent the format wants, when that is to the right. *)
Lemma shr_fexp_exact (m e : Z) :
  (0 <= m)%Z ->
  exists b n,
    (0 <= n)%Z /\
    shr_fexp prec emax m e loc_Exact = (b, (e + n)%Z) /\
    shifted n {| shr_m := m; shr_r := false; shr_s := false |} b /\
    (0 < n -> e + n = fexp prec emax (Zdigits2 m + e))%Z /\
    (n = 0 -> fexp prec emax (Zdigits2 m + e) <= e)%Z.
Proof.
  intros Hm. unfold shr_fexp, shr. simpl shr_record_of_loc.
  destruct (fexp prec emax (Zdigits2 m + e) - e)%Z as [| p | p] eqn:E.
  - eexists _, 0%Z. rewrite Z.add_0_r.
    split; [lia |]. split; [reflexivity |]. split; [| split; lia].
    split; simpl; [rewrite Z.div_1_r; reflexivity | discriminate].
  - eexists _, (Z.pos p). split; [lia |]. split; [reflexivity |].
    split; [apply iter_pos_shr_1; exact Hm |]. split; lia.
  - eexists _, 0%Z. rewrite Z.add_0_r.
    split; [lia |]. split; [reflexivity |]. split; [| split; lia].
    split; simpl; [rewrite Z.div_1_r; reflexivity | discriminate].
Qed.

(** Rounding to nearest, ties to even, goes up by at most half a unit. *)
Lemma round_nearest_even_spec (n M : Z) (b : shr_record) :
  (0 <= n)%Z -> (0 <= M)%Z ->
  shifted n {| shr_m := M; shr_r := false; shr_s := false |} b ->
  (M / 2 ^ n <= round_nearest_even (shr_m b) (loc_of_shr_record b))%Z /\
  ((2 * round_nearest_even (shr_m b) (loc_of_shr_record b) - 1) * 2 ^ n
   <= 2 * M)%Z.
Proof.
  intros Hn HM [Hb Hr]. cbn [shr_m shr_r] in Hb, Hr.
  assert (P : (0 < 2 ^ n)%Z) by (apply Z.pow_pos_nonneg; lia).
  pose proof (Z.div_mod M (2 ^ n) ltac:(lia)) as Hdiv.
  pose proof (Z.mod_pos_bound M (2 ^ n) P) as Hmod.
  assert (Hq : (0 <= M / 2 ^ n)%Z) by (apply Z.div_pos; lia).
  destruct b as [m r s]. cbn [shr_m shr_r] in *. subst m.
  set (q := (M / 2 ^ n)%Z) in *. set (p := (2 ^ n)%Z) in *.
  set (r0 := (M mod p)%Z) in *.
  destruct r, s; cbn [round_nearest_even loc_of_shr_record];
    try (destruct (Z.even q));
    try (specialize (Hr eq_refl)); split; nia.
Qed.

Lemma fexp_64 (e : Z) : fexp prec emax e = Z.max (e - 53) (-1074).
Proof. reflexivity. Qed.

(** What a valid mantissa and exponent of binary64 satisfy. *)
Lemma bounded_64 (m : positive) (e : Z) :
  bounded prec emax m e = true ->
  (Z.max (Z.pos (digits2_pos m) + e - 53) (-1074) = e /\ e <= 971)%Z.
Proof.
  unfold bounded, canonical_mantissa. rewrite fexp_64. intros H.
  apply andb_prop in H. destruct H as [H1 H2].
  apply Z.eqb_eq in H1. apply Z.leb_le in H2.
  change (emax - prec)%Z with 971%Z in H2. split; assumption.
Qed.

Lemma pow2_pos (n : Z) : (0 <= n -> 0 < 2 ^ n)%Z.
Proof. intros H. apply Z.pow_pos_nonneg; lia. Qed.

Lemma pow2_lt (a b : Z) : (0 <= b -> 2 ^ a < 2 ^ b -> a < b)%Z.
Proof. intros Hb H. apply (Z.pow_lt_mono_r_iff 2); [lia | exact Hb | exact H]. Qed.

Lemma pow2_le (a b : Z) : (0 <= a <= b -> 2 ^ a <= 2 ^ b)%Z.
Proof. intros H. apply Z.pow_le_mono_r; lia. Qed.

(** The arithmetic of the product of a normal number above [2^-1022] with
    a factor below 1: what rounding leaves is below the number. *)
Lemma rounded_product_below (mt mf M2 et k e1 n d : Z) :
  (2 ^ 52 <= mt < 2 ^ 53)%Z ->
  (-1074 < et \/ 2 ^ 52 < mt)%Z ->
  (-1074 <= et)%Z ->
  (53 <= k)%Z -> (0 < mf < 2 ^ 53)%Z ->
  (2 ^ (d - 1) <= mt * mf < 2 ^ d)%Z ->
  (0 <= n)%Z -> (e1 = et - k + n)%Z ->
  (0 < n -> e1 = Z.max (d + (et - k) - 53) (-1074))%Z ->
  (n = 0 -> Z.max (d + (et - k) - 53) (-1074) <= et - k)%Z ->
  (0 <= M2)%Z ->
  ((2 * M2 - 1) * 2 ^ n <= 2 * (mt * mf))%Z ->
  (-1074 <= e1 <= et /\ M2 < mt * 2 ^ (et - e1))%Z.
Proof.
  intros Hmt Hnormal Het Hk Hmf Hd Hn He1 Hpos Hzero HM2 Hround.
  assert (Pk : (2 ^ 53 <= 2 ^ k)%Z) by (apply pow2_le; lia).
  assert (Dk : (d <= 53 + k)%Z).
  { assert (H : (2 ^ (d - 1) < 2 ^ (53 + k))%Z).
    { rewrite (Z.pow_add_r 2 53 k) by lia. nia. }
    apply pow2_lt in H; lia. }
  assert (D53 : (53 <= d)%Z).
  { assert (H : (2 ^ 52 < 2 ^ d)%Z) by nia.
    destruct (Z.le_gt_cases 0 d) as [Hd0 | Hd0].
    - apply pow2_lt in H; lia.
    - rewrite (Z.pow_neg_r 2 d) in H by lia. lia. }
  assert (Hrange : (-1074 <= e1 <= et)%Z).
  { destruct (Z.eq_dec n 0) as [-> | Hn0]; [specialize (Hzero eq_refl); lia |].
    specialize (Hpos ltac:(lia)). lia. }
  split; [exact Hrange |].
  set (j := (et - e1)%Z) in *.
  assert (Hj : (0 <= j)%Z) by (unfold j; lia).
  assert (Hnj : (k = n + j)%Z) by (unfold j; lia).
  assert (Pn : (0 < 2 ^ n)%Z) by (apply pow2_pos; lia).
  assert (Pj : (0 < 2 ^ j)%Z) by (apply pow2_pos; lia).
  assert (Ek : (2 ^ k = 2 ^ n * 2 ^ j)%Z)
    by (rewrite Hnj; apply Z.pow_add_r; lia).
  destruct (Z.lt_ge_cases M2 (mt * 2 ^ j)) as [Hlt | Hge]; [exact Hlt | exfalso].
  assert (H1 : (2 * mt * (2 ^ k - mf) <= 2 ^ n)%Z) by nia.
  assert (F1 : (2 ^ k <= (2 ^ k - mf) * 2 ^ 53)%Z) by nia.
  assert (H2 : (2 ^ k <= 2 ^ n)%Z) by nia.
  assert (Hkn : (k <= n)%Z).
  { destruct (Z.le_gt_cases k n) as [H | H]; [exact H |].
    assert (2 ^ n < 2 ^ k)%Z by (apply Z.pow_lt_mono_r; lia). lia. }
  assert (Hj0 : j = 0%Z) by lia.
  assert (Hnk : n = k) by lia.
  rewrite Hnk in H1.
  assert (Hmt52 : mt = (2 ^ 52)%Z) by nia.
  assert (Het' : (-1074 < et)%Z) by lia.
  specialize (Hpos ltac:(lia)).
  assert (Hdk : d = (k + 53)%Z) by (unfold j in Hj0; lia).
  rewrite Hdk in Hd.
  replace (k + 53 - 1)%Z with (52 + k)%Z in Hd by lia.
  rewrite (Z.pow_add_r 2 52 k) in Hd by lia.
  rewrite Hmt52 in Hd. nia.
Qed.


(** The order of two positive finite numbers: by exponent, then by
    mantissa. *)
Lemma SFltb_finite (m1 m2 : positive) (e1 e2 : Z) :
  SFltb (S754_finite false m1 e1) (S754_finite false m2 e2) = true <->
  (e1 < e2 \/ (e1 = e2 /\ Z.pos m1 < Z.pos m2))%Z.
Proof.
  unfold SFltb, SFcompare.
  change (Pos.compare_cont Eq m1 m2) with (Pos.compare m1 m2).
  destruct (Z.compare_spec e1 e2) as [E | E | E].
  - destruct (Pos.compare_spec m1 m2) as [C | C | C]; split;
      try discriminate; try reflexivity; lia.
  - split; [intros _; lia | reflexivity].
  - split; [discriminate | lia].
Qed.

Lemma finish_below (M2 e1 mt et : Z) (pt : positive) :
  mt = Z.pos pt ->
  (2 ^ 52 <= mt < 2 ^ 53)%Z -> (et <= 971)%Z ->
  (0 <= M2)%Z -> (-1074 <= e1 <= et)%Z -> (M2 < mt * 2 ^ (et - e1))%Z ->
  SFltb (finish M2 e1) (S754_finite false pt et) = true.
Proof.
  intros Hpt Hmt Het HM2 He1 Hlt. unfold finish.
  destruct (shr_fexp_exact M2 e1 HM2) as (b & n2 & Hn2 & -> & [Hb _] & Hpos & _).
  cbn [shr_m] in Hb.
  set (j := (et - e1)%Z) in *.
  assert (Pj : (0 < 2 ^ j)%Z) by (apply pow2_pos; lia).
  assert (Hn2j : (n2 <= j)%Z).
  { destruct (Z.eq_dec n2 0) as [-> | Hne]; [lia |].
    specialize (Hpos ltac:(lia)). rewrite fexp_64 in Hpos.
    destruct M2 as [| p2 | p2]; [simpl in Hpos; lia | | lia].
    cbn [Zdigits2] in Hpos.
    pose proof (digits2_pos_bounds p2) as Hd2.
    set (d2 := Z.pos (digits2_pos p2)) in *.
    assert (H : (2 ^ (d2 - 1) < 2 ^ (53 + j))%Z).
    { rewrite (Z.pow_add_r 2 53 j) by lia. nia. }
    apply pow2_lt in H; lia. }
  assert (Pn2 : (0 < 2 ^ n2)%Z) by (apply pow2_pos; lia).
  assert (Hm : (0 <= shr_m b)%Z) by (rewrite Hb; apply Z.div_pos; lia).
  assert (Hlast : (n2 = j -> shr_m b < mt)%Z).
  { intros ->. rewrite Hb. apply Z.div_lt_upper_bound; lia. }
  destruct (shr_m b) as [| m | m]; [reflexivity | | lia].
  replace (e1 + n2 <=? emax - prec)%Z with true
    by (symmetry; apply Z.leb_le; change (emax - prec)%Z with 971%Z; lia).
  apply SFltb_finite.
  destruct (Z.eq_dec n2 j) as [Hj | Hj]; [| left; unfold j in *; lia].
  right. specialize (Hlast Hj). unfold j in *. lia.
Qed.

(** In binary64 the product of a finite number above [2^-1022] with a
    factor strictly between 0 and 1 is strictly below the number. *)
Lemma SFmul_below (pt pf : positive) (et ef : Z) :
  bounded prec emax pt et = true ->
  bounded prec emax pf ef = true ->
  SFltb (S754_finite false pf ef) (S754_finite false 4503599627370496 (-52))
  = true ->
  SFltb (S754_finite false 4503599627370496 (-1074)) (S754_finite false pt et)
  = true ->
  SFltb (SFmul prec emax (S754_finite false pt et) (S754_finite false pf ef))
    (S754_finite false pt et)
  = true.
Proof.
  intros Bt Bf Hf Ht.
  apply bounded_64 in Bt. destruct Bt as [Ct Et].
  apply bounded_64 in Bf. destruct Bf as [Cf _].
  pose proof (digits2_pos_bounds pt) as Dt.
  pose proof (digits2_pos_bounds pf) as Df.
  set (dt := Z.pos (digits2_pos pt)) in *.
  set (df := Z.pos (digits2_pos pf)) in *.
  assert (P52 : (2 ^ 52 = 4503599627370496)%Z) by reflexivity.
  (* the factor *)
  assert (Hef : (ef <= -53)%Z /\ (Z.pos pf < 2 ^ 53)%Z).
  { apply SFltb_finite in Hf.
    assert (Hdf : (df <= 53)%Z) by lia.
    assert (Z.pos pf < 2 ^ 53)%Z.
    { apply Z.lt_le_trans with (2 ^ df)%Z; [lia |]. apply pow2_le. lia. }
    split; [| assumption].
    destruct Hf as [E | [E C]]; [lia |].
    assert (df = 53%Z) by lia.
    assert (H52 : (2 ^ (df - 1) = 2 ^ 52)%Z) by (f_equal; lia).
    lia. }
  destruct Hef as [Hef Hpf].
  (* the number *)
  assert (Hnum : (2 ^ 52 <= Z.pos pt < 2 ^ 53)%Z /\
                 (-1074 < et \/ 2 ^ 52 < Z.pos pt)%Z /\ (-1074 <= et)%Z).
  { apply SFltb_finite in Ht. destruct Ht as [E | [E C]].
    - assert (Hdt : dt = 53%Z) by lia.
      assert (H52 : (2 ^ (dt - 1) = 2 ^ 52)%Z) by (f_equal; lia).
      assert (H53 : (2 ^ dt = 2 ^ 53)%Z) by (f_equal; lia).
      lia.
    - assert (Hlow : (2 ^ 52 < Z.pos pt)%Z) by lia.
      assert (Hdt : (dt <= 53)%Z) by lia.
      assert (Z.pos pt < 2 ^ 53)%Z.
      { apply Z.lt_le_trans with (2 ^ dt)%Z; [lia |]. apply pow2_le. lia. }
      lia. }
  destruct Hnum as (Hmt & Hnormal & Hlow).
  (* the product *)
  cbn [SFmul xorb]. unfold binary_round_aux.
  destruct (shr_fexp_exact (Z.pos (pt * pf)) (et + ef) ltac:(lia))
    as (b & n & Hn & -> & Hb & Hpos & Hzero).
  pose proof (round_nearest_even_spec n (Z.pos (pt * pf)) b Hn ltac:(lia) Hb)
    as [HM1 Hround].
  assert (HM2 : (0 <= round_nearest_even (shr_m b) (loc_of_shr_record b))%Z).
  { apply Z.le_trans with (Z.pos (pt * pf) / 2 ^ n)%Z; [| exact HM1].
    apply Z.div_pos; [lia | apply pow2_pos; exact Hn]. }
  clear HM1.
  set (M2 := round_nearest_even (shr_m b) (loc_of_shr_record b)) in *.
  change (let '(mrs'', e'') := shr_fexp prec emax M2 (et + ef + n) loc_Exact in
          match shr_m mrs'' with
          | 0%Z => S754_zero false
          | Z.pos m =>
              if (e'' <=? emax - prec)%Z then S754_finite false m e''
              else S754_infinity false
          | Z.neg _ => S754_nan
          end)
    with (finish M2 (et + ef + n)).
  pose proof (digits2_pos_bounds (pt * pf)) as Dp.
  cbn [Zdigits2] in Hpos, Hzero. rewrite fexp_64 in Hpos, Hzero.
  set (d := Z.pos (digits2_pos (pt * pf))) in *.
  rewrite Pos2Z.inj_mul in Dp, Hround.
  destruct (rounded_product_below (Z.pos pt) (Z.pos pf) M2 et (- ef)
              (et + ef + n) n d)
    as [Hrange Hbelow]; try lia.
  apply (finish_below M2 (et + ef + n) (Z.pos pt) et pt); lia.
Qed.

(** ** The order of binary64 *)

Ltac compare_cases :=
  repeat match goal with
         | H : context [Pos.compare_cont Eq ?a ?b] |- _ =>
             change (Pos.compare_cont Eq a b) with (Pos.compare a b) in H
         | |- context [Pos.compare_cont Eq ?a ?b] =>
             change (Pos.compare_cont Eq a b) with (Pos.compare a b)
         end;
  repeat match goal with
         | H : context [Z.compare ?a ?b] |- _ =>
             destruct (Z.compare_spec a b); try discriminate H
         | H : context [Pos.compare ?a ?b] |- _ =>
             destruct (Pos.compare_spec a b); try discriminate H
         | |- context [Z.compare ?a ?b] =>
             destruct (Z.compare_spec a b)
         | |- context [Pos.compare ?a ?b] =>
             destruct (Pos.compare_spec a b)
         end;
  cbn [CompOpp] in *;
  try discriminate; try reflexivity; try lia.

Lemma SFltb_trans (x y z : spec_float) :
  SFltb x y = true -> SFltb y z = true -> SFltb x z = true.
Proof.
  unfold SFltb, SFcompare.
  destruct x as [[] | [] | | [] mx ex], y as [[] | [] | | [] my ey],
    z as [[] | [] | | [] mz ez];
    intros Hxy Hyz; try discriminate; try reflexivity; compare_cases.
Qed.

Lemma SFleb_ltb_trans (x y z : spec_float) :
  SFleb x y = true -> SFltb y z = true -> SFltb x z = true.
Proof.
  unfold SFleb, SFltb, SFcompare.
  destruct x as [[] | [] | | [] mx ex], y as [[] | [] | | [] my ey],
    z as [[] | [] | | [] mz ez];
    intros Hxy Hyz; try discriminate; try reflexivity; compare_cases.
Qed.

(** What is below something is not NaN and not [+Infinity]. *)
Lemma SFltb_finite_left (x y : spec_float) :
  SFltb x y = true -> SFltb x (S754_infinity false) = true.
Proof.
  unfold SFltb, SFcompare.
  destruct x as [[] | [] | | [] mx ex], y as [[] | [] | | [] my ey];
    intros H; try discriminate; reflexivity.
Qed.

Lemma ltb_trans (x y z : float) :
  (x <? y)%float = true -> (y <? z)%float = true -> (x <? z)%float = true.
Proof. rewrite !ltb_spec. apply SFltb_trans. Qed.

Lemma leb_ltb_trans (x y z : float) :
  (x <=? y)%float = true -> (y <? z)%float = true -> (x <? z)%float = true.
Proof. rewrite leb_spec, !ltb_spec. apply SFleb_ltb_trans. Qed.

Lemma ltb_finite_left (x y : float) :
  (x <? y)%float = true -> (x <? infinity)%float = true.
Proof.
  rewrite !ltb_spec. intros H. apply SFltb_finite_left in H. exact H.
Qed.


(** Cooling lowers the temperature: in binary64 the product of a finite
    number above [2^-1022] with a factor strictly between 0 and 1 is
    strictly below the number. *)
Lemma mul_below (t f : float) :
  (0 <? f)%float = true -> (f <? 1)%float = true ->
  (Double.smallestNormal <? t)%float = true -> (t <? infinity)%float = true ->
  (t * f <? t)%float = true.
Proof.
  rewrite !ltb_spec, mul_spec.
  pose proof (Prim2SF_valid t) as Vt. pose proof (Prim2SF_valid f) as Vf.
  change (Prim2SF 0) with (S754_zero false).
  change (Prim2SF 1) with (S754_finite false 4503599627370496 (-52)).
  change (Prim2SF Double.smallestNormal)
    with (S754_finite false 4503599627370496 (-1074)).
  change (Prim2SF infinity) with (S754_infinity false).
  destruct (Prim2SF f) as [[] | [] | | [] pf ef]; try discriminate.
  destruct (Prim2SF t) as [[] | [] | | [] pt et]; try discriminate.
  intros _ Hf Ht _. apply SFmul_below; assumption.
Qed.

(** ** Differences in binary64 *)









(** ** The engine in binary64: one pass and the loops *)

Section Pass64.

Context {W T : Type}.
Variable Math_random : M W float.
Variable Math_exp : float -> float.
Variable args : Double.SimulatedAnnealingArgs W T.

Lemma swap_inv_64 (s : Double.RunState T) (w w' : W)
  (snap : Double.Snapshot W T) :
  Double.swap Math_random Math_exp args s w = Some (snap, w') ->
  exists w1 w2,
    Double.generateNewState args (Double.currentState s) w
    = Some (Double.neighbor snap, w1) /\
    Double.getCost args (Double.neighbor snap) w1
    = Some (Double.neighborCost snap, w2) /\
    Double.acceptanceTest Math_random Math_exp
      (Double.neighborCost snap - Double.currentCost s)%float
      (Double.currentTemperature s) w2
    = Some (Double.accepted snap, w') /\
    Double.before snap = s /\
    Double.between snap =
      (if Double.accepted snap
       then Double.acceptNeighbor s (Double.neighbor snap)
              (Double.neighborCost snap)
       else s) /\
    Double.after snap =
      Double.recordBest (Double.between snap) (Double.neighbor snap)
        (Double.neighborCost snap) /\
    Double.world snap = w'.
Proof.
  unfold Double.swap. intros H.
  apply bind_Some in H. destruct H as (n & w1 & Hgen & H).
  apply bind_Some in H. destruct H as (c & w2 & Hcost & H).
  apply bind_Some in H. destruct H as (b & w3 & Hacc & H).
  apply bind_Some in H. destruct H as (w4 & w5 & Hobs & H).
  unfold observe in Hobs. injection Hobs as <- <-.
  apply ret_Some in H. destruct H as [<- <-]. simpl.
  exists w1, w2. repeat split; assumption.
Qed.

(** Neither [if] of a pass touches the temperature. *)
Lemma swap_temperature_64 (s : Double.RunState T) (w w' : W)
  (snap : Double.Snapshot W T) :
  Double.swap Math_random Math_exp args s w = Some (snap, w') ->
  Double.currentTemperature (Double.after snap) = Double.currentTemperature s.
Proof.
  intros H. apply swap_inv_64 in H.
  destruct H as (w1 & w2 & _ & _ & _ & _ & Hbetween & Hafter & _).
  rewrite Hafter, Hbetween. unfold Double.recordBest.
  destruct (Double.accepted snap);
    match goal with |- context [if ?c then _ else _] => destruct c end;
    reflexivity.
Qed.

(** The inner loop makes [n] passes, all at the temperature it starts
    with, and leaves the temperature alone. *)
Lemma forLoop_shape_64 (n : nat) :
  forall s w r w',
    Double.forLoop Math_random Math_exp args n s w = Some (r, w') ->
    length (snd r) = n /\
    Double.currentTemperature (fst r) = Double.currentTemperature s /\
    Forall (fun snap =>
              Double.currentTemperature (Double.before snap)
              = Double.currentTemperature s /\
              Double.currentTemperature (Double.after snap)
              = Double.currentTemperature s)
      (snd r).
Proof.
  induction n as [| n IH]; intros s w r w' H; simpl in H.
  - apply ret_Some in H. destruct H as [<- _]. simpl.
    split; [reflexivity |]. split; [reflexivity | constructor].
  - apply bind_Some in H. destruct H as (snap & w1 & Hswap & H).
    apply bind_Some in H. destruct H as (r1 & w2 & Hfor & H).
    apply ret_Some in H. destruct H as [<- _]. simpl.
    pose proof (swap_temperature_64 s w w1 snap Hswap) as Ht.
    apply swap_inv_64 in Hswap.
    destruct Hswap as (_ & _ & _ & _ & _ & Hbefore & _).
    apply IH in Hfor. rewrite Ht in Hfor. destruct Hfor as (Hl & He & Hall).
    split; [congruence |]. split; [exact He |].
    constructor; [rewrite Hbefore; split; [reflexivity | exact Ht] | exact Hall].
Qed.

Lemma cooled_succ_r (factor t : float) (j : nat) :
  Double.cooled factor t (S j) = Double.cooled factor (t * factor)%float j.
Proof. unfold Double.cooled. rewrite Nat.iter_succ_r. reflexivity. Qed.

(** The outer loop goes through the rounded products of the temperature
    it starts with by the factor, as long as they are above the minimum;
    it has ended exactly when the temperature it leaves is not. *)
Lemma whileLoop_shape_64 (factor minimum : float) (n fuel : nat) :
  forall s w s' tr ended w',
    Double.whileLoop Math_random Math_exp args fuel factor minimum n s w
    = Some ((s', tr, ended), w') ->
    (forall j t, nth_error (Double.temperatures tr) j = Some t ->
                 t = Double.cooled factor (Double.currentTemperature s) j /\
                 (minimum <? t)%float = true) /\
    Double.currentTemperature s'
    = Double.cooled factor (Double.currentTemperature s) (length tr) /\
    (minimum <? Double.currentTemperature s')%float = negb ended /\
    (ended = false -> length tr = fuel) /\
    Forall (fun pass =>
              length (snd pass) = n /\
              Forall (fun snap =>
                        Double.currentTemperature (Double.before snap)
                        = fst pass /\
                        Double.currentTemperature (Double.after snap)
                        = fst pass)
                (snd pass))
      tr.
Proof.
  induction fuel as [| fuel IH]; intros s w s' tr ended w' H; simpl in H;
    destruct (minimum <? Double.currentTemperature s)%float eqn:E.
  - apply ret_Some in H. destruct H as [H _]. injection H as <- <- <-. simpl.
    split; [intros [| j] t Hj; discriminate |].
    split; [reflexivity |]. split; [exact E |].
    split; [reflexivity | constructor].
  - apply ret_Some in H. destruct H as [H _]. injection H as <- <- <-. simpl.
    split; [intros [| j] t Hj; discriminate |].
    split; [reflexivity |]. split; [exact E |].
    split; [discriminate | constructor].
  - apply bind_Some in H. destruct H as ([s1 snaps] & w1 & Hfor & H).
    apply bind_Some in H. destruct H as ([[s2 rest] flag] & w2 & Hloop & H).
    apply ret_Some in H. destruct H as [H _]. simpl in H.
    injection H as <- <- <-.
    apply forLoop_shape_64 in Hfor. simpl in Hfor.
    destruct Hfor as (Hl & Ht & Hsnaps).
    apply IH in Hloop. simpl in Hloop. rewrite Ht in Hloop.
    destruct Hloop as (Hnth & Hend & Hmin & Hfuel & Hall).
    split; [| split; [| split; [| split]]].
    + intros [| j] t H; simpl in H.
      * injection H as <-. split; [reflexivity | exact E].
      * apply Hnth in H. destruct H as [-> Hgt].
        split; [symmetry; apply cooled_succ_r | exact Hgt].
    + rewrite Hend. simpl length. symmetry. apply cooled_succ_r.
    + exact Hmin.
    + intros Hflag. simpl. f_equal. apply Hfuel. exact Hflag.
    + constructor; [split; assumption | exact Hall].
  - apply ret_Some in H. destruct H as [H _]. injection H as <- <- <-. simpl.
    split; [intros [| j] t Hj; discriminate |].
    split; [reflexivity |]. split; [exact E |].
    split; [discriminate | constructor].
Qed.

Hypothesis strategies_return : Double.terminating Math_random args.

Lemma swap_returns_64 (s : Double.RunState T) (w : W) :
  exists snap w', Double.swap Math_random Math_exp args s w = Some (snap, w').
Proof.
  destruct strategies_return as (_ & Hgen & Hcost & Hr).
  destruct (Hgen (Double.currentState s) w) as (n & w1 & Hn).
  destruct (Hcost n w1) as (c & w2 & Hc).
  assert (Hacc : exists b w3,
             Double.acceptanceTest Math_random Math_exp
               (c - Double.currentCost s)%float (Double.currentTemperature s) w2
             = Some (b, w3)).
  { unfold Double.acceptanceTest.
    destruct (c - Double.currentCost s <? 0)%float.
    - exists true, w2. reflexivity.
    - destruct (Hr w2) as (u & w3 & Hu).
      eexists _, w3. unfold bind. rewrite Hu. reflexivity. }
  destruct Hacc as (b & w3 & Hb).
  unfold Double.swap, bind, observe, ret. rewrite Hn, Hc, Hb.
  eexists _, w3. reflexivity.
Qed.

Lemma forLoop_returns_64 (n : nat) :
  forall s w, exists r w',
    Double.forLoop Math_random Math_exp args n s w = Some (r, w').
Proof.
  induction n as [| n IH]; intros s w; simpl.
  - eexists _, w. reflexivity.
  - destruct (swap_returns_64 s w) as (snap & w1 & Hswap).
    destruct (IH (Double.after snap) w1) as (r & w2 & Hfor).
    unfold bind. rewrite Hswap, Hfor. eexists _, w2. reflexivity.
Qed.

(** With strategies that return, the loop observed for [fuel] passes
    gives its variables and trace. *)
Lemma whileLoop_returns_64 (factor minimum : float) (n fuel : nat) :
  forall s w, exists r w',
    Double.whileLoop Math_random Math_exp args fuel factor minimum n s w
    = Some (r, w').
Proof.
  induction fuel as [| fuel IH]; intros s w; simpl;
    destruct (minimum <? Double.currentTemperature s)%float;
    try (eexists _, w; reflexivity).
  destruct (forLoop_returns_64 n s w) as (r & w1 & Hfor).
  destruct (IH (Double.cool (fst r) factor) w1) as (r' & w2 & Hloop).
  unfold bind. rewrite Hfor, Hloop. eexists _, w2. reflexivity.
Qed.

Lemma initialise_returns_64 (w : W) :
  exists s w',
    Double.initialise args w = Some (s, w') /\
    Double.currentTemperature s = Double.theInitialTemperature args.
Proof.
  destruct strategies_return as (Hcopy & _ & Hcost & _).
  destruct (Hcopy (Double.initialState args) w) as (c & w1 & Hc).
  destruct (Hcost (Double.initialState args) w1) as (x & w2 & Hx).
  destruct (Hcopy (Double.initialState args) w2) as (b & w3 & Hb).
  destruct (Hcost (Double.initialState args) w3) as (y & w4 & Hy).
  unfold Double.initialise, bind. rewrite Hc, Hx, Hb, Hy.
  eexists _, w4. split; reflexivity.
Qed.

End Pass64.

Lemma initialise_inv_64 {W T : Type} (args : Double.SimulatedAnnealingArgs W T)
  (w w' : W) (s : Double.RunState T) :
  Double.initialise args w = Some (s, w') ->
  Double.currentTemperature s = Double.theInitialTemperature args.
Proof.
  unfold Double.initialise. intros H.
  apply bind_Some in H. destruct H as (c & w1 & _ & H).
  apply bind_Some in H. destruct H as (x & w2 & _ & H).
  apply bind_Some in H. destruct H as (b & w3 & _ & H).
  apply bind_Some in H. destruct H as (y & w4 & _ & H).
  apply ret_Some in H. destruct H as [<- _]. reflexivity.
Qed.

(** ** The rounded schedule *)

Lemma rank_decreases (x y : float) :
  (Double.smallestNormal <? y)%float = true ->
  (y <? x)%float = true ->
  (x <? infinity)%float = true ->
  (0 <= Double.rank y < Double.rank x)%Z.
Proof.
  rewrite !ltb_spec. unfold Double.rank.
  pose proof (Prim2SF_valid x) as Vx. pose proof (Prim2SF_valid y) as Vy.
  change (Prim2SF Double.smallestNormal)
    with (S754_finite false 4503599627370496 (-1074)).
  change (Prim2SF infinity) with (S754_infinity false).
  destruct (Prim2SF y) as [[] | [] | | [] py ey]; try discriminate;
    destruct (Prim2SF x) as [[] | [] | | [] px ex]; try discriminate.
  intros _ Hlt _. apply SFltb_finite in Hlt.
  apply bounded_64 in Vx, Vy. destruct Vx as [Cx _], Vy as [Cy _].
  pose proof (digits2_pos_bounds py) as Dy.
  set (dy := Z.pos (digits2_pos py)) in *.
  assert (Hdy : (dy <= 53)%Z) by lia.
  assert (Hpy : (Z.pos py < 2 ^ 53)%Z).
  { apply Z.lt_le_trans with (2 ^ dy)%Z; [lia |]. apply pow2_le. lia. }
  assert (P : (0 < 2 ^ 53)%Z) by reflexivity.
  nia.
Qed.

(** With a factor strictly between 0 and 1 and a minimum that is at least
    [2^-1022], the rounded products of a finite temperature by the factor
    come to the minimum or below. *)
Lemma schedule_ends_64 (factor minimum : float) :
  (0 <? factor)%float = true -> (factor <? 1)%float = true ->
  (Double.smallestNormal <=? minimum)%float = true ->
  forall (bound : nat) (t : float),
    (t <? infinity)%float = true ->
    (Double.rank t <= Z.of_nat bound)%Z ->
    exists N,
      (minimum <? Double.cooled factor t N)%float = false /\
      forall j, (j < N)%nat ->
                (minimum <? Double.cooled factor t j)%float = true.
Proof.
  intros Hf0 Hf1 Hmin.
  induction bound as [| bound IH]; intros t Hfin Hrank;
    destruct (minimum <? t)%float eqn:E;
    try (exists O; split; [exact E | intros j Hj; lia]).
  - pose proof (leb_ltb_trans _ _ _ Hmin E) as Hnormal.
    pose proof (mul_below t factor Hf0 Hf1 Hnormal Hfin) as Hlt.
    destruct (minimum <? t * factor)%float eqn:E'.
    + pose proof (leb_ltb_trans _ _ _ Hmin E') as Hnormal'.
      pose proof (rank_decreases t (t * factor)%float Hnormal' Hlt Hfin). lia.
    + exists 1%nat. split; [exact E' |].
      intros j Hj. replace j with O by lia. exact E.
  - pose proof (leb_ltb_trans _ _ _ Hmin E) as Hnormal.
    pose proof (mul_below t factor Hf0 Hf1 Hnormal Hfin) as Hlt.
    destruct (minimum <? t * factor)%float eqn:E'.
    + pose proof (leb_ltb_trans _ _ _ Hmin E') as Hnormal'.
      pose proof (rank_decreases t (t * factor)%float Hnormal' Hlt Hfin).
      destruct (IH (t * factor)%float) as (N & Hstop & Hgo);
        [exact (ltb_finite_left _ _ Hlt) | lia |].
      exists (S N). split; [rewrite cooled_succ_r; exact Hstop |].
      intros [| j] Hj; [exact E |].
      rewrite cooled_succ_r. apply Hgo. lia.
    + exists 1%nat. split; [exact E' |].
      intros j Hj. replace j with O by lia. exact E.
Qed.

(** Above a minimum that is at least [2^-1022], the rounded products go
    strictly down. *)
Lemma cooled_decreases (factor minimum initial : float) (N : nat) :
  (0 <? factor)%float = true -> (factor <? 1)%float = true ->
  (Double.smallestNormal <=? minimum)%float = true ->
  (initial <? infinity)%float = true ->
  (forall j, (j < N)%nat ->
             (minimum <? Double.cooled factor initial j)%float = true) ->
  forall i j, (i < j <= N)%nat ->
    (Double.cooled factor initial j <? Double.cooled factor initial i)%float
    = true.
Proof.
  intros Hf0 Hf1 Hmin Hfin Hgo.
  assert (Hfinite : forall i, (i < N)%nat ->
             (Double.cooled factor initial i <? infinity)%float = true).
  { induction i as [| i IH]; intros Hi; [exact Hfin |].
    apply ltb_finite_left with (Double.cooled factor initial i).
    apply mul_below; try assumption.
    - apply leb_ltb_trans with minimum; [exact Hmin | apply Hgo; lia].
    - apply IH. lia. }
  assert (Hstep : forall i, (i < N)%nat ->
             (Double.cooled factor initial (S i)
              <? Double.cooled factor initial i)%float = true).
  { intros i Hi. apply mul_below; try assumption.
    - apply leb_ltb_trans with minimum; [exact Hmin | apply Hgo; exact Hi].
    - apply Hfinite. exact Hi. }
  intros i j [Hij HjN]. induction j as [| j IH]; [lia |].
  destruct (Nat.eq_dec i j) as [-> | Hne].
  - apply Hstep. lia.
  - apply ltb_trans with (Double.cooled factor initial j).
    + apply Hstep. lia.
    + apply IH; lia.
Qed.

(** ** The count of outer passes, in binary64 *)

(** A run makes [N] outer passes when the rounded schedule is first at or
    below the minimum at its step [N]. *)
Lemma runTrace_count_64 {W T : Type} (Math_random : M W float)
  (Math_exp : float -> float) (args : Double.SimulatedAnnealingArgs W T)
  (N : nat) :
  Double.terminating Math_random args ->
  (forall j, (j < N)%nat ->
     (Double.theMinimumTemperature args
      <? Double.cooled (Double.theCoolingFactor args)
           (Double.theInitialTemperature args) j)%float = true) ->
  (Double.theMinimumTemperature args
   <? Double.cooled (Double.theCoolingFactor args)
        (Double.theInitialTemperature args) N)%float = false ->
  forall fuel w, (N <= fuel)%nat ->
    exists s tr w',
      Double.runTrace Math_random Math_exp args fuel w
      = Some ((s, tr, true), w') /\
      length tr = N /\
      Forall (fun pass => length (snd pass) = Double.theSwapsPerTemperature args)
        tr.
Proof.
  intros Hret Hgo Hstop fuel w Hfuel.
  set (factor := Double.theCoolingFactor args) in *.
  set (initial := Double.theInitialTemperature args) in *.
  set (minimum := Double.theMinimumTemperature args) in *.
  destruct (initialise_returns_64 Math_random args Hret w)
    as (s0 & w0 & Hinit & Ht).
  destruct (whileLoop_returns_64 Math_random Math_exp args Hret factor minimum
              (Double.theSwapsPerTemperature args) fuel s0 w0)
    as ([[s tr] ended] & w' & Hloop).
  pose proof Hloop as Hshape. apply whileLoop_shape_64 in Hshape.
  rewrite Ht in Hshape. fold initial in Hshape.
  destruct Hshape as (Hnth & Hend & Hflag & Hout & Hall).
  assert (Habove : forall j, (j < length tr)%nat ->
             (minimum <? Double.cooled factor initial j)%float = true).
  { intros j Hj.
    destruct (nth_error (Double.temperatures tr) j) as [t |] eqn:E.
    - apply Hnth in E. destruct E as [<- E]. exact E.
    - apply nth_error_None in E. unfold Double.temperatures in E.
      rewrite length_map in E. lia. }
  assert (Hle : (length tr <= N)%nat).
  { destruct (Nat.le_gt_cases (length tr) N) as [H | H]; [exact H |].
    apply Habove in H. congruence. }
  assert (Hlen : length tr = N).
  { destruct (Nat.eq_dec (length tr) N) as [H | H]; [exact H |].
    assert (Hlt : (length tr < N)%nat) by lia.
    apply Hgo in Hlt. rewrite <- Hend, Hflag in Hlt.
    destruct ended; [discriminate |].
    specialize (Hout eq_refl). lia. }
  assert (Hended : ended = true).
  { rewrite Hlen in Hend. rewrite Hend, Hstop in Hflag.
    destruct ended; [reflexivity | discriminate]. }
  subst ended. exists s, tr, w'. split.
  - unfold Double.runTrace, bind. rewrite Hinit. exact Hloop.
  - split; [exact Hlen |].
    eapply Forall_impl; [| exact Hall]. intros pass [H _]. exact H.
Qed.

(** C4, as the code has it. With strategies that return, a cooling factor
    strictly between 0 and 1, a finite initial temperature and a minimum
    temperature that is at least [2^-1022], a run makes a finite number
    [N] of passes of the outer loop, fixed by the three temperature
    settings alone whatever the states and the strategies' results are:
    [N] is the first [j] at which the initial temperature multiplied [j]
    times by the factor, each product rounded, is not above the minimum;
    and each outer pass makes [swapsPerTemperature] passes of the inner
    loop. *)
Theorem outer_loop_pass_count {W T : Type} (Math_random : M W float)
  (Math_exp : float -> float) (args : Double.SimulatedAnnealingArgs W T) :
  Double.terminating Math_random args ->
  (0 <? Double.theCoolingFactor args)%float = true ->
  (Double.theCoolingFactor args <? 1)%float = true ->
  (Double.theInitialTemperature args <? infinity)%float = true ->
  (Double.smallestNormal <=? Double.theMinimumTemperature args)%float = true ->
  exists N,
    (forall j, (j < N)%nat ->
       (Double.theMinimumTemperature args
        <? Double.cooled (Double.theCoolingFactor args)
             (Double.theInitialTemperature args) j)%float = true) /\
    (Double.theMinimumTemperature args
     <? Double.cooled (Double.theCoolingFactor args)
          (Double.theInitialTemperature args) N)%float = false /\
    forall fuel w, (N <= fuel)%nat ->
      exists s tr w',
        Double.runTrace Math_random Math_exp args fuel w
        = Some ((s, tr, true), w') /\
        length tr = N /\
        Forall (fun pass => length (snd pass) = Double.theSwapsPerTemperature args)
          tr.
Proof.
  intros Hret Hf0 Hf1 Hfin Hmin.
  destruct (schedule_ends_64 (Double.theCoolingFactor args)
              (Double.theMinimumTemperature args) Hf0 Hf1 Hmin
              (Z.to_nat (Double.rank (Double.theInitialTemperature args)))
              (Double.theInitialTemperature args) Hfin ltac:(lia))
    as (N & Hstop & Hgo).
  exists N. split; [exact Hgo |]. split; [exact Hstop |].
  apply runTrace_count_64; assumption.
Qed.

(** ** The temperatures of a run, in binary64 *)

(** X5. The temperatures of a run follow the rounded geometric schedule
    whatever the strategies do: outer pass [j] (from 0) runs at the
    initial temperature multiplied [j] times by the factor, each product
    rounded, which is above the minimum; every inner pass of it starts
    and ends at that temperature; and the loop leaves the next such
    product, which is not above the minimum once the loop has ended. *)
Theorem run_follows_the_schedule {W T : Type} (Math_random : M W float)
  (Math_exp : float -> float) (args : Double.SimulatedAnnealingArgs W T)
  (fuel : nat) (w w' : W) (s : Double.RunState T) (tr : Double.Trace W T)
  (ended : bool) :
  Double.runTrace Math_random Math_exp args fuel w = Some ((s, tr, ended), w') ->
  (forall j t,
      nth_error (Double.temperatures tr) j = Some t ->
      t = Double.cooled (Double.theCoolingFactor args)
            (Double.theInitialTemperature args) j /\
      (Double.theMinimumTemperature args <? t)%float = true) /\
  Forall (fun pass =>
            Forall (fun snap =>
                      Double.currentTemperature (Double.before snap) = fst pass /\
                      Double.currentTemperature (Double.after snap) = fst pass)
              (snd pass))
    tr /\
  Double.currentTemperature s
  = Double.cooled (Double.theCoolingFactor args)
      (Double.theInitialTemperature args) (length tr) /\
  (Double.theMinimumTemperature args <? Double.currentTemperature s)%float
  = negb ended.
Proof.
  intros H. unfold Double.runTrace in H.
  apply bind_Some in H. destruct H as (s0 & w0 & Hinit & H).
  apply initialise_inv_64 in Hinit.
  apply whileLoop_shape_64 in H. rewrite Hinit in H.
  destruct H as (Hnth & Hend & Hflag & _ & Hall).
  split; [exact Hnth |]. split; [| split; assumption].
  eapply Forall_impl; [| exact Hall]. intros pass [_ Hpass]. exact Hpass.
Qed.

(** A list whose elements are the rounded products in order goes strictly
    down, when all but the last are above a minimum of at least
    [2^-1022]. *)
Lemma cooled_strictlyDecreasing (factor minimum initial : float)
  (l : list float) :
  (0 <? factor)%float = true -> (factor <? 1)%float = true ->
  (Double.smallestNormal <=? minimum)%float = true ->
  (initial <? infinity)%float = true ->
  (forall j t, nth_error l j = Some t -> t = Double.cooled factor initial j) ->
  (forall j, (S j < length l)%nat ->
             (minimum <? Double.cooled factor initial j)%float = true) ->
  Double.strictlyDecreasing l.
Proof.
  intros Hf0 Hf1 Hmin Hfin Hnth Habove pre x mid y post E.
  assert (E' : l = (pre ++ x :: mid) ++ y :: post)
    by (rewrite E, <- app_assoc; reflexivity).
  assert (Hi : (length pre < length (pre ++ x :: mid))%nat)
    by (rewrite length_app; simpl; lia).
  remember (length pre) as i eqn:Ei.
  remember (length (pre ++ x :: mid)) as k eqn:Ek.
  assert (Hx : nth_error l i = Some x)
    by (rewrite E, Ei; apply nth_error_middle).
  assert (Hy : nth_error l k = Some y)
    by (rewrite E', Ek; apply nth_error_middle).
  assert (Hlen : length l = S (k + length post))
    by (rewrite E', length_app, <- Ek; simpl; lia).
  apply Hnth in Hx, Hy. rewrite Hx, Hy.
  apply (cooled_decreases factor minimum initial k); try assumption.
  - intros j Hj. apply Habove. lia.
  - lia.
Qed.

(** C9, as the code has it. When the cooling factor is strictly between 0
    and 1, the initial temperature is finite and the minimum temperature
    is at least [2^-1022], the temperatures of the outer passes of a run,
    followed by the temperature the loop is left with, go strictly down,
    however long the run is observed. *)
Theorem temperatures_strictly_decrease {W T : Type} (Math_random : M W float)
  (Math_exp : float -> float) (args : Double.SimulatedAnnealingArgs W T)
  (fuel : nat) (w w' : W) (s : Double.RunState T) (tr : Double.Trace W T)
  (ended : bool) :
  (0 <? Double.theCoolingFactor args)%float = true ->
  (Double.theCoolingFactor args <? 1)%float = true ->
  (Double.theInitialTemperature args <? infinity)%float = true ->
  (Double.smallestNormal <=? Double.theMinimumTemperature args)%float = true ->
  Double.runTrace Math_random Math_exp args fuel w = Some ((s, tr, ended), w') ->
  Double.strictlyDecreasing
    (Double.temperatures tr ++ [Double.currentTemperature s]).
Proof.
  intros Hf0 Hf1 Hfin Hmin H. unfold Double.runTrace in H.
  apply bind_Some in H. destruct H as (s0 & w0 & Hinit & H).
  apply initialise_inv_64 in Hinit.
  apply whileLoop_shape_64 in H. rewrite Hinit in H.
  destruct H as (Hnth & Hend & _ & _ & _).
  assert (Hl : length (Double.temperatures tr) = length tr)
    by (unfold Double.temperatures; apply length_map).
  apply (cooled_strictlyDecreasing (Double.theCoolingFactor args)
           (Double.theMinimumTemperature args)
           (Double.theInitialTemperature args)); try assumption.
  - intros j t Hj.
    destruct (Nat.lt_ge_cases j (length (Double.temperatures tr))) as [Hlt | Hge].
    + rewrite nth_error_app1 in Hj by assumption. apply Hnth in Hj. apply Hj.
    + rewrite nth_error_app2 in Hj by assumption.
      destruct (j - length (Double.temperatures tr))%nat as [| k] eqn:E;
        simpl in Hj.
      * injection Hj as <-. rewrite Hend. f_equal. lia.
      * destruct k; discriminate.
  - intros j Hj. rewrite length_app in Hj. simpl in Hj.
    destruct (nth_error (Double.temperatures tr) j) as [t |] eqn:E.
    + apply Hnth in E. destruct E as [<- E]. exact E.
    + apply nth_error_None in E. lia.
Qed.

(** ** The acceptance rule, in binary64 *)


(** ** Runs of the examples, in binary64 *)

Lemma valueOf_finite (x : float) (m : positive) (e : Z) :
  Prim2SF x = S754_finite false m e -> (e < 0)%Z ->
  Double.valueOf x = IZR (Z.pos m) / IZR (2 ^ (- e)).
Proof.
  intros H He. unfold Double.valueOf. rewrite H.
  destruct (Z.leb_spec 0 e) as [Hle | _]; [lia |]. unfold Rdiv. ring.
Qed.

Lemma descent_terminating_64 (u start : float)
  (opts : option Double.SimulatedAnnealingOptions) :
  Double.terminating (Double.fixedDraw u) (Double.descentArgs start opts).
Proof.
  split; [| split; [| split]].
  - intros a w. exists a, w. reflexivity.
  - intros a w. eexists _, w. reflexivity.
  - intros a w. exists a, w. reflexivity.
  - intros w. exists u, tt. reflexivity.
Qed.

(** The descent from 5 by halves: two outer passes, at 1 and at 1/2. *)
Lemma halving_run :
  exists s tr,
    Double.runTrace (Double.fixedDraw 0.5) Double.sampleExp
      (Double.descentArgs 5 (Some Double.halving)) 5 tt
    = Some ((s, tr, true), tt) /\
    Double.temperatures tr = [1; 0.5]%float /\
    Double.currentTemperature s = 0.25%float /\
    Double.bestState s = 1%float.
Proof.
  eexists _, _. split; [lazy; reflexivity |].
  split; [| split]; reflexivity.
Qed.

(** With the rounded square of 0.99 for a minimum: two outer passes. *)
Lemma squareMinimum_run :
  exists s tr,
    Double.runTrace (Double.fixedDraw 0.5) Double.sampleExp
      (Double.descentArgs 5 (Some Double.squareMinimum)) 5 tt
    = Some ((s, tr, true), tt) /\
    length tr = 2%nat.
Proof.
  eexists _, _. split; [lazy; reflexivity | reflexivity].
Qed.

(** The formula of the specification on the same three settings: 3. *)
Lemma squareMinimum_formula :
  outerPasses (Double.valueOf (99 / 100)%float) (Double.valueOf 1%float)
    (Double.valueOf (99 / 100 * (99 / 100))%float) = 3%nat.
Proof.
  rewrite (valueOf_finite (99 / 100)%float 8917127262193582 (-53) eq_refl eq_refl).
  rewrite (valueOf_finite 1%float 4503599627370496 (-52) eq_refl eq_refl).
  rewrite (valueOf_finite (99 / 100 * (99 / 100))%float 8827955989571646 (-53)
             eq_refl eq_refl).
  change (2 ^ (- -53))%Z with 9007199254740992%Z.
  change (2 ^ (- -52))%Z with 4503599627370496%Z.
  replace (4503599627370496 / 4503599627370496) with 1 by lra.
  set (F := 8917127262193582 / 9007199254740992).
  set (Mn := 8827955989571646 / 9007199254740992).
  assert (Hf : 0 < F < 1) by (unfold F; lra).
  assert (Hm : 0 < Mn < 1) by (unfold Mn; lra).
  destruct (outerPasses_first F 1 Mn Hf Hm) as [Hstop Hgo].
  remember (outerPasses F 1 Mn) as N eqn:EN.
  assert (H3 : F * (F * F) <= Mn) by (unfold F, Mn; lra).
  assert (H2 : Mn < F * F) by (unfold F, Mn; lra).
  destruct (Nat.lt_trichotomy N 3) as [Hlt | [Heq | Hgt]].
  - destruct N as [| [| [| N]]]; simpl in Hstop; try lia; nra.
  - exact Heq.
  - specialize (Hgo 3%nat Hgt). simpl in Hgo. nra.
Qed.

(** ** Schedules that never reach the minimum *)

Lemma cooled_succ (factor t : float) (j : nat) :
  Double.cooled factor t (S j) = (Double.cooled factor t j * factor)%float.
Proof. reflexivity. Qed.

(** Once a product is rounded back to the temperature, the temperature
    stays. *)
Lemma cooled_fixed (factor t : float) (K : nat) :
  Double.cooled factor t (S K) = Double.cooled factor t K ->
  forall j, (K <= j)%nat -> Double.cooled factor t j = Double.cooled factor t K.
Proof.
  intros Hfix j Hj. induction j as [| j IH].
  - replace K with O by lia. reflexivity.
  - destruct (Nat.eq_dec K (S j)) as [-> | Hne]; [reflexivity |].
    rewrite cooled_succ, IH by lia. rewrite <- cooled_succ. exact Hfix.
Qed.

Lemma allAbove_spec (n : nat) (factor minimum : float) :
  forall t, Double.allAbove n factor minimum t = true ->
  forall j, (j < n)%nat ->
            (minimum <? Double.cooled factor t j)%float = true.
Proof.
  induction n as [| n IH]; intros t H j Hj; [lia |].
  simpl in H. apply andb_prop in H. destruct H as [H0 H].
  destruct j as [| j]; [exact H0 |].
  rewrite cooled_succ_r. apply IH; [exact H | lia].
Qed.

(** A loop whose schedule stays above the minimum has not ended, however
    long it is observed. *)
Lemma runTrace_not_ended {W T : Type} (Math_random : M W float)
  (Math_exp : float -> float) (args : Double.SimulatedAnnealingArgs W T)
  (fuel : nat) (w w' : W) (s : Double.RunState T) (tr : Double.Trace W T)
  (ended : bool) :
  (forall j,
      (Double.theMinimumTemperature args
       <? Double.cooled (Double.theCoolingFactor args)
            (Double.theInitialTemperature args) j)%float = true) ->
  Double.runTrace Math_random Math_exp args fuel w = Some ((s, tr, ended), w') ->
  ended = false /\ length tr = fuel.
Proof.
  intros Habove H. unfold Double.runTrace in H.
  apply bind_Some in H. destruct H as (s0 & w0 & Hinit & H).
  apply initialise_inv_64 in Hinit.
  apply whileLoop_shape_64 in H. rewrite Hinit in H.
  destruct H as (_ & Hend & Hflag & Hout & _).
  rewrite Hend, Habove in Hflag.
  destruct ended; [discriminate |]. split; [reflexivity | apply Hout; reflexivity].
Qed.

(** A schedule that is above the minimum up to a product that is rounded
    back to the temperature it was made from is above the minimum for
    ever. *)
Lemma stalled_schedule_stays_above (factor minimum initial : float) (K : nat) :
  (forall j, (j <= K)%nat ->
             (minimum <? Double.cooled factor initial j)%float = true) ->
  Double.cooled factor initial (S K) = Double.cooled factor initial K ->
  forall j, (minimum <? Double.cooled factor initial j)%float = true.
Proof.
  intros Hgo Hfix j.
  destruct (Nat.le_gt_cases j K) as [Hj | Hj]; [apply Hgo; exact Hj |].
  rewrite (cooled_fixed _ _ K Hfix j) by lia. apply Hgo. lia.
Qed.

(** X22. When the rounded schedule stops going down while it is still
    above the minimum (some product is rounded back to the temperature it
    was made from, as happens for a factor of 1, for an infinite
    temperature, and for a temperature so small that the product rounds
    back to it), the call never returns, whatever the strategies do: the
    loop has not ended however long it is observed. *)
Theorem run_never_returns_when_cooling_stalls {W T : Type}
  (Math_random : M W float) (Math_exp : float -> float)
  (args : Double.SimulatedAnnealingArgs W T) (K : nat) :
  (forall j, (j <= K)%nat ->
     (Double.theMinimumTemperature args
      <? Double.cooled (Double.theCoolingFactor args)
           (Double.theInitialTemperature args) j)%float = true) ->
  Double.cooled (Double.theCoolingFactor args)
    (Double.theInitialTemperature args) (S K)
  = Double.cooled (Double.theCoolingFactor args)
      (Double.theInitialTemperature args) K ->
  forall fuel w,
    Double.runSimulatedAnnealing Math_random Math_exp args fuel w = None /\
    forall s tr ended w',
      Double.runTrace Math_random Math_exp args fuel w
      = Some ((s, tr, ended), w') ->
      ended = false /\ length tr = fuel.
Proof.
  intros Hgo Hfix fuel w.
  pose proof (stalled_schedule_stays_above _ _ _ K Hgo Hfix) as Habove.
  split.
  - unfold Double.runSimulatedAnnealing, bind.
    destruct (Double.runTrace Math_random Math_exp args fuel w)
      as [[[[s tr] ended] w'] |] eqn:E; [| reflexivity].
    destruct (runTrace_not_ended Math_random Math_exp args _ _ _ _ _ _ Habove E)
      as [-> _].
    reflexivity.
  - intros s tr ended w' E.
    exact (runTrace_not_ended Math_random Math_exp args _ _ _ _ _ _ Habove E).
Qed.

(** The default schedule against a minimum of 0: above 0 for 73671
    products, and then [49 * 2^-1074] for ever. *)
Lemma default_schedule_stalls :
  Double.allAbove (Pos.to_nat 73672) (99 / 100)%float 0%float 1%float = true /\
  Double.cooled (99 / 100)%float 1%float (Pos.to_nat 73671) = 0x31p-1074%float /\
  (0x31p-1074 * (99 / 100))%float = 0x31p-1074%float.
Proof. split; [| split]; vm_compute; reflexivity. Qed.

(** X23. With the default cooling factor and initial temperature and a
    minimum temperature of 0, the call never returns: after 73671
    coolings the temperature is [49 * 2^-1074], about 2.4e-322, and its
    product by 0.99 is rounded back to it. *)
Theorem zero_minimum_never_returns {W T : Type}
  (Math_random : M W float) (Math_exp : float -> float)
  (args : Double.SimulatedAnnealingArgs W T) (fuel : nat) (w : W) :
  Double.theCoolingFactor args = (99 / 100)%float ->
  Double.theInitialTemperature args = 1%float ->
  Double.theMinimumTemperature args = 0%float ->
  Double.runSimulatedAnnealing Math_random Math_exp args fuel w = None /\
  Double.cooled (Double.theCoolingFactor args)
    (Double.theInitialTemperature args) (Pos.to_nat 73671)
  = 0x31p-1074%float.
Proof.
  intros Hf Hi Hm. rewrite Hf, Hi.
  destruct default_schedule_stalls as (Hall & Hat & Hfix).
  split; [| exact Hat].
  assert (Habove : forall j,
             (Double.theMinimumTemperature args
              <? Double.cooled (Double.theCoolingFactor args)
                   (Double.theInitialTemperature args) j)%float = true).
  { rewrite Hf, Hi, Hm.
    apply (stalled_schedule_stays_above _ _ _ (Pos.to_nat 73671)).
    - intros j Hj.
      apply (allAbove_spec (Pos.to_nat 73672)); [exact Hall | lia].
    - rewrite cooled_succ, Hat. exact Hfix. }
  unfold Double.runSimulatedAnnealing, bind.
  destruct (Double.runTrace Math_random Math_exp args fuel w)
    as [[[[s tr] ended] w'] |] eqn:E; [| reflexivity].
  destruct (runTrace_not_ended Math_random Math_exp args _ _ _ _ _ _ Habove E)
    as [-> _].
  reflexivity.
Qed.

(** ** The default schedule, in binary64 *)

(** In binary64 too the defaults give 1146 outer passes: the rounded
    products of 1 by 0.99 are above 0.00001 up to the 1145th, and the
    1146th is not. *)
Lemma default_schedule_bounds_64 :
  Double.allAbove 1146 (99 / 100)%float (1 / 100000)%float 1%float = true /\
  (1 / 100000 <? Double.cooled (99 / 100) 1 1146)%float = false.
Proof. split; vm_compute; reflexivity. Qed.

(** X24. With no options and strategies that return, a run makes exactly
    1146 passes of the outer loop and 11460 passes of the inner loop in
    the arithmetic of the code as well: rounding does not move the
    count. *)
Theorem default_schedule_makes_1146_outer_passes_in_binary64 {W T : Type}
  (Math_random : M W float) (Math_exp : float -> float)
  (args : Double.SimulatedAnnealingArgs W T) (fuel : nat) (w : W) :
  Double.options args = None ->
  Double.terminating Math_random args ->
  (1146 <= fuel)%nat ->
  exists s tr w',
    Double.runTrace Math_random Math_exp args fuel w
    = Some ((s, tr, true), w') /\
    length tr = 1146%nat /\
    length (Double.swaps tr) = (1146 * 10)%nat.
Proof.
  intros Hopts Hret Hfuel.
  assert (Hf : Double.theCoolingFactor args = (99 / 100)%float)
    by (unfold Double.theCoolingFactor, Double.settings; rewrite Hopts;
        reflexivity).
  assert (Hi : Double.theInitialTemperature args = 1%float)
    by (unfold Double.theInitialTemperature, Double.settings; rewrite Hopts;
        reflexivity).
  assert (Hm : Double.theMinimumTemperature args = (1 / 100000)%float)
    by (unfold Double.theMinimumTemperature, Double.settings; rewrite Hopts;
        reflexivity).
  assert (Hn : Double.theSwapsPerTemperature args = 10%nat)
    by (unfold Double.theSwapsPerTemperature, Double.settings; rewrite Hopts;
        reflexivity).
  destruct default_schedule_bounds_64 as [Hall Hstop].
  destruct (runTrace_count_64 Math_random Math_exp args 1146 Hret)
    with (fuel := fuel) (w := w) as (s & tr & w' & H & Hlen & Hswaps).
  - rewrite Hf, Hi, Hm. apply allAbove_spec. exact Hall.
  - rewrite Hf, Hi, Hm. exact Hstop.
  - exact Hfuel.
  - exists s, tr, w'. split; [exact H |]. split; [exact Hlen |].
    unfold Double.swaps. rewrite Hn in Hswaps.
    rewrite (concat_length_uniform 10).
    + rewrite length_map, Hlen. reflexivity.
    + apply Forall_map. exact Hswaps.
Qed.

(** ** The revised claims on examples *)

(** C4, as stated, fails. With a cooling factor of 0.99, an initial
    temperature of 1 and the rounded square of 0.99 for a minimum, the
    settings are as the claim wants them, the run makes 2 passes of the
    outer loop (the second product is rounded down to the minimum), and
    the formula of the specification gives 3 for the numbers these
    settings stand for. *)
Lemma rounded_schedule_stops_before_the_formula :
  ((0 <? 99 / 100)%float = true /\ (99 / 100 <? 1)%float = true /\
   (0 <? 99 / 100 * (99 / 100))%float = true /\
   (99 / 100 * (99 / 100) <? 1)%float = true) /\
  (exists s tr,
      Double.runTrace (Double.fixedDraw 0.5) Double.sampleExp
        (Double.descentArgs 5 (Some Double.squareMinimum)) 5 tt
      = Some ((s, tr, true), tt) /\
      length tr = 2%nat) /\
  outerPasses (Double.valueOf (99 / 100)%float) (Double.valueOf 1%float)
    (Double.valueOf (99 / 100 * (99 / 100))%float) = 3%nat.
Proof.
  split; [repeat split; reflexivity |].
  split; [exact squareMinimum_run | exact squareMinimum_formula].
Qed.

(** C4 at the descent by halves: 2 outer passes of 2 inner passes. *)
Lemma outer_loop_pass_count_witness :
  exists N,
    (Double.theMinimumTemperature (Double.descentArgs 5 (Some Double.halving))
     <? Double.cooled 0.5 1 N)%float = false /\
    forall fuel, (N <= fuel)%nat ->
      exists s tr w',
        Double.runTrace (Double.fixedDraw 0.5) Double.sampleExp
          (Double.descentArgs 5 (Some Double.halving)) fuel tt
        = Some ((s, tr, true), w') /\
        length tr = N /\
        Forall (fun pass => length (snd pass) = 2%nat) tr.
Proof.
  destruct (outer_loop_pass_count (Double.fixedDraw 0.5) Double.sampleExp
              (Double.descentArgs 5 (Some Double.halving))
              (descent_terminating_64 0.5 5 (Some Double.halving))
              eq_refl eq_refl eq_refl eq_refl)
    as (N & _ & Hstop & Hrun).
  exists N. split; [exact Hstop |].
  intros fuel Hfuel. exact (Hrun fuel tt Hfuel).
Defined.

(** C9, as stated, fails. With a cooling factor of 0.99 and an initial
    temperature of [49 * 2^-1074], which is positive, the product of the
    temperature by the factor is rounded back to the temperature: the
    outer passes all run at the same temperature, and with a minimum of
    0 there is no end to them. *)
Lemma temperature_stalls_below_the_normal_range :
  ((0 <? 99 / 100)%float = true /\ (99 / 100 <? 1)%float = true /\
   (0 <? 0x31p-1074)%float = true) /\
  (0x31p-1074 * (99 / 100))%float = 0x31p-1074%float /\
  (exists s tr,
      Double.runTrace (Double.fixedDraw 0.5) Double.sampleExp
        (Double.descentArgs 5 (Some Double.stalling)) 3 tt
      = Some ((s, tr, false), tt) /\
      Double.temperatures tr = [0x31p-1074; 0x31p-1074; 0x31p-1074]%float /\
      Double.currentTemperature s = 0x31p-1074%float) /\
  (forall fuel s tr ended w',
      Double.runTrace (Double.fixedDraw 0.5) Double.sampleExp
        (Double.descentArgs 5 (Some Double.stalling)) fuel tt
      = Some ((s, tr, ended), w') ->
      ended = false /\ length tr = fuel).
Proof.
  split; [repeat split; reflexivity |]. split; [reflexivity |]. split.
  - eexists _, _. split; [lazy; reflexivity |]. split; reflexivity.
  - intros fuel s tr ended w' H.
    apply (runTrace_not_ended (Double.fixedDraw 0.5) Double.sampleExp
             (Double.descentArgs 5 (Some Double.stalling)) fuel tt w' s tr ended);
      [| exact H].
    apply (stalled_schedule_stays_above _ _ _ 0).
    + intros j Hj. replace j with O by lia. reflexivity.
    + reflexivity.
Qed.

(** C9 at the descent by halves: 1, 1/2, and 1/4 at the end. *)
Lemma temperatures_strictly_decrease_witness :
  exists s tr,
    Double.runTrace (Double.fixedDraw 0.5) Double.sampleExp
      (Double.descentArgs 5 (Some Double.halving)) 5 tt
    = Some ((s, tr, true), tt) /\
    Double.temperatures tr ++ [Double.currentTemperature s]
    = [1; 0.5; 0.25]%float /\
    Double.strictlyDecreasing
      (Double.temperatures tr ++ [Double.currentTemperature s]).
Proof.
  destruct halving_run as (s & tr & H & Ht & Hs & _).
  exists s, tr. split; [exact H |]. split; [rewrite Ht, Hs; reflexivity |].
  exact (temperatures_strictly_decrease (Double.fixedDraw 0.5) Double.sampleExp
           (Double.descentArgs 5 (Some Double.halving)) 5 tt tt s tr true
           eq_refl eq_refl eq_refl eq_refl H).
Defined.

(** X5 at the descent by halves. *)
Lemma run_follows_the_schedule_witness :
  exists s tr,
    Double.runTrace (Double.fixedDraw 0.5) Double.sampleExp
      (Double.descentArgs 5 (Some Double.halving)) 5 tt
    = Some ((s, tr, true), tt) /\
    Double.currentTemperature s = Double.cooled 0.5 1 (length tr) /\
    (0.25 <? Double.currentTemperature s)%float = false.
Proof.
  destruct halving_run as (s & tr & H & _).
  exists s, tr. split; [exact H |].
  exact (proj2 (proj2 (run_follows_the_schedule (Double.fixedDraw 0.5)
                         Double.sampleExp
                         (Double.descentArgs 5 (Some Double.halving))
                         5 tt tt s tr true H))).
Defined.



(** X22 at the stalling schedule. *)
Lemma run_never_returns_witness :
  Double.runSimulatedAnnealing (Double.fixedDraw 0.5) Double.sampleExp
    (Double.descentArgs 5 (Some Double.stalling)) 1000 tt
  = None.
Proof.
  apply (run_never_returns_when_cooling_stalls (Double.fixedDraw 0.5)
           Double.sampleExp (Double.descentArgs 5 (Some Double.stalling)) 0).
  - intros j Hj. replace j with O by lia. reflexivity.
  - reflexivity.
Defined.

(** X23 at the descent from 5. *)
Lemma zero_minimum_witness :
  Double.runSimulatedAnnealing (Double.fixedDraw 0.5) Double.sampleExp
    (Double.descentArgs 5 (Some Double.untilCold)) 1000 tt
  = None.
Proof.
  exact (proj1 (zero_minimum_never_returns (Double.fixedDraw 0.5)
                  Double.sampleExp
                  (Double.descentArgs 5 (Some Double.untilCold)) 1000 tt
                  eq_refl eq_refl eq_refl)).
Defined.

(** X24 at the descent from 5. *)
Lemma default_schedule_in_binary64_witness :
  exists s tr w',
    Double.runTrace (Double.fixedDraw 0.5) Double.sampleExp
      (Double.descentArgs 5 None) 1146 tt
    = Some ((s, tr, true), w') /\
    length tr = 1146%nat /\
    length (Double.swaps tr) = (1146 * 10)%nat.
Proof.
  exact (default_schedule_makes_1146_outer_passes_in_binary64
           (Double.fixedDraw 0.5) Double.sampleExp (Double.descentArgs 5 None)
           1146 tt eq_refl (descent_terminating_64 0.5 5 None)
           (Nat.le_refl 1146)).
Defined.

(** ** The acceptance test at temperature 0 *)

Lemma Prim2SF_nan (x : float) : Prim2SF x = S754_nan -> x = nan.
Proof. intros H. rewrite <- (SF2Prim_Prim2SF x), H. reflexivity. Qed.

Lemma Prim2SF_neg_infinity (x : float) :
  Prim2SF x = S754_infinity true -> x = neg_infinity.
Proof. intros H. rewrite <- (SF2Prim_Prim2SF x), H. reflexivity. Qed.

(** A number that is not below 0, negated and divided by [+0], is
    [-Infinity] or NaN. *)
Lemma opp_div_zero (delta : float) :
  (delta <? 0)%float = false ->
  (- delta / 0)%float = neg_infinity \/ (- delta / 0)%float = nan.
Proof.
  rewrite ltb_spec. change (Prim2SF 0) with (S754_zero false). intros H.
  assert (E : Prim2SF (- delta / 0)%float
              = SFdiv prec emax (SFopp (Prim2SF delta)) (S754_zero false)).
  { rewrite div_spec, opp_spec. reflexivity. }
  destruct (Prim2SF delta) as [[] | [] | | [] m e];
    try discriminate H; cbn [SFopp SFdiv xorb] in E;
    first [ left; apply Prim2SF_neg_infinity; exact E
          | right; apply Prim2SF_nan; exact E ].
Qed.

Lemma ltb_nan_r (u : float) : (u <? nan)%float = false.
Proof.
  rewrite ltb_spec. change (Prim2SF nan) with S754_nan.
  destruct (Prim2SF u) as [[] | [] | | [] m e]; reflexivity.
Qed.

(** X25. At a temperature of [+0] the test accepts exactly the neighbors
    with a negative change in cost, given what ECMAScript fixes of
    [Math.exp] ([Math.exp(-Infinity)] is [+0], [Math.exp(NaN)] is NaN)
    and draws that are not below 0: for a neighbor that costs more the
    quotient is [-Infinity], for one that costs the same it is NaN. *)
Theorem acceptance_at_temperature_zero {W : Type} (Math_random : M W float)
  (Math_exp : float -> float) (changeInCost : float) (w w' : W) (taken : bool) :
  Math_exp neg_infinity = 0%float ->
  Math_exp nan = nan ->
  (forall w0 u w1, Math_random w0 = Some (u, w1) -> (u <? 0)%float = false) ->
  Double.acceptanceTest Math_random Math_exp changeInCost 0 w
  = Some (taken, w') ->
  taken = (changeInCost <? 0)%float.
Proof.
  intros Hinf Hnan Hrange H. unfold Double.acceptanceTest in H.
  destruct (changeInCost <? 0)%float eqn:E.
  - apply ret_Some in H. destruct H as [<- _]. reflexivity.
  - apply bind_Some in H. destruct H as (u & w1 & Hu & H).
    apply ret_Some in H. destruct H as [<- _].
    destruct (opp_div_zero changeInCost E) as [-> | ->].
    + rewrite Hinf. exact (Hrange w u w1 Hu).
    + rewrite Hnan. apply ltb_nan_r.
Qed.

(** X25 with a neighbor that costs 1 more and a draw of 0. *)
Lemma acceptance_at_temperature_zero_witness :
  Double.acceptanceTest (Double.fixedDraw 0) Double.sampleExp 1 0 tt
  = Some (false, tt).
Proof.
  assert (H : exists taken,
             Double.acceptanceTest (Double.fixedDraw 0) Double.sampleExp 1 0 tt
             = Some (taken, tt)).
  { eexists. lazy. reflexivity. }
  destruct H as (taken & H).
  rewrite H.
  rewrite (acceptance_at_temperature_zero (Double.fixedDraw 0) Double.sampleExp
             1 tt tt taken eq_refl eq_refl
             ltac:(intros w0 u w1 E; injection E as <- _; reflexivity) H).
  reflexivity.
Defined.
